(** * fairscale: memory-saving softmax kernels and the SSD tensor handle

    A shallow embedding of [fairscale/experimental/nn/sparse_softmax.py].

    Conventions of the embedding:
    - a 2-D tensor is a record holding its dtype tag, its number of columns
      (kept explicitly, so that an empty tensor still has a width) and its
      rows; floating point values are modelled by exact rationals ([Q]),
      rounding is not modelled;
    - the result of a softmax is real valued ([R], with the library's [exp]);
    - Python exceptions are values of [error], fallible code lives in the
      [result] monad;
    - [torch.topk] and [faiss.knn_gpu] are external routines; they are
      modelled by their documented contract (class [TopKOp], class [KnnOp]),
      a concrete instance of each is given for evaluation; so are the
      random draws of [get_data] (class [RandOp]). *)

From Stdlib Require Import List ZArith QArith Qreals Reals Lia Lra Bool Arith.
From Stdlib Require Import Permutation Sorted.
From Stdlib Require String Strings.Byte.
Import ListNotations.

Set Implicit Arguments.

(** ** Errors and the result monad *)

Inductive runtime_cause : Type :=
| SplitSize          (* torch.split: bad split_size *)
| TopkOutOfRange     (* torch.topk: selected index k out of range *)
| DtypeMismatch      (* F.linear / sparse add on different dtypes *)
| ShapeMismatch      (* sizes that do not agree *)
| IndexOutOfRange    (* torch.gather: index out of bounds *)
| EmptyCat.          (* torch.cat on an empty list *)

Inductive error : Type :=
| AssertionError
| ZeroDivisionError
| RuntimeError (c : runtime_cause).

Inductive result (A : Type) : Type :=
| Ok (a : A)
| Err (e : error).
Arguments Ok {A} a.
Arguments Err {A} e.

Definition bind {A B : Type} (r : result A) (f : A -> result B) : result B :=
  match r with
  | Ok a => f a
  | Err e => Err e
  end.

Notation "x <- c1 ;; c2" := (bind c1 (fun x => c2))
  (at level 61, c1 at next level, right associativity).
Notation "' pat <- c1 ;; c2" := (bind c1 (fun x => match x with pat => c2 end))
  (at level 61, pat pattern, c1 at next level, right associativity).

Definition py_assert (b : bool) : result unit :=
  if b then Ok tt else Err AssertionError.

(** ** Tensors *)

Inductive dtype : Type := Float16 | Float32 | Float64.

Definition dtype_eqb (a b : dtype) : bool :=
  match a, b with
  | Float16, Float16 | Float32, Float32 | Float64, Float64 => true
  | _, _ => false
  end.

(** A dense 2-D tensor of (exact) floating point values. *)
Record tensor : Type := mkTensor {
  t_dtype : dtype;
  t_ncols : nat;
  t_rows : list (list Q)
}.

Definition t_nrows (t : tensor) : nat := length (t_rows t).

(** Every row has the recorded width. *)
Definition wf_tensor (t : tensor) : Prop :=
  Forall (fun r => length r = t_ncols t) (t_rows t).

(** A dense 2-D tensor of indices ([torch.long]). *)
Record itensor : Type := mkITensor {
  i_ncols : nat;
  i_rows : list (list nat)
}.

(** A dense real valued 2-D tensor: what a softmax returns. *)
Record rtensor : Type := mkRTensor {
  r_dtype : dtype;
  r_ncols : nat;
  r_rows : list (list R)
}.

(** A sparse COO tensor: entries [((row, col), value)], duplicates allowed
    until it is coalesced. *)
Record sparse : Type := mkSparse {
  s_dtype : dtype;
  s_nrows : nat;
  s_ncols : nat;
  s_entries : list ((nat * nat) * Q)
}.

(** What a kernel's [forward] hands back ([-> Any] in the source). *)
Inductive pyval : Type :=
| PyTensor (t : rtensor)
| PyList (l : list rtensor).

(** ** Torch primitives *)

Module Torch.

Definition qsum (l : list Q) : Q := fold_right Qplus 0%Q l.

Fixpoint zip_with {A B C : Type} (f : A -> B -> C) (a : list A) (b : list B)
  : list C :=
  match a, b with
  | x :: a', y :: b' => f x y :: zip_with f a' b'
  | _, _ => []
  end.

Definition dot (a b : list Q) : Q := qsum (zip_with Qmult a b).

(** [F.linear(input, weight)] without bias: [x[t][c] = sum_h input[t][h] *
    weight[c][h]]; both operands must have the same dtype and the same
    number of columns. *)
Definition linear (input weight : tensor) : result tensor :=
  if negb (dtype_eqb (t_dtype input) (t_dtype weight)) then
    Err (RuntimeError DtypeMismatch)
  else if negb (t_ncols input =? t_ncols weight)%nat then
    Err (RuntimeError ShapeMismatch)
  else
    Ok (mkTensor (t_dtype input) (t_nrows weight)
          (map (fun r => map (fun w => dot r w) (t_rows weight)) (t_rows input))).

(** [chunks n l]: consecutive pieces of [n] elements, the last one shorter
    when [n] does not divide the length. *)
Fixpoint chunks_fuel {A : Type} (fuel n : nat) (l : list A) : list (list A) :=
  match fuel with
  | O => []
  | S fuel' =>
      match l with
      | [] => []
      | _ => firstn n l :: chunks_fuel fuel' n (skipn n l)
      end
  end.

Definition chunks {A : Type} (n : nat) (l : list A) : list (list A) :=
  chunks_fuel (length l) n l.

(** [torch.split(t, split_size, 0)] on the rows of a tensor.  A negative
    split size is refused, a zero one only accepted on an empty dimension;
    an empty dimension yields one empty chunk. *)
Definition split_rows {A : Type} (l : list A) (split_size : Z)
  : result (list (list A)) :=
  if (split_size <? 0)%Z then Err (RuntimeError SplitSize)
  else if (split_size =? 0)%Z then
    match l with
    | [] => Ok [[]]
    | _ => Err (RuntimeError SplitSize)
    end
  else
    match l with
    | [] => Ok [[]]
    | _ => Ok (chunks (Z.to_nat split_size) l)
    end.

Definition split (t : tensor) (split_size : Z) : result (list tensor) :=
  cs <- split_rows (t_rows t) split_size ;;
  Ok (map (mkTensor (t_dtype t) (t_ncols t)) cs).

(** [t.T] *)
Definition transpose_rows (ncols : nat) (rows : list (list Q)) : list (list Q) :=
  map (fun j => map (fun r => nth j r 0%Q) rows) (seq 0 ncols).

Definition transpose (t : tensor) : tensor :=
  mkTensor (t_dtype t) (t_nrows t) (transpose_rows (t_ncols t) (t_rows t)).

(** [target.expand(n, len(target))] *)
Definition expand (target : list nat) (n : nat) : itensor :=
  mkITensor (length target) (repeat target n).

(** [torch.gather(src, 1, index)]: [out[i][j] = src[i][index[i][j]]]; an
    index outside the row is an error. *)
Definition gather (src : tensor) (index : itensor) : result tensor :=
  if forallb (forallb (fun i => i <? t_ncols src)%nat) (i_rows index) then
    Ok (mkTensor (t_dtype src) (i_ncols index)
          (zip_with (fun row irow => map (fun i => nth i row 0%Q) irow)
             (t_rows src) (i_rows index)))
  else Err (RuntimeError IndexOutOfRange).

(** [torch.gather(idx, 1, I)] on index tensors whose [I] comes out of
    [topk] (always in range). *)
Definition igather (src index : itensor) : itensor :=
  mkITensor (i_ncols index)
    (zip_with (fun row irow => map (fun i => nth i row 0%nat) irow)
       (i_rows src) (i_rows index)).

(** Type promotion of an arithmetic operation on two tensors. *)
Definition promote (a b : dtype) : dtype :=
  match a, b with
  | Float64, _ | _, Float64 => Float64
  | Float32, _ | _, Float32 => Float32
  | Float16, Float16 => Float16
  end.

(** [(a * b).sum(dim=1)] for two tensors of the same shape: the dtype of
    the result and its values.  (Broadcasting is not modelled: operands of
    different shapes are refused here; in the kernels below the shapes that
    would broadcast are refused a line later by [sparse_coo_tensor].) *)
Definition mul_sum_dim1 (a b : tensor) : result (dtype * list Q) :=
  if negb ((t_nrows a =? t_nrows b)%nat && (t_ncols a =? t_ncols b)%nat) then
    Err (RuntimeError ShapeMismatch)
  else Ok (promote (t_dtype a) (t_dtype b), zip_with dot (t_rows a) (t_rows b)).

(** [torch.cat(ts, dim=-1)] *)
Fixpoint cat_rows {A : Type} (ts : list (list (list A))) : list (list A) :=
  match ts with
  | [] => []
  | t :: ts' =>
      match ts' with
      | [] => t
      | _ => zip_with (@app A) t (cat_rows ts')
      end
  end.

Definition cat (ts : list tensor) : result tensor :=
  match ts with
  | [] => Err (RuntimeError EmptyCat)
  | t :: _ =>
      Ok (mkTensor (t_dtype t) (fold_right (fun t n => t_ncols t + n)%nat 0%nat ts)
            (cat_rows (map t_rows ts)))
  end.

Definition icat (ts : list itensor) : result itensor :=
  match ts with
  | [] => Err (RuntimeError EmptyCat)
  | _ =>
      Ok (mkITensor (fold_right (fun t n => i_ncols t + n)%nat 0%nat ts)
            (cat_rows (map i_rows ts)))
  end.

(** *** [torch.topk]

    The routine is external.  Its contract: on a row [xs] and [k <= length xs]
    it returns [k] pairs (value, index) with distinct indices, each value
    being the element at its index, and every element left out is no larger
    than any value returned.  Which of several equal elements is returned is
    not specified. *)
Definition is_topk (xs : list Q) (k : nat) (r : list (Q * nat)) : Prop :=
  length r = k /\
  NoDup (map snd r) /\
  (forall v i, In (v, i) r -> (i < length xs)%nat /\ nth i xs 0%Q = v) /\
  (forall v j, In v (map fst r) -> (j < length xs)%nat ->
               ~ In j (map snd r) -> (nth j xs 0%Q <= v)%Q).

Class TopKOp : Type := {
  topk_row : list Q -> nat -> list (Q * nat);
  topk_row_spec : forall xs k, (k <= length xs)%nat -> is_topk xs k (topk_row xs k)
}.

(** [torch.topk(x, k)] along the last dimension; [k] must lie in
    [0 .. width]. *)
Definition topk `{TopKOp} (x : tensor) (k : Z) : result (tensor * itensor) :=
  if ((k <? 0)%Z || (Z.of_nat (t_ncols x) <? k)%Z)%bool then
    Err (RuntimeError TopkOutOfRange)
  else
    let kn := Z.to_nat k in
    Ok (mkTensor (t_dtype x) kn (map (fun r => map fst (topk_row r kn)) (t_rows x)),
        mkITensor kn (map (fun r => map snd (topk_row r kn)) (t_rows x))).

(** A concrete [topk]: stable insertion sort by decreasing value (of equal
    values the one with the smaller index comes first), then the first [k]. *)
Fixpoint insert_desc (p : Q * nat) (l : list (Q * nat)) : list (Q * nat) :=
  match l with
  | [] => [p]
  | q :: l' =>
      if Qle_bool (fst q) (fst p) then p :: q :: l'
      else q :: insert_desc p l'
  end.

Definition sort_desc (l : list (Q * nat)) : list (Q * nat) :=
  fold_right insert_desc [] l.

Definition topk_stable (xs : list Q) (k : nat) : list (Q * nat) :=
  firstn k (sort_desc (combine xs (seq 0 (length xs)))).

(** [I + base] *)
Definition add_base (i : itensor) (base : nat) : itensor :=
  mkITensor (i_ncols i) (map (map (fun x => x + base)%nat) (i_rows i)).

(** [torch.arange(n).expand(k, n).T]: [j[t][i] = t], shape [(n, k)]. *)
Definition arange_expand_T (n k : nat) : list (list nat) :=
  map (fun t => repeat t k) (seq 0 n).

(** [torch.cat([j.reshape(1, -1), idx.reshape(1, -1)])]: the list of
    coordinates of a COO tensor. *)
Definition coo_indices (j idx : list (list nat)) : list (nat * nat) :=
  combine (concat j) (concat idx).

Definition sparse_coo_tensor (indices : list (nat * nat)) (values : list Q)
  (dt : dtype) (nrows ncols : nat) : sparse :=
  mkSparse dt nrows ncols (combine indices values).

(** [a += b] on sparse tensors: the entries of [b] are appended, entries at
    equal coordinates stand for their sum. *)
Definition sparse_add (a b : sparse) : result sparse :=
  if negb (dtype_eqb (s_dtype a) (s_dtype b)) then
    Err (RuntimeError DtypeMismatch)
  else if negb ((s_nrows a =? s_nrows b)%nat && (s_ncols a =? s_ncols b)%nat) then
    Err (RuntimeError ShapeMismatch)
  else Ok (mkSparse (s_dtype a) (s_nrows a) (s_ncols a)
             (s_entries a ++ s_entries b)).

(** [s.float()] *)
Definition sparse_float (s : sparse) : sparse :=
  mkSparse Float32 (s_nrows s) (s_ncols s) (s_entries s).

(** *** Coalescing: sort the coordinates, sum the duplicates *)

Definition key_ltb (a b : nat * nat) : bool :=
  ((fst a <? fst b) || ((fst a =? fst b) && (snd a <? snd b)))%nat.

Definition key_eqb (a b : nat * nat) : bool :=
  ((fst a =? fst b) && (snd a =? snd b))%nat.

Fixpoint sp_insert (k : nat * nat) (v : Q) (l : list ((nat * nat) * Q))
  : list ((nat * nat) * Q) :=
  match l with
  | [] => [(k, v)]
  | (k', v') :: l' =>
      if key_ltb k k' then (k, v) :: l
      else if key_eqb k k' then (k', Qplus v' v) :: l'
      else (k', v') :: sp_insert k v l'
  end.

Definition coalesce (es : list ((nat * nat) * Q)) : list ((nat * nat) * Q) :=
  fold_right (fun e acc => sp_insert (fst e) (snd e) acc) [] es.

Fixpoint lookup {V : Type} (k : nat * nat) (l : list ((nat * nat) * V))
  : option V :=
  match l with
  | [] => None
  | (k', v) :: l' => if key_eqb k k' then Some v else lookup k l'
  end.

(** *** Softmax *)

Definition rsum (l : list R) : R := fold_right Rplus 0%R l.

Definition rmax_list (l : list R) : R :=
  match l with
  | [] => 0%R
  | x :: l' => fold_right Rmax x l'
  end.

(** Softmax of one row, the way it is computed: shift by the maximum,
    exponentiate, divide by the sum. *)
Definition softmax_row (xs : list Q) : list R :=
  let vs := map Q2R xs in
  let m := rmax_list vs in
  let s := rsum (map (fun v => exp (v - m)) vs) in
  map (fun v => (exp (v - m) / s)%R) vs.

(** [F.softmax(x, dim=-1)] *)
Definition softmax (x : tensor) : rtensor :=
  mkRTensor (t_dtype x) (t_ncols x) (map softmax_row (t_rows x)).

(** [x.float()] *)
Definition float (x : tensor) : tensor :=
  mkTensor Float32 (t_ncols x) (t_rows x).

(** A sparse tensor of reals. *)
Record rsparse : Type := mkRSparse {
  rs_dtype : dtype;
  rs_nrows : nat;
  rs_ncols : nat;
  rs_entries : list ((nat * nat) * R)
}.

Definition row_entries {V : Type} (r : nat) (es : list ((nat * nat) * V))
  : list ((nat * nat) * V) :=
  filter (fun e => (fst (fst e) =? r)%nat) es.

(** [torch.sparse.softmax(s, dim=1)]: the tensor is coalesced, then every
    row is normalised over its specified entries only. *)
Definition sparse_softmax (s : sparse) : rsparse :=
  let es := coalesce (s_entries s) in
  mkRSparse (s_dtype s) (s_nrows s) (s_ncols s)
    (map (fun e =>
            let vs := map (fun e' => Q2R (snd e')) (row_entries (fst (fst e)) es) in
            let m := rmax_list vs in
            (fst e, (exp (Q2R (snd e) - m) / rsum (map (fun v => exp (v - m)) vs))%R))
         es).

(** [s.to_dense()]: unspecified entries are zero. *)
Definition to_dense (s : rsparse) : rtensor :=
  mkRTensor (rs_dtype s) (rs_ncols s)
    (map (fun r =>
            map (fun c => match lookup (r, c) (rs_entries s) with
                          | Some v => v
                          | None => 0%R
                          end)
                (seq 0 (rs_ncols s)))
         (seq 0 (rs_nrows s))).

End Torch.

(** ** The kernels of [sparse_softmax.py] *)

(** [out_dim // tile_factor] *)
Definition floordiv (a b : Z) : result Z :=
  if (b =? 0)%Z then Err ZeroDivisionError else Ok (a / b)%Z.

Definition is_fp16_or_fp32 (d : dtype) : bool :=
  match d with
  | Float16 | Float32 => true
  | Float64 => false
  end.

(** [a % b] on integers *)
Definition pymod (a b : Z) : result Z :=
  if (b =? 0)%Z then Err ZeroDivisionError else Ok (a mod b)%Z.

(** [x.long()]: the fractional part is dropped (truncation toward zero). *)
Definition long (q : Q) : Z := Z.quot (Qnum q) (Z.pos (Qden q)).

(** [torch.rand] and the initial weight of [nn.Linear] are external.  Their
    contract: the shapes are the requested ones ([nn.Linear(i, o).weight]
    has [o] rows of [i] columns) and a uniform sample lies in [0, 1). *)
Class RandOp : Type := {
  rand : nat -> nat -> list (list Q);
  rand_vec : nat -> list Q;
  linear_init : nat -> nat -> list (list Q);
  rand_spec : forall n m,
    length (rand n m) = n /\ Forall (fun r => length r = m) (rand n m);
  rand_vec_spec : forall n,
    length (rand_vec n) = n /\
    Forall (fun u => (0 <= u)%Q /\ (u < 1)%Q) (rand_vec n);
  linear_init_spec : forall i o,
    length (linear_init i o) = o /\
    Forall (fun r => length r = i) (linear_init i o)
}.

(** [get_data(shape, dtype)]: an activation, a weight and a target for
    testing and benchmarking. *)
Definition get_data `{RandOp} (shape : (nat * nat) * (nat * nat)) (dtype : dtype)
  : result (tensor * tensor * list nat) :=
  let '((tokens, d1), (d2, vocabs)) := shape in
  _ <- py_assert (d1 =? d2)%nat ;;
  let input := mkTensor dtype d1 (rand tokens d1) in
  let weight := mkTensor dtype d2 (linear_init d2 vocabs) in
  let target :=
    map (fun u => Z.to_nat (long (u * inject_Z (Z.of_nat vocabs))))
        (rand_vec tokens) in
  Ok (input, weight, target).

(** A source of samples that only ever draws zero. *)
Definition zero_rows (n m : nat) : list (list Q) := repeat (repeat 0%Q m) n.

Module BaselineSoftmax.

Record t : Type := mk { fc : tensor; fp16 : bool }.

(** [__init__(proj_weight, k=0)]; [k] is ignored. *)
Definition init (proj_weight : tensor) (k : Z) : result t :=
  _ <- py_assert (is_fp16_or_fp32 (t_dtype proj_weight)) ;;
  Ok (mk proj_weight (dtype_eqb (t_dtype proj_weight) Float16)).

Definition forward (self : t) (input : tensor) (target : list nat)
  : result pyval :=
  _ <- (if fp16 self then py_assert (dtype_eqb (t_dtype input) Float16)
        else Ok tt) ;;
  x <- Torch.linear input (fc self) ;;
  x <- (if fp16 self then
          _ <- py_assert (dtype_eqb (t_dtype x) Float16) ;;
          Ok (Torch.float x)
        else Ok x) ;;
  let x := Torch.softmax x in
  _ <- py_assert (dtype_eqb (r_dtype x) Float32) ;;
  Ok (PyTensor x).

End BaselineSoftmax.

Module TritonSoftmax.

(** The class derives from [BaselineSoftmax]: its fields are the parent's. *)
Definition t : Type := BaselineSoftmax.t.

(** [__init__(proj_weight, k=0)]: the parent's constructor (called without
    [k]), then the two assertions; [available] tells whether [xformers]
    could be imported, that is whether [triton_softmax] is not [None]. *)
Definition init (available : bool) (proj_weight : tensor) (k : Z) : result t :=
  self <- BaselineSoftmax.init proj_weight 0 ;;
  _ <- py_assert available ;;
  _ <- py_assert (dtype_eqb (t_dtype proj_weight) Float32) ;;
  Ok self.

(** [x.reshape(-1, div, ncols)] on a tensor of [rows]: blocks of [div]
    rows; with no element at all the size standing for [-1] is ambiguous
    and the call is refused. *)
Definition reshape3 (rows : list (list Q)) (div ncols : nat)
  : result (list (list (list Q))) :=
  if ((length rows * ncols =? 0)%nat) then Err (RuntimeError ShapeMismatch)
  else Ok (Torch.chunks div rows).

(** [triton_softmax]: the softmax along the last dimension of a 3-D
    tensor, taken to compute what [F.softmax] computes. *)
Definition triton_softmax (x : list (list (list Q))) : list (list (list R)) :=
  map (map Torch.softmax_row) x.

Definition forward (self : t) (input : tensor) (target : list nat)
  : result pyval :=
  x <- Torch.linear input (BaselineSoftmax.fc self) ;;
  let orig_rows := t_nrows x in
  let div := Nat.min orig_rows 128 in
  r <- pymod (Z.of_nat orig_rows) (Z.of_nat div) ;;
  _ <- py_assert (r =? 0)%Z ;;
  blocks <- reshape3 (t_rows x) div (t_ncols x) ;;
  let y := triton_softmax blocks in
  (* x.reshape(orig_shape) *)
  Ok (PyTensor (mkRTensor (t_dtype x) (t_ncols x) (concat y))).

End TritonSoftmax.

Module InplaceSoftmax.

Record t : Type := mk { fc : tensor }.

(** [__init__(proj_weight, k=0)]; [k] is ignored, fp16 is refused. *)
Definition init (proj_weight : tensor) (k : Z) : result t :=
  _ <- py_assert (dtype_eqb (t_dtype proj_weight) Float32) ;;
  Ok (mk proj_weight).

(** [x.exp_(); x_sum = torch.sum(x, dim=-1, keepdim=True); x /= x_sum] *)
Definition exp_div_sum (row : list Q) : list R :=
  let e := map (fun v => exp (Q2R v)) row in
  let x_sum := Torch.rsum e in
  map (fun v => (v / x_sum)%R) e.

Definition forward (self : t) (input : tensor) (target : list nat)
  : result pyval :=
  x <- Torch.linear input (fc self) ;;
  Ok (PyTensor (mkRTensor (t_dtype x) (t_ncols x) (map exp_div_sum (t_rows x)))).

End InplaceSoftmax.

Module TiledSoftmax.

Record t : Type := mk { fc : tensor; fp16 : bool; tile_factor : Z }.

(** [__init__(proj_weight, k=0, tile_factor=16)]; [k] is ignored. *)
Definition init (proj_weight : tensor) (k : Z) (tile_factor : Z) : result t :=
  _ <- py_assert (is_fp16_or_fp32 (t_dtype proj_weight)) ;;
  Ok (mk proj_weight (dtype_eqb (t_dtype proj_weight) Float16) tile_factor).

(** The body of the loop over the tiles of [input]. *)
Fixpoint tile_loop (self : t) (tiles : list tensor) : result (list rtensor) :=
  match tiles with
  | [] => Ok []
  | i :: rest =>
      x <- Torch.linear i (fc self) ;;
      x <- (if fp16 self then
              _ <- py_assert (dtype_eqb (t_dtype x) Float16) ;;
              Ok (Torch.float x)
            else Ok x) ;;
      let x := Torch.softmax x in
      _ <- py_assert (dtype_eqb (r_dtype x) Float32) ;;
      out <- tile_loop self rest ;;
      Ok (x :: out)
  end.

(** The tiles are returned as a list: they are not concatenated. *)
Definition forward (self : t) (input : tensor) (target : list nat)
  : result pyval :=
  _ <- (if fp16 self then py_assert (dtype_eqb (t_dtype input) Float16)
        else Ok tt) ;;
  let tokens := t_nrows input in
  split_size <- floordiv (Z.of_nat tokens) (tile_factor self) ;;
  tiles <- Torch.split input split_size ;;
  out <- tile_loop self tiles ;;
  Ok (PyList out).

End TiledSoftmax.

Module TopKTiledSoftmax.

Record t : Type := mk {
  vocabs : nat;
  fcs : list tensor;
  k : Z;
  weight : tensor;
  fp16 : bool
}.

(** [__init__(proj_weight, k, tile_factor=16)]: the weight is split along
    [out_dim] in tiles of [out_dim // tile_factor] rows; [k] is stored as it
    is given. *)
Definition init (proj_weight : tensor) (k : Z) (tile_factor : Z) : result t :=
  let out_dim := t_nrows proj_weight in
  split_size <- floordiv (Z.of_nat out_dim) tile_factor ;;
  fcs <- Torch.split proj_weight split_size ;;
  let weight := Torch.transpose proj_weight in
  _ <- py_assert (is_fp16_or_fp32 (t_dtype weight)) ;;
  Ok (mk out_dim fcs k weight (dtype_eqb (t_dtype weight) Float16)).

Section Forward.
Context `{Torch.TopKOp}.

(** The loop over the tiles: project, take the top-K of the tile, shift the
    indices by the tile's offset. *)
Fixpoint tile_loop (fcs : list tensor) (input : tensor) (k : Z) (base : nat)
  : result (list tensor * list itensor) :=
  match fcs with
  | [] => Ok ([], [])
  | fc :: rest =>
      x <- Torch.linear input fc ;;
      '(D, I_) <- Torch.topk x k ;;
      '(val, idx) <- tile_loop rest input k (base + t_nrows fc) ;;
      Ok (D :: val, Torch.add_base I_ base :: idx)
  end.

(** [forward] up to the sparse tensor handed to the softmax. *)
Definition forward_sparse (self : t) (input : tensor) (target : list nat)
  : result sparse :=
  _ <- (if fp16 self then py_assert (dtype_eqb (t_dtype input) Float16)
        else Ok tt) ;;
  let tokens := t_nrows input in
  '(val, idx) <- tile_loop (fcs self) input (k self) 0 ;;
  (* Top-K again. *)
  val <- Torch.cat val ;;
  idx <- Torch.icat idx ;;
  '(val, I_) <- Torch.topk val (k self) ;;
  let idx := Torch.igather idx I_ in
  (* Make a sparse tensor. *)
  let j := Torch.arange_expand_T (length (i_rows idx)) (i_ncols idx) in
  let idx := Torch.coo_indices j (i_rows idx) in
  let result :=
    Torch.sparse_coo_tensor idx (concat (t_rows val)) (t_dtype val)
      tokens (vocabs self) in
  (* Add in the targets to top-K results. *)
  w <- Torch.gather (weight self)
         (Torch.expand target (t_nrows (weight self))) ;;
  '(dt, val) <- Torch.mul_sum_dim1 input (Torch.transpose w) ;;
  let j := Torch.arange_expand_T (length target) 1 in
  let idx := Torch.coo_indices j [target] in
  let result_target :=
    Torch.sparse_coo_tensor idx val dt tokens (vocabs self) in
  result <- Torch.sparse_add result result_target ;;
  Ok (if fp16 self then Torch.sparse_float result else result).

(** Softmax (the fill value counting as -inf) and the dense result. *)
Definition forward (self : t) (input : tensor) (target : list nat)
  : result pyval :=
  result <- forward_sparse self input target ;;
  Ok (PyTensor (Torch.to_dense (Torch.sparse_softmax result))).

End Forward.

End TopKTiledSoftmax.

Module TopKSoftmax.

Record t : Type := mk { fc : tensor; k : Z }.

Definition init (proj_weight : tensor) (k : Z) : result t :=
  _ <- py_assert (dtype_eqb (t_dtype proj_weight) Float32) ;;
  Ok (mk proj_weight k).

(** [mask = ones_like(x) * -inf; mask.scatter_(1, I, 0.0); x = x + mask]:
    an entry of the masked row is [None] when it is [-inf]. *)
Definition masked_row (x : list Q) (I_ : list nat) : list (option Q) :=
  map (fun c => if existsb (Nat.eqb c) I_ then Some (nth c x 0 + 0)%Q else None)
      (seq 0 (length x)).

(** Softmax of a row with [-inf] entries: these contribute [exp(-inf) = 0]. *)
Definition softmax_masked_row (xs : list (option Q)) : list R :=
  let vs := concat (map (fun o => match o with
                                  | Some v => [Q2R v]
                                  | None => []
                                  end) xs) in
  let m := Torch.rmax_list vs in
  let s := Torch.rsum (map (fun v => exp (v - m)) vs) in
  map (fun o => match o with
                | Some v => (exp (Q2R v - m) / s)%R
                | None => (0 / s)%R
                end) xs.

Section Forward.
Context `{Torch.TopKOp}.

Definition forward (self : t) (input : tensor) (target : list nat)
  : result pyval :=
  x <- Torch.linear input (fc self) ;;
  '(D, I_) <- Torch.topk x (k self) ;;
  (* Add in the targets. *)
  _ <- (if (length target =? t_nrows x)%nat then Ok tt
        else Err (RuntimeError ShapeMismatch)) ;;
  let I_ := Torch.cat_rows [i_rows I_; map (fun l => [l]) target] in
  _ <- (if forallb (forallb (fun i => i <? t_ncols x)%nat) I_ then Ok tt
        else Err (RuntimeError IndexOutOfRange)) ;;
  (* Mask x and softmax it. *)
  let x' := Torch.zip_with masked_row (t_rows x) I_ in
  Ok (PyTensor (mkRTensor (t_dtype x) (t_ncols x) (map softmax_masked_row x'))).

End Forward.

End TopKSoftmax.

Module TopKFaissSoftmax.

(** [faiss.StandardGpuResources]: the scratch memory of the library, in
    bytes. *)
Record StandardGpuResources : Type := mkRes { temp_memory : Z }.

(** [faiss.knn_gpu(res, xq, xb, k)] is external: the distances and the
    indices of the [k] nearest rows of [xb] for every row of [xq]. *)
Class KnnOp : Type := {
  knn_gpu : StandardGpuResources -> tensor -> tensor -> Z -> result (tensor * itensor)
}.

Record t : Type := mk { k : Z; b : tensor }.

(** [__init__(proj_weight, k)], threading the module level [_res]. *)
Definition init (_res : option StandardGpuResources) (proj_weight : tensor)
  (k : Z) : result (t * option StandardGpuResources) :=
  _ <- py_assert (dtype_eqb (t_dtype proj_weight) Float32) ;;
  let _res' := match _res with
               | None => Some (mkRes (1024 * 1024 * 10))
               | Some r => Some r
               end in
  Ok (mk k proj_weight, _res').

Section Forward.
Context `{KnnOp}.

(** Only [D] is returned: there is no way to add in the target. *)
Definition forward (_res : StandardGpuResources) (self : t) (input : tensor)
  (target : list nat) : result tensor :=
  '(D, I_) <- knn_gpu _res input (b self) (k self) ;;
  Ok D.

End Forward.

(** A brute force [knn_gpu]: squared L2 distances, the [k] smallest first. *)
Definition sqdist (q v : list Q) : Q :=
  Torch.qsum (Torch.zip_with (fun a c => (a - c) * (a - c))%Q q v).

Definition knn_bruteforce (_res : StandardGpuResources) (xq xb : tensor) (k : Z)
  : result (tensor * itensor) :=
  if ((k <? 0)%Z || (Z.of_nat (t_nrows xb) <? k)%Z)%bool then
    Err (RuntimeError TopkOutOfRange)
  else
    let kn := Z.to_nat k in
    let near q :=
      Torch.topk_stable (map (fun v => Qopp (sqdist q v)) (t_rows xb)) kn in
    Ok (mkTensor (t_dtype xq) kn
          (map (fun q => map (fun p => Qopp (fst p)) (near q)) (t_rows xq)),
        mkITensor kn (map (fun q => map snd (near q)) (t_rows xq))).

#[export] Instance knn_bruteforce_op : KnnOp := {| knn_gpu := knn_bruteforce |}.

End TopKFaissSoftmax.

(** ** The SSD tensor handle

    [fairscale/experimental/nn/ssd_offload.py] is not part of the sources at
    hand (only its test is); the handle is modelled from the specification. *)

Module SsdOffload.

Inductive offload_error : Type :=
| InvalidBinding
| NoFileBound
| IOError
| ShapeMismatch
| NotResident
| OutOfMemory
| BufferFull.

Inductive oresult (A : Type) : Type :=
| OOk (a : A)
| OErr (e : offload_error).
Arguments OOk {A} a.
Arguments OErr {A} e.

Definition obind {A B : Type} (r : oresult A) (f : A -> oresult B) : oresult B :=
  match r with
  | OOk a => f a
  | OErr e => OErr e
  end.

(** Modelled from the spec: the location state of a handle, "one of
    InMemoryCache, OnFile, InSharedBuffer". *)
Inductive location : Type := InMemoryCache | OnFile | InSharedBuffer.

Definition element_size (d : dtype) : nat :=
  match d with
  | Float16 => 2
  | Float32 => 4
  | Float64 => 8
  end.

Definition numel (shape : list nat) : nat := fold_right Nat.mul 1%nat shape.

(** Modelled from the spec: the attributes of a handle (logical shape,
    element type, location state, backing file path plus byte offset,
    reference into a shared flat buffer, dirty flag).  The resident cache
    holds the flat row-major encoding of the tensor, [numel * element_size]
    bytes. *)
Record SsdTensorHandle : Type := mkHandle {
  shape : list nat;
  h_dtype : dtype;
  state : location;
  file_params : option (String.string * nat);
  cache : option (list Byte.byte);
  buffer_offset : option nat;
  dirty : bool
}.

Definition nbytes (h : SsdTensorHandle) : nat :=
  (numel (shape h) * element_size (h_dtype h))%nat.

(** Modelled from the spec: persistent storage, a header-less byte sequence
    per path, and the flat buffer shared by the handles of a rank.  A path
    that is not present cannot be opened. *)
Record world : Type := mkWorld {
  files : list (String.string * list Byte.byte);
  flat_buffer : list Byte.byte
}.

Fixpoint file_lookup (path : String.string)
  (fs : list (String.string * list Byte.byte)) : option (list Byte.byte) :=
  match fs with
  | [] => None
  | (p, c) :: fs' => if String.eqb path p then Some c else file_lookup path fs'
  end.

Fixpoint file_update (path : String.string) (c : list Byte.byte)
  (fs : list (String.string * list Byte.byte))
  : list (String.string * list Byte.byte) :=
  match fs with
  | [] => []
  | (p, c') :: fs' =>
      if String.eqb path p then (p, c) :: fs'
      else (p, c') :: file_update path c fs'
  end.

(** Writing [bs] at byte [offset] of a file: the file is padded with zero
    bytes up to [offset] when it is shorter, bytes after the region are
    kept. *)
Definition write_at (offset : nat) (bs content : list Byte.byte)
  : list Byte.byte :=
  firstn offset content ++ repeat Byte.x00 (offset - length content)
  ++ bs ++ skipn (offset + length bs) content.

(** Reading [n] bytes at byte [offset]; nothing when the file is too
    short. *)
Definition read_at (offset n : nat) (content : list Byte.byte)
  : option (list Byte.byte) :=
  if (offset + n <=? length content)%nat then
    Some (firstn n (skipn offset content))
  else None.

(** Modelled from the spec: [construct(shape, dtype)] "creates a handle in
    InMemoryCache state, zero-initialized". *)
Definition construct (shape : list nat) (d : dtype) : SsdTensorHandle :=
  mkHandle shape d InMemoryCache None
    (Some (repeat Byte.x00 (numel shape * element_size d))) None false.

(** Modelled from the spec: a handle created "from an existing in-memory
    tensor" ([SsdTensorHandle.from_tensor]), given by its shape, element
    type and bytes. *)
Definition from_tensor (shape : list nat) (d : dtype) (bytes : list Byte.byte)
  : SsdTensorHandle :=
  mkHandle shape d InMemoryCache None (Some bytes) None false.

(** Modelled from the spec: [set_file_params(path, offset)] "binds future
    persist/materialize calls to a byte region of the given file; fails with
    InvalidBinding if offset is negative". *)
Definition set_file_params (h : SsdTensorHandle) (path : String.string)
  (offset : Z) : oresult SsdTensorHandle :=
  if (offset <? 0)%Z then OErr InvalidBinding
  else OOk (mkHandle (shape h) (h_dtype h) (state h)
              (Some (path, Z.to_nat offset)) (cache h) (buffer_offset h)
              (dirty h)).

(** Modelled from the spec: [read_as_value()] "returns the tensor value from
    whichever state is authoritative"; "direct reads from OnFile state
    without materialization fail with NotResident". *)
Definition read_as_value (h : SsdTensorHandle) (w : world)
  : oresult (list Byte.byte) :=
  match state h with
  | OnFile => OErr NotResident
  | InMemoryCache =>
      match cache h with
      | Some bs => OOk bs
      | None => OErr NotResident
      end
  | InSharedBuffer =>
      match buffer_offset h with
      | Some off => OOk (firstn (nbytes h) (skipn off (flat_buffer w)))
      | None => OErr NotResident
      end
  end.

(** Modelled from the spec: [persist_to_file(release_cache)] "writes the
    current authoritative bytes to the bound file region at the bound
    offset; if release_cache is true, transitions to OnFile and frees the
    resident cache, otherwise remains InMemoryCache but clears the dirty
    flag.  Fails with NoFileBound if no file params were set; fails with
    IOError on write failure".  ([to_file(release_tensor_after_write)] in
    the test.)  In [OnFile] state the file region is the authoritative copy
    already and nothing is written. *)
Definition persist_to_file (release_cache : bool) (h : SsdTensorHandle)
  (w : world) : oresult (SsdTensorHandle * world) :=
  match file_params h with
  | None => OErr NoFileBound
  | Some (path, offset) =>
      match state h with
      | OnFile => OOk (h, w)
      | _ =>
          obind (read_as_value h w) (fun bs =>
          match file_lookup path (files w) with
          | None => OErr IOError
          | Some content =>
              let w' := mkWorld (file_update path (write_at offset bs content)
                                   (files w)) (flat_buffer w) in
              if release_cache then
                OOk (mkHandle (shape h) (h_dtype h) OnFile (file_params h)
                       None None false, w')
              else
                OOk (mkHandle (shape h) (h_dtype h) (state h) (file_params h)
                       (cache h) (buffer_offset h) false, w')
          end)
      end
  end.

(** Modelled from the spec: [materialize_from_file()] (aka "point to file")
    "reads exactly numel * element_size bytes from the bound file region
    into a freshly allocated resident cache, transitions to InMemoryCache,
    clears dirty flag.  Fails with NoFileBound or IOError analogously; fails
    with ShapeMismatch if the file region is shorter than required". *)
Definition materialize_from_file (h : SsdTensorHandle) (w : world)
  : oresult SsdTensorHandle :=
  match file_params h with
  | None => OErr NoFileBound
  | Some (path, offset) =>
      match file_lookup path (files w) with
      | None => OErr IOError
      | Some content =>
          match read_at offset (nbytes h) content with
          | None => OErr ShapeMismatch
          | Some bs =>
              OOk (mkHandle (shape h) (h_dtype h) InMemoryCache (file_params h)
                     (Some bs) None false)
          end
      end
  end.

(** Modelled from the spec: [write_in_place(new_value)] "overwrites the
    authoritative bytes in place (valid in InMemoryCache or InSharedBuffer);
    sets dirty flag; fails with NotResident if state is OnFile". *)
Definition write_in_place (new_value : list Byte.byte) (h : SsdTensorHandle)
  (w : world) : oresult (SsdTensorHandle * world) :=
  match state h with
  | OnFile => OErr NotResident
  | InMemoryCache =>
      OOk (mkHandle (shape h) (h_dtype h) InMemoryCache (file_params h)
             (Some new_value) (buffer_offset h) true, w)
  | InSharedBuffer =>
      match buffer_offset h with
      | None => OErr NotResident
      | Some off =>
          OOk (mkHandle (shape h) (h_dtype h) InSharedBuffer (file_params h)
                 (cache h) (buffer_offset h) true,
               mkWorld (files w) (write_at off new_value (flat_buffer w)))
      end
  end.

(** The round trip of the test: [to_file(release_tensor_after_write=True)],
    then the value read back from the file. *)
Definition persist_then_read (h : SsdTensorHandle) (w : world)
  : oresult (list Byte.byte) :=
  obind (persist_to_file true h w) (fun hw =>
  obind (materialize_from_file (fst hw) (snd hw)) (fun h' =>
  read_as_value h' (snd hw))).

End SsdOffload.

(** ** The configurations of [tests/nn/data_parallel/test_fsdp_offload.py] *)

Module TestFsdpOffload.

(** [itertools.product(pool, repeat=n)]: the tuples in lexicographic order
    of the positions in [pool], the first component varying slowest. *)
Fixpoint product {A : Type} (pool : list A) (n : nat) : list (list A) :=
  match n with
  | O => [[]]
  | S n' => flat_map (fun x => map (cons x) (product pool n')) pool
  end.

(** [[[dict(zip(keys, config))] for config in
    itertools.product([True, False], repeat=len(keys))]]; a dict built from
    distinct keys is the list of its items in insertion order. *)
Definition config_options {K : Type} (keys : list K)
  : list (list (list (K * bool))) :=
  map (fun config => [combine keys config])
      (product [true; false] (length keys)).

Section Names.
Import String.
Local Open Scope string_scope.

Definition keys : list string :=
  ["reshard_after_forward"; "mixed_precision"; "flatten_parameters";
   "nested_wrapping"].

End Names.

Definition CONFIG_OPTIONS : list (list (list (String.string * bool))) :=
  config_options keys.

End TestFsdpOffload.

(** * The vocabulary of the statements *)

Section Vocabulary.
Import Torch.
Context `{TopKOp}.

(** Decreasing order of the values of (value, index) pairs. *)
Definition desc (a b : Q * nat) : Prop := (fst b <= fst a)%Q.

(** The candidates of one token: the top-K of every tile, with global
    indices (what [tile_loop] followed by [cat] yields for that token). *)
Fixpoint cands (tiles : list (list Q)) (kn base : nat) : list (Q * nat) :=
  match tiles with
  | [] => []
  | tl :: rest =>
      map (fun p => (fst p, (snd p + base)%nat)) (topk_row tl kn)
      ++ cands rest kn (base + length tl)
  end.

(** The second top-K and the gather of the global indices. *)
Definition select (tiles : list (list Q)) (kn : nat) : list (Q * nat) :=
  let c := cands tiles kn 0 in
  map (fun p => (fst p, nth (snd p) (map snd c) 0%nat))
      (topk_row (map fst c) kn).

(** The logits of one token restricted to each tile. *)
Definition tiles_of (fcs : list tensor) (r : list Q) : list (list Q) :=
  map (fun fc => map (dot r) (t_rows fc)) fcs.

(** The logits of one token over the whole vocabulary. *)
Definition logits_row (proj_weight : tensor) (r : list Q) : list Q :=
  map (dot r) (t_rows proj_weight).

(** A tile the activation can be projected through and that is at least
    [kn] wide. *)
Definition tile_fits (input : tensor) (kn : nat) (fc : tensor) : Prop :=
  t_dtype fc = t_dtype input /\ t_ncols fc = t_ncols input /\
  (kn <= t_nrows fc)%nat.

(** The entries of token [t] coming from its selected (value, index)
    pairs. *)
Definition row_block (t : nat) (s : list (Q * nat)) : list ((nat * nat) * Q) :=
  map (fun p => ((t, snd p), fst p)) s.

(** What the top-K passes contribute to the sparse tensor, and what the
    labels contribute. *)
Definition topk_entries (fcs : list tensor) (input : tensor) (kn : nat)
  : list ((nat * nat) * Q) :=
  concat (zip_with row_block (seq 0 (t_nrows input))
            (map (fun r => select (tiles_of fcs r) kn) (t_rows input))).

Definition target_entries (proj_weight input : tensor) (target : list nat)
  : list ((nat * nat) * Q) :=
  combine (combine (seq 0 (length target)) target)
          (zip_with dot (t_rows input)
             (map (fun l => nth l (t_rows proj_weight) []) target)).

(** A call the kernel is meant for: tensors of matching shapes and dtypes,
    one label per token, every label a vocabulary index. *)
Record valid_call (proj_weight input : tensor) (target : list nat) : Prop := {
  v_wf_weight : wf_tensor proj_weight;
  v_wf_input : wf_tensor input;
  v_dtype : t_dtype input = t_dtype proj_weight;
  v_ncols : t_ncols input = t_ncols proj_weight;
  v_target_len : length target = t_nrows input;
  v_target_range : Forall (fun l => (l < t_nrows proj_weight)%nat) target
}.

(** The coordinates of a list of sparse entries, and their order. *)
Definition keys {V : Type} (l : list ((nat * nat) * V)) : list (nat * nat) :=
  map fst l.

Definition key_lt (a b : (nat * nat) * Q) : Prop :=
  key_ltb (fst a) (fst b) = true.

(** The sum of the values listed at coordinate [k]. *)
Definition sum_at (k : nat * nat) (es : list ((nat * nat) * Q)) : Q :=
  qsum (map snd (filter (fun e => key_eqb (fst e) k) es)).

(** [G] holds the indices of [kn] largest elements of [xs]. *)
Definition topk_indices (xs : list Q) (kn : nat) (G : list nat) : Prop :=
  length G = kn /\ NoDup G /\
  (forall g, In g G -> (g < length xs)%nat) /\
  (forall g j, In g G -> (j < length xs)%nat -> ~ In j G ->
               (nth j xs 0 <= nth g xs 0)%Q).

(** The sparse tensor before the softmax. *)
Definition pre_softmax (proj_weight : tensor) (k : Z) (m : TopKTiledSoftmax.t)
  (input : tensor) (target : list nat) : sparse :=
  mkSparse Float32 (t_nrows input) (t_nrows proj_weight)
    (topk_entries (TopKTiledSoftmax.fcs m) input (Z.to_nat k)
     ++ target_entries proj_weight input target).

(** The (value, index) pairs kept for token [t] after the second top-K. *)
Definition selected (k : Z) (m : TopKTiledSoftmax.t) (input : tensor) (t : nat)
  : list (Q * nat) :=
  select (tiles_of (TopKTiledSoftmax.fcs m) (nth t (t_rows input) []))
         (Z.to_nat k).

Local Open Scope R_scope.

(** The entry at row [t], column [c] of a dense result. *)
Definition entry (out : rtensor) (t c : nat) : R :=
  nth c (nth t (r_rows out) []) 0.

(** The values of the specified entries of row [t]. *)
Definition row_vals (t : nat) (es : list ((nat * nat) * Q)) : list R :=
  map (fun e => Q2R (snd e)) (row_entries t es).

(** The probability given to a specified entry of value [v] in row [t]. *)
Definition soft_weight (t : nat) (es : list ((nat * nat) * Q)) (v : Q) : R :=
  exp (Q2R v - rmax_list (row_vals t es))
  / rsum (map (fun x => exp (x - rmax_list (row_vals t es))) (row_vals t es)).

Definition or_zero (o : option R) : R :=
  match o with
  | Some v => v
  | None => 0
  end.

(** Summing the nonzero entries of a row only. *)
Definition nonzero (x : R) : bool :=
  if Req_dec_T x 0 then false else true.


(** The softmax of a row of logits, as mathematics has it. *)
Definition softmax_spec (xs : list Q) : list R :=
  map (fun v => exp (Q2R v) / rsum (map (fun x => exp (Q2R x)) xs)) xs.

(** The dense distribution over the whole vocabulary. *)
Definition dense_softmax (proj_weight input : tensor) : rtensor :=
  mkRTensor Float32 (t_nrows proj_weight)
    (map (fun r => softmax_spec (logits_row proj_weight r)) (t_rows input)).

(** The row [TopKSoftmax.forward] returns for an activation row [r] whose
    label is [lab]. *)
Definition topk_softmax_row (proj_weight : tensor) (kn : nat) (r : list Q)
  (lab : nat) : list R :=
  TopKSoftmax.softmax_masked_row
    (TopKSoftmax.masked_row (logits_row proj_weight r)
       (map snd (topk_row (logits_row proj_weight r) kn) ++ [lab])).

End Vocabulary.

(** ** Concrete calls *)

(** A float16 weight of four vocabulary entries over two hidden units, in
    two tiles of two, and two tokens with labels 3 and 0. *)
Definition W_a : tensor :=
  mkTensor Float16 2 [[1; 0]; [0; 1]; [1; 1]; [-1; 0]]%Q.
Definition X_a : tensor := mkTensor Float16 2 [[1; 2]; [3; -1]]%Q.
Definition target_a : list nat := [3; 0]%nat.
Definition m_a (k : Z) : TopKTiledSoftmax.t :=
  TopKTiledSoftmax.mk 4
    [mkTensor Float16 2 [[1; 0]; [0; 1]]%Q; mkTensor Float16 2 [[1; 1]; [-1; 0]]%Q]
    k (mkTensor Float16 4 [[1; 0; 1; -1]; [0; 1; 1; 0]]%Q) true.

(** A float32 weight of two vocabulary entries over one hidden unit, in one
    tile; one token whose logits are [1; 2] and whose label is 1. *)
Definition W_b : tensor := mkTensor Float32 1 [[1]; [2]]%Q.
Definition X_b : tensor := mkTensor Float32 1 [[1]]%Q.
Definition target_b : list nat := [1]%nat.
Definition m_b (k : Z) : TopKTiledSoftmax.t :=
  TopKTiledSoftmax.mk 2 [W_b] k (mkTensor Float32 2 [[1; 2]]%Q) false.

(** Two tokens for the weight [W_b]. *)
Definition X_d : tensor := mkTensor Float32 1 [[1]; [2]]%Q.
Definition target_d : list nat := [0; 1]%nat.


(** A float32 weight of five vocabulary entries over one hidden unit: with
    a tile factor of two it falls into tiles of two, two and one rows. *)
Definition W_e : tensor := mkTensor Float32 1 [[1]; [2]; [3]; [4]; [5]]%Q.
Definition X_e : tensor := mkTensor Float32 1 [[1]]%Q.
Definition target_e : list nat := [4]%nat.
Definition m_e (k : Z) : TopKTiledSoftmax.t :=
  TopKTiledSoftmax.mk 5
    [mkTensor Float32 1 [[1]; [2]]%Q; mkTensor Float32 1 [[3]; [4]]%Q;
     mkTensor Float32 1 [[5]]%Q]
    k (mkTensor Float32 5 [[1; 2; 3; 4; 5]]%Q) false.


(** * Properties *)

(** ** Lists *)

Lemma NoDup_map_inj {A B : Type} (f : A -> B) (l : list A) :
  (forall a b, f a = f b -> a = b) -> NoDup l -> NoDup (map f l).
Proof.
  intros Hinj Hnd. apply NoDup_map_NoDup_ForallPairs; [|exact Hnd].
  intros a b _ _. apply Hinj.
Qed.

(** ** The concrete [topk] meets the contract *)

Section TopkStable.
Import Torch.

Local Open Scope Q_scope.

Lemma insert_desc_perm (p : Q * nat) (l : list (Q * nat)) :
  Permutation (insert_desc p l) (p :: l).
Proof.
  induction l as [|q l IH]; simpl.
  - apply Permutation_refl.
  - destruct (Qle_bool (fst q) (fst p)).
    + apply Permutation_refl.
    + eapply perm_trans; [apply perm_skip, IH | apply perm_swap].
Qed.

Lemma sort_desc_perm (l : list (Q * nat)) : Permutation (sort_desc l) l.
Proof.
  induction l as [|p l IH]; simpl.
  - constructor.
  - eapply perm_trans; [apply insert_desc_perm | now apply perm_skip].
Qed.

Lemma insert_desc_sorted (p : Q * nat) (l : list (Q * nat)) :
  StronglySorted desc l -> StronglySorted desc (insert_desc p l).
Proof.
  induction 1 as [|q l Hs IH Hq]; simpl.
  - repeat constructor.
  - destruct (Qle_bool (fst q) (fst p)) eqn:E.
    + apply Qle_bool_iff in E.
      constructor; [now constructor|].
      constructor; [exact E|].
      rewrite Forall_forall in *. intros x Hx.
      unfold desc in *. eapply Qle_trans; [apply Hq, Hx | exact E].
    + assert (Hlt : fst p < fst q).
      { apply Qnot_le_lt. intro Hle. apply Qle_bool_iff in Hle. congruence. }
      constructor; [exact IH|].
      rewrite Forall_forall in *. intros x Hx.
      apply (Permutation_in _ (insert_desc_perm p l)) in Hx.
      destruct Hx as [<-|Hx]; [apply Qlt_le_weak, Hlt | now apply Hq].
Qed.

Lemma sort_desc_sorted (l : list (Q * nat)) : StronglySorted desc (sort_desc l).
Proof.
  induction l; simpl; [constructor | now apply insert_desc_sorted].
Qed.

Lemma sorted_app_desc (l1 l2 : list (Q * nat)) :
  StronglySorted desc (l1 ++ l2) ->
  forall a b, In a l1 -> In b l2 -> desc a b.
Proof.
  induction l1 as [|x l1 IH]; simpl; intros Hs a b Ha Hb; [contradiction|].
  inversion Hs as [|? ? Hs' Hall]; subst.
  destruct Ha as [<-|Ha].
  - rewrite Forall_forall in Hall. apply Hall, in_or_app. now right.
  - now apply IH.
Qed.

Lemma combine_seq_in (xs : list Q) (base : nat) (v : Q) (i : nat) :
  In (v, i) (combine xs (seq base (length xs))) ->
  (base <= i < base + length xs)%nat /\ nth (i - base) xs 0 = v.
Proof.
  revert base. induction xs as [|x xs IH]; simpl; intros base H; [contradiction|].
  destruct H as [H|H].
  - inversion H; subst. split; [lia|]. now rewrite Nat.sub_diag.
  - apply IH in H. destruct H as [Hr Hn]. split; [lia|].
    replace (i - base)%nat with (S (i - S base)) by lia. exact Hn.
Qed.

Lemma in_combine_seq (xs : list Q) (base j : nat) :
  (j < length xs)%nat ->
  In (nth j xs 0, (base + j)%nat) (combine xs (seq base (length xs))).
Proof.
  revert base j. induction xs as [|x xs IH]; simpl; intros base j Hj; [lia|].
  destruct j as [|j].
  - left. now rewrite Nat.add_0_r.
  - right. replace (base + S j)%nat with (S base + j)%nat by lia.
    apply IH. lia.
Qed.

Lemma map_snd_combine_seq (xs : list Q) (base : nat) :
  map snd (combine xs (seq base (length xs))) = seq base (length xs).
Proof.
  revert base. induction xs as [|x xs IH]; simpl; intros; [reflexivity|].
  now rewrite IH.
Qed.

Lemma NoDup_firstn {A : Type} (k : nat) (l : list A) :
  NoDup l -> NoDup (firstn k l).
Proof.
  intros H. rewrite <- (firstn_skipn k l) in H.
  now apply NoDup_app_remove_r in H.
Qed.

Lemma in_firstn {A : Type} (k : nat) (l : list A) (x : A) :
  In x (firstn k l) -> In x l.
Proof.
  intros H. rewrite <- (firstn_skipn k l). apply in_or_app. now left.
Qed.

Lemma topk_stable_spec (xs : list Q) (k : nat) :
  (k <= length xs)%nat -> is_topk xs k (topk_stable xs k).
Proof.
  intros Hk. unfold topk_stable.
  set (c := combine xs (seq 0 (length xs))).
  pose proof (sort_desc_perm c) as Hperm.
  pose proof (sort_desc_sorted c) as Hsorted.
  assert (Hlen : length (sort_desc c) = length xs).
  { rewrite (Permutation_length Hperm). unfold c.
    rewrite length_combine, length_seq. lia. }
  assert (Hnd : NoDup (map snd (sort_desc c))).
  { eapply Permutation_NoDup.
    - apply Permutation_sym, Permutation_map, Hperm.
    - unfold c. rewrite map_snd_combine_seq. apply seq_NoDup. }
  repeat split.
  - rewrite length_firstn. lia.
  - rewrite <- firstn_map. now apply NoDup_firstn.
  - apply in_firstn in H. apply (Permutation_in _ Hperm) in H.
    apply combine_seq_in in H. lia.
  - apply in_firstn in H. apply (Permutation_in _ Hperm) in H.
    apply combine_seq_in in H. destruct H as [_ H].
    now rewrite Nat.sub_0_r in H.
  - intros v j Hv Hj Hnot.
    apply in_map_iff in Hv. destruct Hv as [a [<- Ha]].
    assert (Hin : In (nth j xs 0, j) (sort_desc c)).
    { apply (Permutation_in _ (Permutation_sym Hperm)).
      unfold c. apply (in_combine_seq xs 0 Hj). }
    rewrite <- (firstn_skipn k (sort_desc c)) in Hin, Hsorted.
    apply in_app_or in Hin. destruct Hin as [Hin|Hin].
    + exfalso. apply Hnot. apply in_map_iff. now exists (nth j xs 0, j).
    + exact (sorted_app_desc _ _ Hsorted a _ Ha Hin).
Qed.

End TopkStable.

#[export] Instance topk_stable_op : Torch.TopKOp :=
  {| Torch.topk_row := Torch.topk_stable;
     Torch.topk_row_spec := topk_stable_spec |}.

(** ** Top-K of the tiles' top-K is a top-K of the whole row *)

Section TwoLevel.
Import Torch.
Context `{TopKOp}.

Local Open Scope Q_scope.

Lemma cands_cons (tl : list Q) (rest : list (list Q)) (kn base : nat) :
  cands (tl :: rest) kn base
  = map (fun p => (fst p, (snd p + base)%nat)) (topk_row tl kn)
    ++ cands rest kn (base + length tl).
Proof. reflexivity. Qed.

Lemma cands_length (tiles : list (list Q)) (kn base : nat) :
  Forall (fun tl => (kn <= length tl)%nat) tiles ->
  length (cands tiles kn base) = (length tiles * kn)%nat.
Proof.
  revert base. induction tiles as [|tl rest IH]; simpl; intros base Hall.
  - reflexivity.
  - inversion Hall; subst.
    rewrite length_app, length_map, IH by assumption.
    destruct (topk_row_spec tl H2) as [Hl _]. lia.
Qed.

Lemma cands_in (tiles : list (list Q)) (kn base : nat) (v : Q) (g : nat) :
  Forall (fun tl => (kn <= length tl)%nat) tiles ->
  In (v, g) (cands tiles kn base) ->
  (base <= g < base + length (concat tiles))%nat /\
  nth (g - base) (concat tiles) 0 = v.
Proof.
  revert base. induction tiles as [|tl rest IH]; simpl; intros base Hall Hin.
  - contradiction.
  - inversion Hall as [|? ? Hk Hrest]; subst.
    rewrite length_app.
    apply in_app_or in Hin. destruct Hin as [Hin|Hin].
    + apply in_map_iff in Hin. destruct Hin as [[v' i] [Heq Hin]].
      simpl in Heq. inversion Heq; subst.
      destruct (topk_row_spec tl Hk) as (_ & _ & Hval & _).
      destruct (Hval _ _ Hin) as [Hi Hn].
      split; [lia|].
      replace (i + base - base)%nat with i by lia.
      now rewrite app_nth1.
    + destruct (IH _ Hrest Hin) as [Hr Hn].
      split; [lia|].
      rewrite app_nth2 by lia.
      now replace (g - base - length tl)%nat with (g - (base + length tl))%nat by lia.
Qed.

Lemma cands_nodup (tiles : list (list Q)) (kn base : nat) :
  Forall (fun tl => (kn <= length tl)%nat) tiles ->
  NoDup (map snd (cands tiles kn base)).
Proof.
  revert base. induction tiles as [|tl rest IH]; simpl; intros base Hall.
  - constructor.
  - inversion Hall as [|? ? Hk Hrest]; subst.
    destruct (topk_row_spec tl Hk) as (_ & Hnd & Hval & _).
    rewrite map_app, map_map. simpl.
    apply NoDup_app.
    + rewrite <- (map_map snd (fun i => (i + base)%nat)).
      apply NoDup_map_inj; [|exact Hnd].
      intros a b Hab. lia.
    + now apply IH.
    + intros g Hg1 Hg2.
      apply in_map_iff in Hg1. destruct Hg1 as [[v i] [Heq Hin]].
      simpl in Heq. subst g.
      destruct (Hval _ _ Hin) as [Hi _].
      apply in_map_iff in Hg2. destruct Hg2 as [[v' g'] [Heq Hin']].
      simpl in Heq. subst g'.
      apply cands_in in Hin'; [|assumption]. lia.
Qed.

Lemma cands_cover (tiles : list (list Q)) (kn base g : nat) :
  Forall (fun tl => (kn <= length tl)%nat) tiles ->
  (base <= g < base + length (concat tiles))%nat ->
  ~ In g (map snd (cands tiles kn base)) ->
  exists l, incl l (cands tiles kn base) /\ NoDup (map snd l) /\
            length l = kn /\
            forall p, In p l -> nth (g - base) (concat tiles) 0 <= fst p.
Proof.
  revert base. induction tiles as [|tl rest IH]; simpl; intros base Hall Hg Hnot.
  - lia.
  - inversion Hall as [|? ? Hk Hrest]; subst.
    rewrite length_app in Hg.
    destruct (Nat.lt_ge_cases g (base + length tl)) as [Hlt|Hge].
    + destruct (topk_row_spec tl Hk) as (Hlen & Hnd & Hval & Hdom).
      exists (map (fun p => (fst p, (snd p + base)%nat)) (topk_row tl kn)).
      repeat split.
      * apply incl_appl, incl_refl.
      * rewrite map_map. simpl.
        rewrite <- (map_map snd (fun i => (i + base)%nat)).
        apply NoDup_map_inj; [|exact Hnd].
        intros a b Hab. lia.
      * now rewrite length_map.
      * intros p Hp. apply in_map_iff in Hp. destruct Hp as [[v i] [<- Hin]].
        simpl. rewrite app_nth1 by lia.
        apply Hdom; [apply in_map_iff; now exists (v, i) | lia |].
        intro Hloc. apply Hnot. rewrite map_app. apply in_or_app. left.
        rewrite map_map. simpl.
        apply in_map_iff in Hloc. destruct Hloc as [[v' i'] [Heq Hin']].
        simpl in Heq. apply in_map_iff. exists (v', i'). simpl. split; [lia|assumption].
    + destruct (IH (base + length tl)%nat Hrest) as (l & Hincl & Hnd & Hlen & Hdom).
      * lia.
      * intro Hin. apply Hnot. rewrite map_app. apply in_or_app. now right.
      * exists l. repeat split; try assumption.
        -- now apply incl_appr.
        -- intros p Hp. rewrite app_nth2 by lia.
           replace (g - base - length tl)%nat with (g - (base + length tl))%nat by lia.
           now apply Hdom.
Qed.

Lemma nth_pair_in (c : list (Q * nat)) (i : nat) :
  (i < length c)%nat ->
  In (nth i (map fst c) 0, nth i (map snd c) 0%nat) c.
Proof.
  intros Hi.
  change 0 with (fst (0, 0%nat)) at 1.
  change 0%nat with (snd (0, 0%nat)) at 2.
  rewrite !map_nth, <- surjective_pairing. now apply nth_In.
Qed.

Section Select.
Variables (tiles : list (list Q)) (kn : nat).
Hypothesis tiles_nonempty : tiles <> [].
Hypothesis tiles_wide : Forall (fun tl => (kn <= length tl)%nat) tiles.

Let c := cands tiles kn 0.

Lemma select_fits : (kn <= length (map fst c))%nat.
Proof.
  rewrite length_map. unfold c. rewrite cands_length by assumption.
  destruct tiles; [congruence | simpl; lia].
Qed.

Lemma select_fst : map fst (select tiles kn) = map fst (topk_row (map fst c) kn).
Proof. unfold select. fold c. now rewrite map_map. Qed.

Lemma select_snd :
  map snd (select tiles kn)
  = map (fun i => nth i (map snd c) 0%nat) (map snd (topk_row (map fst c) kn)).
Proof. unfold select. fold c. now rewrite !map_map. Qed.

Lemma select_in_cands (v : Q) (g : nat) :
  In (v, g) (select tiles kn) -> In (v, g) c.
Proof.
  unfold select. fold c. intros Hin.
  apply in_map_iff in Hin. destruct Hin as [[v' i] [Heq Hin]].
  simpl in Heq. inversion Heq; subst.
  destruct (topk_row_spec _ select_fits) as (_ & _ & Hval & _).
  destruct (Hval _ _ Hin) as [Hi Hn]. rewrite length_map in Hi.
  rewrite <- Hn. now apply nth_pair_in.
Qed.

Lemma select_dominates_cands (v' : Q) (g' : nat) (v : Q) :
  In (v', g') c -> ~ In g' (map snd (select tiles kn)) ->
  In v (map fst (select tiles kn)) -> v' <= v.
Proof.
  intros Hin Hnot Hv.
  destruct (topk_row_spec _ select_fits) as (_ & _ & _ & Hdom).
  destruct (In_nth _ _ (0, 0%nat) Hin) as [q [Hq Hnth]].
  rewrite select_fst in Hv.
  assert (Hv' : nth q (map fst c) 0 = v').
  { change 0 with (fst (0, 0%nat)). now rewrite map_nth, Hnth. }
  rewrite <- Hv'. apply Hdom; [exact Hv | now rewrite length_map |].
  intro Hsel. apply Hnot. rewrite select_snd.
  apply in_map_iff. exists q. split; [|exact Hsel].
  change 0%nat with (snd (0, 0%nat)). now rewrite map_nth, Hnth.
Qed.

(** The indices kept after the second top-K are those of [kn] largest
    elements of the whole row. *)
Theorem select_is_topk : is_topk (concat tiles) kn (select tiles kn).
Proof.
  pose proof (topk_row_spec _ select_fits) as (Hlen & Hnd & Hval & Hdom).
  pose proof (@cands_nodup tiles kn 0%nat tiles_wide) as Hcnd. fold c in Hcnd.
  assert (Hsel_nd : NoDup (map snd (select tiles kn))).
  { rewrite select_snd.
    apply NoDup_map_NoDup_ForallPairs; [|exact Hnd].
    intros a b Ha Hb Hab.
    apply in_map_iff in Ha. destruct Ha as [[va a'] [Hea Ha]].
    apply in_map_iff in Hb. destruct Hb as [[vb b'] [Heb Hb]].
    simpl in Hea, Heb. subst a' b'.
    destruct (Hval _ _ Ha) as [Hla _]. destruct (Hval _ _ Hb) as [Hlb _].
    rewrite length_map in Hla, Hlb.
    apply (proj1 (NoDup_nth (map snd c) 0%nat) Hcnd);
      rewrite ?length_map; assumption. }
  assert (Hsel_len : length (select tiles kn) = kn).
  { unfold select. now rewrite length_map. }
  assert (Hsel_val : forall v g, In (v, g) (select tiles kn) ->
            (g < length (concat tiles))%nat /\ nth g (concat tiles) 0 = v).
  { intros v g Hin. apply select_in_cands in Hin.
    apply (@cands_in tiles kn 0%nat _ _ tiles_wide) in Hin.
    rewrite Nat.sub_0_r in Hin. split; [lia | tauto]. }
  split; [exact Hsel_len|]. split; [exact Hsel_nd|]. split; [exact Hsel_val|].
  - intros v j Hv Hj Hnot.
    destruct (in_dec Nat.eq_dec j (map snd c)) as [Hjc|Hjc].
    + apply in_map_iff in Hjc. destruct Hjc as [[v' j'] [Heq Hin]].
      simpl in Heq. subst j'.
      pose proof (@cands_in tiles kn 0%nat _ _ tiles_wide Hin) as [_ Hn].
      rewrite Nat.sub_0_r in Hn. rewrite Hn.
      now apply select_dominates_cands with (g' := j).
    + destruct (Qlt_le_dec v (nth j (concat tiles) 0)) as [Hlt|Hle];
        [exfalso | exact Hle].
      destruct (@cands_cover tiles kn 0 j tiles_wide) as (l & Hincl & Hlnd & Hllen & Hldom);
        [lia | exact Hjc |].
      rewrite Nat.sub_0_r in Hldom.
      apply in_map_iff in Hv. destruct Hv as [[v0 g0] [Heq Hin0]].
      simpl in Heq. subst v0.
      assert (Hinc : incl (g0 :: map snd l) (map snd (select tiles kn))).
      { intros x [<-|Hx].
        - apply in_map_iff. now exists (v, g0).
        - apply in_map_iff in Hx. destruct Hx as [[v' g'] [Heq Hin']].
          simpl in Heq. subst g'.
          destruct (in_dec Nat.eq_dec x (map snd (select tiles kn))) as [Hy|Hn];
            [exact Hy | exfalso].
          assert (v' <= v).
          { apply select_dominates_cands with (g' := x); try assumption.
            - now apply Hincl.
            - apply in_map_iff. now exists (v, g0). }
          pose proof (Hldom _ Hin') as Hge. simpl in Hge.
          apply (Qlt_irrefl v).
          eapply Qlt_le_trans; [exact Hlt|]. eapply Qle_trans; eassumption. }
      assert (Hnd' : NoDup (g0 :: map snd l)).
      { constructor; [|exact Hlnd].
        intro Hx. apply in_map_iff in Hx. destruct Hx as [[v' g'] [Heq Hin']].
        simpl in Heq. subst g'.
        pose proof (Hldom _ Hin') as Hge. simpl in Hge.
        apply Hincl in Hin'. apply (@cands_in tiles kn 0%nat _ _ tiles_wide) in Hin'.
        destruct (Hsel_val _ _ Hin0) as [_ Hv0].
        rewrite Nat.sub_0_r in Hin'. destruct Hin' as [_ Hv'].
        rewrite Hv0 in Hv'. subst v'.
        apply (Qlt_irrefl v). eapply Qlt_le_trans; eassumption. }
      pose proof (NoDup_incl_length Hnd' Hinc) as Hcount.
      simpl in Hcount. rewrite !length_map in Hcount. lia.
Qed.

End Select.

End TwoLevel.

(** ** Splitting and the constructor of [TopKTiledSoftmax] *)

Section Split.
Import Torch.

Lemma chunks_fuel_concat {A : Type} (fuel n : nat) (l : list A) :
  (0 < n)%nat -> (length l <= fuel)%nat -> concat (chunks_fuel fuel n l) = l.
Proof.
  intros Hn. revert l. induction fuel as [|fuel IH]; intros l Hl; simpl.
  - destruct l; [reflexivity | simpl in Hl; lia].
  - destruct l as [|a l]; [reflexivity|].
    change (concat (firstn n (a :: l) :: chunks_fuel fuel n (skipn n (a :: l)))
            = a :: l).
    simpl concat. rewrite IH; [apply firstn_skipn|].
    rewrite length_skipn. simpl length in *. lia.
Qed.

Lemma chunks_nonempty {A : Type} (n : nat) (l : list A) :
  l <> [] -> chunks n l <> [].
Proof.
  unfold chunks. destruct l as [|a l]; [congruence|]. simpl. discriminate.
Qed.

Lemma split_rows_ok {A : Type} (l : list A) (s : Z) (cs : list (list A)) :
  split_rows l s = Ok cs -> cs <> [] /\ concat cs = l.
Proof.
  unfold split_rows.
  destruct (s <? 0)%Z eqn:Hneg; [discriminate|].
  destruct (s =? 0)%Z eqn:Hz.
  - destruct l; [|discriminate]. intros Heq. inversion Heq. split; [discriminate | reflexivity].
  - destruct l as [|a l]; intros Heq; inversion Heq.
    + split; [discriminate | reflexivity].
    + split.
      * apply chunks_nonempty. discriminate.
      * unfold chunks. apply chunks_fuel_concat; [|lia].
        apply Z.ltb_ge in Hneg. apply Z.eqb_neq in Hz. lia.
Qed.

Lemma split_ok (t : tensor) (s : Z) (ts : list tensor) :
  split t s = Ok ts ->
  ts <> [] /\ concat (map t_rows ts) = t_rows t /\
  Forall (fun c => t_dtype c = t_dtype t /\ t_ncols c = t_ncols t) ts.
Proof.
  unfold split. destruct (split_rows (t_rows t) s) as [cs|e] eqn:E; simpl; [|discriminate].
  intros Heq. inversion Heq. clear Heq.
  apply split_rows_ok in E. destruct E as [Hne Hcat].
  split; [|split].
  - destruct cs; [congruence | discriminate].
  - rewrite map_map. simpl. now rewrite map_id.
  - apply Forall_forall. intros c Hc. apply in_map_iff in Hc.
    destruct Hc as [x [<- _]]. now split.
Qed.

(** What a successfully constructed module holds. *)
Lemma init_ok (proj_weight : tensor) (k tile_factor : Z) (m : TopKTiledSoftmax.t) :
  TopKTiledSoftmax.init proj_weight k tile_factor = Ok m ->
  TopKTiledSoftmax.vocabs m = t_nrows proj_weight /\
  TopKTiledSoftmax.k m = k /\
  TopKTiledSoftmax.weight m = transpose proj_weight /\
  TopKTiledSoftmax.fp16 m = dtype_eqb (t_dtype proj_weight) Float16 /\
  is_fp16_or_fp32 (t_dtype proj_weight) = true /\
  TopKTiledSoftmax.fcs m <> [] /\
  concat (map t_rows (TopKTiledSoftmax.fcs m)) = t_rows proj_weight /\
  Forall (fun c => t_dtype c = t_dtype proj_weight /\ t_ncols c = t_ncols proj_weight)
         (TopKTiledSoftmax.fcs m).
Proof.
  unfold TopKTiledSoftmax.init.
  destruct (floordiv (Z.of_nat (t_nrows proj_weight)) tile_factor) as [s|e]; simpl; [|discriminate].
  destruct (split proj_weight s) as [ts|e] eqn:E; simpl; [|discriminate].
  destruct (is_fp16_or_fp32 (t_dtype proj_weight)) eqn:D; simpl; [|discriminate].
  intros Heq. inversion Heq. simpl.
  apply split_ok in E. tauto.
Qed.

(** The constructor never looks at [k]. *)
Lemma init_any_k (proj_weight : tensor) (k k' tile_factor : Z) (m : TopKTiledSoftmax.t) :
  TopKTiledSoftmax.init proj_weight k tile_factor = Ok m ->
  TopKTiledSoftmax.init proj_weight k' tile_factor
  = Ok (TopKTiledSoftmax.mk (TopKTiledSoftmax.vocabs m) (TopKTiledSoftmax.fcs m) k'
          (TopKTiledSoftmax.weight m) (TopKTiledSoftmax.fp16 m)).
Proof.
  unfold TopKTiledSoftmax.init.
  destruct (floordiv (Z.of_nat (t_nrows proj_weight)) tile_factor) as [s|e]; simpl; [|discriminate].
  destruct (split proj_weight s) as [ts|e]; simpl; [|discriminate].
  destruct (is_fp16_or_fp32 (t_dtype proj_weight)); simpl; [|discriminate].
  intros Heq. inversion Heq. reflexivity.
Qed.

End Split.

(** ** [TopKTiledSoftmax.forward], step by step *)

Section ForwardSteps.
Import Torch.
Context `{TopKOp}.

Lemma dtype_eqb_refl (d : dtype) : dtype_eqb d d = true.
Proof. now destruct d. Qed.

Lemma dtype_eqb_eq (a b : dtype) : dtype_eqb a b = true -> a = b.
Proof. destruct a, b; simpl; congruence. Qed.

Lemma zip_with_map {A B C D : Type} (f : B -> C -> D) (g : A -> B) (h : A -> C)
  (l : list A) :
  zip_with f (map g l) (map h l) = map (fun x => f (g x) (h x)) l.
Proof. induction l; simpl; congruence. Qed.

Lemma cat_rows_cons {A : Type} (t : list (list A)) (ts : list (list (list A))) :
  ts <> [] -> cat_rows (t :: ts) = zip_with (@app A) t (cat_rows ts).
Proof. destruct ts; [congruence | reflexivity]. Qed.

Lemma tiles_of_concat (fcs : list tensor) (w : tensor) (r : list Q) :
  concat (map t_rows fcs) = t_rows w ->
  concat (tiles_of fcs r) = logits_row w r.
Proof.
  intros Hc. unfold tiles_of, logits_row. rewrite <- Hc.
  rewrite concat_map, map_map. reflexivity.
Qed.

Lemma topk_ok (x : tensor) (k : Z) :
  (0 <= k)%Z -> (Z.to_nat k <= t_ncols x)%nat ->
  topk x k =
  Ok (mkTensor (t_dtype x) (Z.to_nat k)
        (map (fun r => map fst (topk_row r (Z.to_nat k))) (t_rows x)),
      mkITensor (Z.to_nat k)
        (map (fun r => map snd (topk_row r (Z.to_nat k))) (t_rows x))).
Proof.
  intros Hk Hw. unfold topk.
  replace (k <? 0)%Z with false by (symmetry; apply Z.ltb_ge; lia).
  replace (Z.of_nat (t_ncols x) <? k)%Z with false
    by (symmetry; apply Z.ltb_ge; lia).
  reflexivity.
Qed.

Lemma linear_ok (input fc : tensor) :
  t_dtype fc = t_dtype input -> t_ncols fc = t_ncols input ->
  linear input fc =
  Ok (mkTensor (t_dtype input) (t_nrows fc)
        (map (fun r => map (dot r) (t_rows fc)) (t_rows input))).
Proof.
  intros Hd Hc. unfold linear.
  rewrite Hd, dtype_eqb_refl, Hc, Nat.eqb_refl. reflexivity.
Qed.

Lemma tile_loop_ok (fcs : list tensor) (input : tensor) (k : Z) (base : nat) :
  (0 <= k)%Z ->
  Forall (tile_fits input (Z.to_nat k)) fcs ->
  exists vals idxs,
    TopKTiledSoftmax.tile_loop fcs input k base = Ok (vals, idxs) /\
    length vals = length fcs /\ length idxs = length fcs /\
    Forall (fun v => t_dtype v = t_dtype input /\ t_ncols v = Z.to_nat k) vals /\
    Forall (fun i => i_ncols i = Z.to_nat k) idxs /\
    (fcs <> [] ->
     cat_rows (map t_rows vals)
     = map (fun r => map fst (cands (tiles_of fcs r) (Z.to_nat k) base))
           (t_rows input) /\
     cat_rows (map i_rows idxs)
     = map (fun r => map snd (cands (tiles_of fcs r) (Z.to_nat k) base))
           (t_rows input)).
Proof.
  intros Hk. revert base.
  induction fcs as [|fc rest IH]; intros base Hall.
  - exists [], []. simpl. repeat split; try constructor; congruence.
  - inversion Hall as [|? ? [Hd [Hc Hw]] Hrest]; subst.
    destruct (IH (base + t_nrows fc)%nat Hrest)
      as (vals & idxs & Hloop & Hlv & Hli & Hfv & Hfi & Hcat).
    simpl. rewrite (linear_ok _ _ Hd Hc). simpl.
    rewrite topk_ok by (simpl; assumption). simpl.
    rewrite Hloop. simpl.
    eexists _, _. split; [reflexivity|].
    split; [simpl; congruence|]. split; [simpl; congruence|].
    split; [constructor; [now split | assumption]|].
    split; [constructor; [reflexivity | assumption]|].
    intros _.
    destruct rest as [|fc' rest'].
    + destruct vals; [|discriminate]. destruct idxs; [|discriminate].
      simpl. rewrite ?map_map.
      split; apply map_ext; intros r; rewrite app_nil_r, !map_map; reflexivity.
    + destruct Hcat as [Hcv Hci]; [discriminate|].
      assert (Hv : map t_rows vals <> [])
        by (destruct vals; [discriminate | simpl; discriminate]).
      assert (Hi : map i_rows idxs <> [])
        by (destruct idxs; [discriminate | simpl; discriminate]).
      cbn [map]. rewrite !cat_rows_cons by assumption.
      rewrite Hcv, Hci. cbn [t_rows i_rows add_base]. rewrite ?map_map.
      rewrite !zip_with_map.
      split; apply map_ext; intros r; cbv beta;
        rewrite map_app, !map_map, length_map; reflexivity.
Qed.

(** *** The coordinates of the sparse tensors *)

Lemma combine_app_eq {A B : Type} (a1 a2 : list A) (b1 b2 : list B) :
  length a1 = length b1 ->
  combine (a1 ++ a2) (b1 ++ b2) = combine a1 b1 ++ combine a2 b2.
Proof.
  revert b1. induction a1 as [|x a1 IH]; intros [|y b1] Hl; simpl in *;
    try discriminate; [reflexivity|].
  f_equal. apply IH. congruence.
Qed.

Lemma coo_block (t : nat) (s : list (Q * nat)) :
  combine (combine (repeat t (length s)) (map snd s)) (map fst s) = row_block t s.
Proof. induction s as [|p s IH]; simpl; [reflexivity | now rewrite IH]. Qed.

Lemma coo_blocks (kn base : nat) (sels : list (list (Q * nat))) :
  Forall (fun s => length s = kn) sels ->
  combine (coo_indices (map (fun t => repeat t kn) (seq base (length sels)))
             (map (map snd) sels))
          (concat (map (map fst) sels))
  = concat (zip_with row_block (seq base (length sels)) sels).
Proof.
  unfold coo_indices. revert base.
  induction sels as [|s sels IH]; intros base Hall; simpl; [reflexivity|].
  inversion Hall as [|? ? Hs Hrest]; subst.
  rewrite (combine_app_eq (repeat base (length s)) _ (map snd s) _)
    by now rewrite repeat_length, length_map.
  rewrite combine_app_eq
    by (rewrite length_combine, repeat_length, !length_map; lia).
  rewrite coo_block. f_equal. now apply IH.
Qed.

Lemma concat_singletons {A : Type} (l : list A) :
  concat (map (fun t => repeat t 1) l) = l.
Proof.
  induction l as [|a l IH]; [reflexivity|].
  change (a :: concat (map (fun t => repeat t 1) l) = a :: l). now rewrite IH.
Qed.

(** *** The label's logit *)

Lemma map_nth_seq_id {A : Type} (l : list A) (d : A) :
  map (fun j => nth j l d) (seq 0 (length l)) = l.
Proof.
  induction l as [|a l IH]; simpl; [reflexivity|].
  f_equal. rewrite <- seq_shift, map_map. exact IH.
Qed.

Lemma map_seq_nth {A B : Type} (g : A -> B) (l : list A) (d : A) :
  map (fun t => g (nth t l d)) (seq 0 (length l)) = map g l.
Proof.
  rewrite <- (map_map (fun t => nth t l d) g). now rewrite map_nth_seq_id.
Qed.

Lemma zip_with_repeat {A B C : Type} (f : A -> B -> C) (l : list A) (x : B) :
  zip_with f l (repeat x (length l)) = map (fun a => f a x) l.
Proof. induction l; simpl; congruence. Qed.

Lemma forallb_repeat {A : Type} (p : A -> bool) (x : A) (n : nat) :
  p x = true -> forallb p (repeat x n) = true.
Proof. intros Hp. induction n; simpl; [reflexivity | now rewrite Hp]. Qed.

Lemma nth_transposed (rows : list (list Q)) (i j : nat) :
  nth i (map (fun r => nth j r 0%Q) rows) 0%Q = nth j (nth i rows []) 0%Q.
Proof.
  rewrite <- (map_nth (fun r => nth j r 0%Q) rows [] i).
  now destruct j.
Qed.

Lemma length_transpose_rows (n : nat) (rows : list (list Q)) :
  length (transpose_rows n rows) = n.
Proof. unfold transpose_rows. now rewrite length_map, length_seq. Qed.

(** [gather] on the transposed weight followed by [.T] picks, for every
    token, the weight row of its label. *)
Lemma label_rows (proj_weight : tensor) (target : list nat) :
  wf_tensor proj_weight ->
  Forall (fun l => (l < t_nrows proj_weight)%nat) target ->
  exists w,
    gather (transpose proj_weight)
      (expand target (t_nrows (transpose proj_weight))) = Ok w /\
    transpose w
    = mkTensor (t_dtype proj_weight) (t_ncols proj_weight)
        (map (fun l => nth l (t_rows proj_weight) []) target).
Proof.
  intros Hwf Htgt. unfold gather, expand. cbn [i_rows i_ncols].
  rewrite forallb_repeat.
  2:{ apply forallb_forall. intros l Hl. apply Nat.ltb_lt.
      rewrite Forall_forall in Htgt. apply (Htgt _ Hl). }
  eexists. split; [reflexivity|].
  unfold transpose, t_nrows. cbn [t_rows t_ncols t_dtype].
  rewrite length_transpose_rows.
  replace (repeat target (t_ncols proj_weight))
    with (repeat target
            (length (transpose_rows (t_ncols proj_weight) (t_rows proj_weight))))
    by now rewrite length_transpose_rows.
  rewrite zip_with_repeat, length_map, length_transpose_rows.
  f_equal. unfold transpose_rows. rewrite !map_map.
  rewrite <- (map_seq_nth (fun l => nth l (t_rows proj_weight) []) target 0%nat).
  apply map_ext_in. intros t Ht. apply in_seq in Ht.
  rewrite map_map.
  assert (Hl : (nth t target 0 < t_nrows proj_weight)%nat).
  { rewrite Forall_forall in Htgt. apply Htgt, nth_In. lia. }
  assert (Hrow : length (nth (nth t target 0%nat) (t_rows proj_weight) [])
                 = t_ncols proj_weight).
  { unfold wf_tensor in Hwf. rewrite Forall_forall in Hwf.
    apply Hwf, nth_In. exact Hl. }
  rewrite <- Hrow at 1.
  rewrite <- (map_nth_seq_id (nth (nth t target 0%nat) (t_rows proj_weight) []) 0%Q) at 2.
  apply map_ext. intros j.
  rewrite (nth_indep _ 0%Q
             (nth 0%nat (map (fun r => nth j r 0%Q) (t_rows proj_weight)) 0%Q))
    by (rewrite length_map; lia).
  rewrite (map_nth (fun i => nth i (map (fun r => nth j r 0%Q) (t_rows proj_weight)) 0%Q)).
  apply nth_transposed.
Qed.

(** *** The sparse tensor handed to the softmax *)

Lemma sum_ncols (kn : nat) (vals : list tensor) :
  Forall (fun v => t_ncols v = kn) vals ->
  fold_right (fun t n => (t_ncols t + n)%nat) 0%nat vals = (length vals * kn)%nat.
Proof.
  induction 1 as [|v vals Hv _ IH]; simpl; [reflexivity | rewrite IH, Hv; lia].
Qed.

Lemma select_length (tiles : list (list Q)) (kn : nat) :
  tiles <> [] -> Forall (fun tl => (kn <= length tl)%nat) tiles ->
  length (select tiles kn) = kn.
Proof.
  intros Hne Hw. unfold select. rewrite length_map.
  now destruct (topk_row_spec _ (select_fits Hne Hw)).
Qed.

Lemma igather_select (T : list Q -> list (list Q)) (kn n0 : nat)
  (rows : list (list Q)) :
  igather
    (mkITensor n0 (map (fun r => map snd (cands (T r) kn 0)) rows))
    (mkITensor kn
       (map (fun r => map snd (topk_row r kn))
          (map (fun r => map fst (cands (T r) kn 0)) rows)))
  = mkITensor kn (map (fun r => map snd (select (T r) kn)) rows).
Proof.
  unfold igather. cbn [i_rows i_ncols]. f_equal.
  rewrite map_map, zip_with_map. apply map_ext. intros r.
  now rewrite select_snd.
Qed.

Lemma fp32_when_not_fp16 (d : dtype) :
  is_fp16_or_fp32 d = true -> dtype_eqb d Float16 = false -> d = Float32.
Proof. destruct d; simpl; congruence. Qed.

Lemma promote_same (d : dtype) : promote d d = d.
Proof. now destruct d. Qed.

Theorem forward_sparse_spec (proj_weight : tensor) (k tile_factor : Z)
  (m : TopKTiledSoftmax.t) (input : tensor) (target : list nat) :
  TopKTiledSoftmax.init proj_weight k tile_factor = Ok m ->
  valid_call proj_weight input target ->
  (0 <= k)%Z ->
  Forall (fun fc => (k <= Z.of_nat (t_nrows fc))%Z) (TopKTiledSoftmax.fcs m) ->
  TopKTiledSoftmax.forward_sparse m input target
  = Ok (mkSparse Float32 (t_nrows input) (t_nrows proj_weight)
          (topk_entries (TopKTiledSoftmax.fcs m) input (Z.to_nat k)
           ++ target_entries proj_weight input target)).
Proof.
  intros Hinit [Hwfw Hwfi Hdt Hnc Htl Htr] Hk Hwide.
  destruct (init_ok _ _ _ Hinit)
    as (Hvoc & Hkk & Hweight & Hfp & Hdok & Hne & Hcat & Hfcs).
  set (kn := Z.to_nat k).
  assert (Hfits : Forall (tile_fits input kn) (TopKTiledSoftmax.fcs m)).
  { rewrite Forall_forall in *. intros fc Hfc.
    destruct (Hfcs _ Hfc) as [Hd Hc]. specialize (Hwide _ Hfc).
    unfold tile_fits, kn. repeat split; [congruence | congruence | lia]. }
  assert (Htiles : forall r,
            tiles_of (TopKTiledSoftmax.fcs m) r <> [] /\
            Forall (fun tl => (kn <= length tl)%nat)
                   (tiles_of (TopKTiledSoftmax.fcs m) r)).
  { intros r. unfold tiles_of. split.
    - destruct (TopKTiledSoftmax.fcs m); [congruence | discriminate].
    - rewrite Forall_forall in *. intros tl Htl'.
      apply in_map_iff in Htl'. destruct Htl' as [fc [<- Hfc]].
      rewrite length_map. apply (Hfits _ Hfc). }
  destruct (tile_loop_ok 0 Hk Hfits)
    as (vals & idxs & Hloop & Hlv & Hli & Hfv & Hfi & Hcats).
  destruct (Hcats Hne) as [Hcv Hci]. clear Hcats.
  unfold TopKTiledSoftmax.forward_sparse.
  rewrite Hfp, Hkk, Hvoc, Hweight, Hdt.
  assert (Hassert :
            (if dtype_eqb (t_dtype proj_weight) Float16
             then py_assert (dtype_eqb (t_dtype proj_weight) Float16)
             else Ok tt) = Ok tt).
  { destruct (dtype_eqb (t_dtype proj_weight) Float16) eqn:E; [|reflexivity].
    reflexivity. }
  rewrite Hassert. cbn [bind]. rewrite Hloop. cbn [bind].
  assert (Hvne : vals <> [])
    by (destruct vals, (TopKTiledSoftmax.fcs m); simpl in *; congruence).
  assert (Hine : idxs <> [])
    by (destruct idxs, (TopKTiledSoftmax.fcs m); simpl in *; congruence).
  destruct vals as [|v0 vals']; [congruence|].
  destruct idxs as [|i0 idxs']; [congruence|].
  unfold cat, icat. cbn [bind]. rewrite Hcv, Hci.
  rewrite topk_ok.
  2: exact Hk.
  2:{ cbn [t_ncols].
      rewrite (sum_ncols (kn := kn))
        by (eapply Forall_impl; [|exact Hfv]; intros a Ha; apply Ha).
      fold kn. simpl length. lia. }
  cbn [bind t_rows t_dtype]. fold kn.
  rewrite igather_select. cbn [i_rows i_ncols].
  destruct (label_rows Hwfw Htr) as (w & Hgather & Htrans).
  rewrite Hgather. cbn [bind]. rewrite Htrans.
  unfold mul_sum_dim1, t_nrows in *. cbn [t_rows t_ncols t_dtype].
  rewrite length_map, Htl, Hnc, !Nat.eqb_refl. cbn [andb negb bind].
  inversion Hfv as [|? ? [Hv0 _] _]; subst.
  rewrite Hv0, Hdt, promote_same.
  unfold sparse_add, sparse_coo_tensor.
  cbn [s_dtype s_nrows s_ncols s_entries].
  rewrite dtype_eqb_refl, !Nat.eqb_refl. cbn [andb negb bind].
  assert (Hdtype :
            forall es,
              (if dtype_eqb (t_dtype proj_weight) Float16
               then sparse_float
                      (mkSparse (t_dtype proj_weight) (t_nrows input)
                         (t_nrows proj_weight) es)
               else mkSparse (t_dtype proj_weight) (t_nrows input)
                      (t_nrows proj_weight) es)
              = mkSparse Float32 (t_nrows input) (t_nrows proj_weight) es).
  { intros es. destruct (dtype_eqb (t_dtype proj_weight) Float16) eqn:E.
    - reflexivity.
    - now rewrite (fp32_when_not_fp16 _ Hdok E). }
  rewrite Hdtype. do 2 f_equal.
  unfold arange_expand_T. rewrite !length_map.
  f_equal.
  - unfold topk_entries.
    rewrite map_map.
    rewrite (map_ext _ (fun r => map fst (select (tiles_of (TopKTiledSoftmax.fcs m) r) kn)))
      by (intros r; now rewrite select_fst).
    rewrite <- (map_map (fun r => select (tiles_of (TopKTiledSoftmax.fcs m) r) kn) (map snd)).
    rewrite <- (map_map (fun r => select (tiles_of (TopKTiledSoftmax.fcs m) r) kn) (map fst)).
    rewrite <- (length_map (fun r => select (tiles_of (TopKTiledSoftmax.fcs m) r) kn)
                  (t_rows input)) at 1.
    rewrite coo_blocks.
    + now rewrite length_map.
    + apply Forall_forall. intros sel Hsel. apply in_map_iff in Hsel.
      destruct Hsel as [r [<- _]]. apply select_length; apply Htiles.
  - unfold target_entries, coo_indices.
    rewrite concat_singletons, Htl. simpl concat. now rewrite app_nil_r.
Qed.

End ForwardSteps.

(** ** Coalescing *)

Section Coalesce.
Import Torch.

Lemma key_eqb_eq (a b : nat * nat) : key_eqb a b = true <-> a = b.
Proof.
  destruct a as [a1 a2], b as [b1 b2]. unfold key_eqb. simpl.
  rewrite andb_true_iff, !Nat.eqb_eq. split; [intros []; congruence|].
  intros Heq. inversion Heq. auto.
Qed.

Lemma key_eqb_refl (a : nat * nat) : key_eqb a a = true.
Proof. now apply key_eqb_eq. Qed.

Lemma key_eqb_neq (a b : nat * nat) : key_eqb a b = false <-> a <> b.
Proof.
  split.
  - intros H Heq. apply key_eqb_eq in Heq. congruence.
  - intros H. destruct (key_eqb a b) eqn:E; [|reflexivity].
    apply key_eqb_eq in E. contradiction.
Qed.

Lemma key_ltb_spec (a b : nat * nat) :
  key_ltb a b = true <->
  (fst a < fst b \/ (fst a = fst b /\ snd a < snd b))%nat.
Proof.
  unfold key_ltb.
  rewrite orb_true_iff, andb_true_iff, !Nat.ltb_lt, Nat.eqb_eq. tauto.
Qed.

Lemma key_ltb_trans (a b c : nat * nat) :
  key_ltb a b = true -> key_ltb b c = true -> key_ltb a c = true.
Proof. rewrite !key_ltb_spec. lia. Qed.

Lemma key_ltb_irrefl (a : nat * nat) : key_ltb a a = false.
Proof.
  destruct (key_ltb a a) eqn:E; [|reflexivity].
  apply key_ltb_spec in E. lia.
Qed.

Lemma key_gt (a b : nat * nat) :
  key_ltb a b = false -> key_eqb a b = false -> key_ltb b a = true.
Proof.
  intros Hlt Heq. apply key_ltb_spec.
  apply key_eqb_neq in Heq.
  destruct (key_ltb a b) eqn:E; [discriminate|].
  assert (Hn : ~ (fst a < fst b \/ (fst a = fst b /\ snd a < snd b))%nat).
  { intro Hc. apply key_ltb_spec in Hc. congruence. }
  destruct a as [a1 a2], b as [b1 b2]. simpl in *.
  assert ((a1, a2) = (b1, b2) -> False) by exact Heq.
  destruct (Nat.eq_dec a1 b1) as [->|]; [|lia].
  destruct (Nat.eq_dec a2 b2) as [->|]; [exfalso; auto | lia].
Qed.

Lemma sp_insert_keys (k : nat * nat) (v : Q) (l : list ((nat * nat) * Q))
  (k' : nat * nat) :
  In k' (keys (sp_insert k v l)) <-> k' = k \/ In k' (keys l).
Proof.
  induction l as [|[k0 v0] l IH]; simpl.
  - intuition.
  - destruct (key_ltb k k0) eqn:Hlt; [simpl; intuition|].
    destruct (key_eqb k k0) eqn:Heq; simpl.
    + apply key_eqb_eq in Heq. subst. intuition.
    + rewrite IH. intuition.
Qed.

Lemma sp_insert_sorted (k : nat * nat) (v : Q) (l : list ((nat * nat) * Q)) :
  StronglySorted key_lt l -> StronglySorted key_lt (sp_insert k v l).
Proof.
  induction 1 as [|[k0 v0] l Hs IH Hall]; simpl.
  - repeat constructor.
  - destruct (key_ltb k k0) eqn:Hlt.
    + constructor; [now constructor|].
      constructor; [exact Hlt|].
      rewrite Forall_forall in *. intros x Hx. unfold key_lt in *. simpl in *.
      eapply key_ltb_trans; [exact Hlt | now apply Hall].
    + destruct (key_eqb k k0) eqn:Heq.
      * constructor; [exact Hs | exact Hall].
      * constructor; [exact IH|].
        rewrite Forall_forall in *. intros [k1 v1] Hx.
        assert (Hk1 : In k1 (keys (sp_insert k v l)))
          by (apply in_map_iff; now exists (k1, v1)).
        apply sp_insert_keys in Hk1. unfold key_lt. simpl.
        destruct Hk1 as [->|Hk1].
        -- now apply key_gt.
        -- apply in_map_iff in Hk1. destruct Hk1 as [[k2 v2] [Hf Hin]].
           simpl in Hf. subst k2. apply (Hall _ Hin).
Qed.

Lemma coalesce_sorted (es : list ((nat * nat) * Q)) :
  StronglySorted key_lt (coalesce es).
Proof.
  induction es as [|e es IH]; simpl; [constructor | now apply sp_insert_sorted].
Qed.

Lemma coalesce_keys (es : list ((nat * nat) * Q)) (k : nat * nat) :
  In k (keys (coalesce es)) <-> In k (keys es).
Proof.
  induction es as [|[k0 v0] es IH]; simpl; [tauto|].
  rewrite sp_insert_keys, IH. simpl. intuition.
Qed.

Lemma sorted_keys_nodup (l : list ((nat * nat) * Q)) :
  StronglySorted key_lt l -> NoDup (keys l).
Proof.
  induction 1 as [|[k0 v0] l Hs IH Hall]; simpl; constructor; [|exact IH].
  intros Hin. apply in_map_iff in Hin. destruct Hin as [[k1 v1] [Hf Hin]].
  simpl in Hf. subst k1. rewrite Forall_forall in Hall.
  specialize (Hall _ Hin). unfold key_lt in Hall. simpl in Hall.
  now rewrite key_ltb_irrefl in Hall.
Qed.

Lemma coalesce_nodup (es : list ((nat * nat) * Q)) : NoDup (keys (coalesce es)).
Proof. apply sorted_keys_nodup, coalesce_sorted. Qed.

Lemma lookup_none {V : Type} (k : nat * nat) (l : list ((nat * nat) * V)) :
  lookup k l = None <-> ~ In k (keys l).
Proof.
  induction l as [|[k0 v0] l IH]; simpl; [tauto|].
  destruct (key_eqb k k0) eqn:E.
  - apply key_eqb_eq in E. subst. split; [discriminate | intros Hn; exfalso; auto].
  - apply key_eqb_neq in E. rewrite IH. intuition.
Qed.

Lemma lookup_in {V : Type} (k : nat * nat) (v : V) (l : list ((nat * nat) * V)) :
  lookup k l = Some v -> In (k, v) l.
Proof.
  induction l as [|[k0 v0] l IH]; simpl; [discriminate|].
  destruct (key_eqb k k0) eqn:E.
  - apply key_eqb_eq in E. subst. intros Heq. inversion Heq. now left.
  - intros Hl. right. now apply IH.
Qed.

Lemma lookup_map {V W : Type} (F : (nat * nat) * V -> W) (k : nat * nat)
  (l : list ((nat * nat) * V)) :
  lookup k (map (fun e => (fst e, F e)) l)
  = option_map (fun v => F (k, v)) (lookup k l).
Proof.
  induction l as [|[k0 v0] l IH]; simpl; [reflexivity|].
  destruct (key_eqb k k0) eqn:E; [|exact IH].
  apply key_eqb_eq in E. now subst.
Qed.

End Coalesce.

(** ** The label that is also a top-K index *)

Section LabelTwice.
Import Torch.
Context `{TopKOp}.

Local Open Scope Q_scope.

Lemma lookup_sp_insert (k k' : nat * nat) (v : Q) (l : list ((nat * nat) * Q)) :
  StronglySorted key_lt l ->
  lookup k' (sp_insert k v l)
  = if key_eqb k' k
    then Some (match lookup k l with
               | Some v' => v' + v
               | None => v
               end)
    else lookup k' l.
Proof.
  induction 1 as [|[k0 v0] l Hs IH Hall]; simpl.
  - now destruct (key_eqb k' k).
  - destruct (key_ltb k k0) eqn:Hlt.
    + simpl. destruct (key_eqb k' k) eqn:E; [|reflexivity].
      destruct (key_eqb k k0) eqn:E0.
      * apply key_eqb_eq in E0. subst. now rewrite key_ltb_irrefl in Hlt.
      * assert (Hn : lookup k l = None).
        { apply lookup_none. intros Hin. apply in_map_iff in Hin.
          destruct Hin as [[k1 v1] [Hf Hin]]. simpl in Hf. subst k1.
          rewrite Forall_forall in Hall. specialize (Hall _ Hin).
          unfold key_lt in Hall. simpl in Hall.
          pose proof (key_ltb_trans _ _ _ Hlt Hall) as Hc.
          now rewrite key_ltb_irrefl in Hc. }
        now rewrite Hn.
    + destruct (key_eqb k k0) eqn:E0.
      * apply key_eqb_eq in E0. subst k0. simpl.
        now destruct (key_eqb k' k).
      * simpl. destruct (key_eqb k' k0) eqn:E1.
        -- apply key_eqb_eq in E1. subst k0.
           destruct (key_eqb k' k) eqn:E2; [|reflexivity].
           apply key_eqb_eq in E2. subst. now rewrite key_eqb_refl in E0.
        -- exact IH.
Qed.

Lemma key_eqb_sym (a b : nat * nat) : key_eqb a b = key_eqb b a.
Proof.
  unfold key_eqb. now rewrite (Nat.eqb_sym (fst a)), (Nat.eqb_sym (snd a)).
Qed.

Lemma sum_at_absent (k : nat * nat) (es : list ((nat * nat) * Q)) :
  ~ In k (keys es) -> sum_at k es = 0.
Proof.
  unfold sum_at. induction es as [|[k0 v0] es IH]; simpl; intros Hn; [reflexivity|].
  destruct (key_eqb k0 k) eqn:E.
  - apply key_eqb_eq in E. subst. exfalso. apply Hn. now left.
  - apply IH. intro Hin. apply Hn. now right.
Qed.

(** Coalescing stores at every coordinate the sum of the values listed
    there. *)
Lemma lookup_coalesce (es : list ((nat * nat) * Q)) (k : nat * nat) (v : Q) :
  lookup k (coalesce es) = Some v -> v == sum_at k es.
Proof.
  revert v. induction es as [|[k0 v0] es IH]; simpl; intros v Hl; [discriminate|].
  rewrite lookup_sp_insert in Hl by apply coalesce_sorted.
  unfold sum_at. simpl. rewrite (key_eqb_sym k0 k).
  destruct (key_eqb k k0) eqn:E.
  - apply key_eqb_eq in E. subst k0. simpl.
    fold (sum_at k es).
    destruct (lookup k (coalesce es)) as [v'|] eqn:E'.
    + inversion Hl. rewrite (IH _ eq_refl). apply Qplus_comm.
    + inversion Hl. rewrite sum_at_absent.
      * now rewrite Qplus_0_r.
      * intro Hin. apply coalesce_keys in Hin.
        apply lookup_none in E'. contradiction.
  - now apply IH.
Qed.

End LabelTwice.

(** ** The support of the sparse tensor *)

Section Support.
Import Torch.
Context `{TopKOp}.

Lemma in_blocks (base : nat) (sels : list (list (Q * nat))) (t c : nat) (v : Q) :
  In ((t, c), v) (concat (zip_with row_block (seq base (length sels)) sels)) <->
  (base <= t < base + length sels)%nat /\ In (v, c) (nth (t - base) sels []).
Proof.
  revert base. induction sels as [|s sels IH]; intros base; simpl.
  - split; [contradiction | lia].
  - rewrite in_app_iff, IH. unfold row_block. rewrite in_map_iff. split.
    + intros [[[v' c'] [Heq Hin]]|[Hr Hin]].
      * simpl in Heq. inversion Heq; subst. split; [lia|].
        now rewrite Nat.sub_diag.
      * split; [lia|].
        replace (t - base)%nat with (S (t - S base)) by lia. exact Hin.
    + intros [Hr Hin].
      destruct (Nat.eq_dec t base) as [->|Hne].
      * left. rewrite Nat.sub_diag in Hin. now exists (v, c).
      * right. split; [lia|].
        replace (t - base)%nat with (S (t - S base)) in Hin by lia. exact Hin.
Qed.

Lemma in_topk_entries (fcs : list tensor) (input : tensor) (kn t c : nat) (v : Q) :
  In ((t, c), v) (topk_entries fcs input kn) <->
  (t < t_nrows input)%nat /\
  In (v, c) (select (tiles_of fcs (nth t (t_rows input) [])) kn).
Proof.
  unfold topk_entries, t_nrows.
  rewrite <- (length_map (fun r => select (tiles_of fcs r) kn) (t_rows input)).
  rewrite in_blocks, length_map, Nat.sub_0_r. split.
  - intros [Hr Hin]. split; [lia|].
    rewrite (nth_indep _ [] (select (tiles_of fcs []) kn)) in Hin
      by (rewrite length_map; lia).
    now rewrite (map_nth (fun r => select (tiles_of fcs r) kn)) in Hin.
  - intros [Hr Hin]. split; [lia|].
    rewrite (nth_indep _ [] (select (tiles_of fcs []) kn))
      by (rewrite length_map; lia).
    now rewrite (map_nth (fun r => select (tiles_of fcs r) kn)).
Qed.

Lemma in_combine3 {A B C : Type} (a : list A) (b : list B) (c : list C)
  (x : A) (y : B) (z : C) (da : A) (db : B) (dc : C) :
  In ((x, y), z) (combine (combine a b) c) <->
  exists i, (i < length a)%nat /\ (i < length b)%nat /\ (i < length c)%nat /\
            nth i a da = x /\ nth i b db = y /\ nth i c dc = z.
Proof.
  revert b c. induction a as [|a0 a IH]; intros [|b0 b] [|c0 c]; simpl;
    try (split; [contradiction | intros [i Hi]; lia]).
  rewrite IH. split.
  - intros [Heq|[i Hi]].
    + inversion Heq; subst. exists 0%nat. repeat split; lia.
    + exists (S i). repeat split; try lia; apply Hi.
  - intros [[|i] Hi].
    + left. destruct Hi as (_ & _ & _ & <- & <- & <-). reflexivity.
    + right. exists i. repeat split; try lia; apply Hi.
Qed.

Lemma nth_zip_with {A B C : Type} (f : A -> B -> C) (a : list A) (b : list B)
  (i : nat) (da : A) (db : B) (dc : C) :
  (i < length a)%nat -> (i < length b)%nat ->
  nth i (zip_with f a b) dc = f (nth i a da) (nth i b db).
Proof.
  revert b i. induction a as [|x a IH]; intros [|y b] [|i] Ha Hb; simpl in *;
    try lia; [reflexivity|]. apply IH; lia.
Qed.

Lemma length_zip_with {A B C : Type} (f : A -> B -> C) (a : list A) (b : list B) :
  length (zip_with f a b) = Nat.min (length a) (length b).
Proof.
  revert b. induction a as [|x a IH]; intros [|y b]; simpl; try reflexivity.
  now rewrite IH.
Qed.

Lemma nth_logits (proj_weight : tensor) (r : list Q) (c : nat) :
  nth c (logits_row proj_weight r) 0%Q = dot r (nth c (t_rows proj_weight) []).
Proof.
  unfold logits_row.
  rewrite <- (map_nth (dot r) (t_rows proj_weight) [] c).
  f_equal. unfold dot. now destruct r.
Qed.

Lemma in_target_entries (proj_weight input : tensor) (target : list nat)
  (t c : nat) (v : Q) :
  length target = t_nrows input ->
  In ((t, c), v) (target_entries proj_weight input target) <->
  (t < t_nrows input)%nat /\ c = nth t target 0%nat /\
  v = nth c (logits_row proj_weight (nth t (t_rows input) [])) 0%Q.
Proof.
  intros Hlen. unfold target_entries, t_nrows in *.
  rewrite (in_combine3 _ _ _ t c v 0%nat 0%nat 0%Q).
  rewrite length_seq, length_zip_with, length_map, Hlen, Nat.min_id.
  split.
  - intros (i & Hi & _ & _ & Hs & Hc & Hv).
    rewrite seq_nth in Hs by lia. simpl in Hs. subst i.
    split; [lia|]. split; [now symmetry|].
    rewrite <- Hv, (nth_zip_with dot _ _ [] [] 0%Q)
      by (rewrite ?length_map; lia).
    rewrite nth_logits.
    rewrite (nth_indep (map _ target) [] (nth 0%nat (t_rows proj_weight) []))
      by (rewrite length_map; lia).
    rewrite (map_nth (fun l => nth l (t_rows proj_weight) [])).
    now rewrite Hc.
  - intros (Ht & Hc & Hv). exists t.
    rewrite seq_nth by lia.
    split; [lia|]. split; [lia|]. split; [lia|]. split; [reflexivity|].
    split; [now symmetry|].
    rewrite Hv, (nth_zip_with dot _ _ [] [] 0%Q)
      by (rewrite ?length_map; lia).
    rewrite nth_logits.
    rewrite (nth_indep (map _ target) [] (nth 0%nat (t_rows proj_weight) []))
      by (rewrite length_map; lia).
    rewrite (map_nth (fun l => nth l (t_rows proj_weight) [])).
    now rewrite Hc.
Qed.

End Support.

(** ** Distinct coordinates in each of the two sparse tensors *)

Section Distinct.
Import Torch.
Context `{TopKOp}.

Local Open Scope Q_scope.

Lemma filter_unique (k : nat * nat) (v : Q) (es : list ((nat * nat) * Q)) :
  NoDup (keys es) -> In (k, v) es ->
  filter (fun e => key_eqb (fst e) k) es = [(k, v)].
Proof.
  induction es as [|[k0 v0] es IH]; simpl; intros Hnd Hin; [contradiction|].
  inversion Hnd as [|? ? Hnot Hnd']; subst.
  destruct Hin as [Heq|Hin].
  - inversion Heq; subst. rewrite key_eqb_refl. f_equal.
    clear IH Hnd Hnd'. induction es as [|[k1 v1] es IH]; simpl; [reflexivity|].
    destruct (key_eqb k1 k) eqn:E.
    + apply key_eqb_eq in E. subst. exfalso. apply Hnot. now left.
    + apply IH. intro Hc. apply Hnot. now right.
  - destruct (key_eqb k0 k) eqn:E.
    + apply key_eqb_eq in E. subst. exfalso. apply Hnot.
      apply in_map_iff. now exists (k, v).
    + now apply IH.
Qed.

Lemma qsum_app (a b : list Q) : qsum (a ++ b) == qsum a + qsum b.
Proof.
  induction a as [|x a IH]; simpl.
  - now rewrite Qplus_0_l.
  - rewrite IH. apply Qplus_assoc.
Qed.

Lemma sum_at_app (k : nat * nat) (a b : list ((nat * nat) * Q)) :
  sum_at k (a ++ b) == sum_at k a + sum_at k b.
Proof. unfold sum_at. rewrite filter_app, map_app. apply qsum_app. Qed.

Lemma sum_at_unique (k : nat * nat) (v : Q) (es : list ((nat * nat) * Q)) :
  NoDup (keys es) -> In (k, v) es -> sum_at k es == v.
Proof.
  intros Hnd Hin. unfold sum_at. rewrite (@filter_unique k v es Hnd Hin).
  simpl. apply Qplus_0_r.
Qed.

Lemma blocks_nodup (base : nat) (sels : list (list (Q * nat))) :
  Forall (fun s => NoDup (map snd s)) sels ->
  NoDup (keys (concat (zip_with row_block (seq base (length sels)) sels))).
Proof.
  revert base. induction sels as [|s sels IH]; intros base Hall; simpl.
  - constructor.
  - inversion Hall as [|? ? Hs Hrest]; subst.
    unfold keys. rewrite map_app. apply NoDup_app.
    + unfold row_block. rewrite map_map. simpl.
      rewrite <- (map_map snd (fun c => (base, c))).
      apply NoDup_map_inj; [|exact Hs]. intros a b Hab. now inversion Hab.
    + apply IH, Hrest.
    + intros [t c] Hin1 Hin2.
      apply in_map_iff in Hin1. destruct Hin1 as [[k1 v1] [Hf Hin1]].
      simpl in Hf. subst k1. unfold row_block in Hin1.
      apply in_map_iff in Hin1. destruct Hin1 as [p [Hp _]].
      inversion Hp; subst.
      apply in_map_iff in Hin2. destruct Hin2 as [[k2 v2] [Hf Hin2]].
      simpl in Hf. subst k2.
      apply in_blocks in Hin2. lia.
Qed.

Lemma topk_entries_nodup (fcs : list tensor) (input : tensor) (kn : nat) :
  (forall r, NoDup (map snd (select (tiles_of fcs r) kn))) ->
  NoDup (keys (topk_entries fcs input kn)).
Proof.
  intros Hsel. unfold topk_entries, t_nrows.
  rewrite <- (length_map (fun r => select (tiles_of fcs r) kn) (t_rows input)).
  apply blocks_nodup. apply Forall_forall. intros s Hs.
  apply in_map_iff in Hs. destruct Hs as [r [<- _]]. apply Hsel.
Qed.

Lemma NoDup_fst {A B : Type} (l : list (A * B)) :
  NoDup (map fst l) -> NoDup l.
Proof. apply NoDup_map_inv. Qed.

Lemma combine_fst_incl {A B : Type} (a : list A) (b : list B) (x : A) :
  In x (map fst (combine a b)) -> In x a.
Proof.
  intros Hin. apply in_map_iff in Hin. destruct Hin as [[x' y] [Hf Hin]].
  simpl in Hf. subst. eapply in_combine_l. exact Hin.
Qed.

Lemma combine_fst_nodup {A B : Type} (a : list A) (b : list B) :
  NoDup a -> NoDup (map fst (combine a b)).
Proof.
  revert b. induction a as [|x a IH]; intros [|y b] Hnd; simpl;
    try constructor.
  - inversion Hnd; subst. intro Hin. apply combine_fst_incl in Hin. contradiction.
  - inversion Hnd; subst. now apply IH.
Qed.

Lemma target_entries_nodup (proj_weight input : tensor) (target : list nat) :
  NoDup (keys (target_entries proj_weight input target)).
Proof.
  unfold target_entries, keys.
  apply combine_fst_nodup. apply NoDup_fst.
  apply combine_fst_nodup. apply seq_NoDup.
Qed.

End Distinct.

(** ** The dense result of the sparse softmax *)

Section Dense.
Import Torch.

Local Open Scope R_scope.

Lemma rsum_pos (l : list R) :
  l <> [] -> (forall x, In x l -> 0 < x) -> 0 < rsum l.
Proof.
  induction l as [|a l IH]; intros Hne Hpos; [congruence|].
  simpl. destruct l as [|b l].
  - simpl. pose proof (Hpos a (or_introl eq_refl)). lra.
  - assert (0 < rsum (b :: l)).
    { apply IH; [discriminate|]. intros x Hx. apply Hpos. now right. }
    pose proof (Hpos a (or_introl eq_refl)). lra.
Qed.

Lemma rsum_map_div {A : Type} (f : A -> R) (s : R) (l : list A) :
  rsum (map (fun x => f x / s) l) = rsum (map f l) / s.
Proof.
  induction l as [|a l IH]; simpl; [unfold Rdiv; ring|].
  rewrite IH. unfold Rdiv. ring.
Qed.

Lemma rsum_exp_pos {A : Type} (f : A -> R) (l : list A) :
  l <> [] -> 0 < rsum (map (fun x => exp (f x)) l).
Proof.
  intros Hne. apply rsum_pos.
  - destruct l; [congruence | discriminate].
  - intros x Hx. apply in_map_iff in Hx. destruct Hx as [a [<- _]].
    apply exp_pos.
Qed.

Lemma nth_map_seq {A : Type} (f : nat -> A) (n i : nat) (d : A) :
  (i < n)%nat -> nth i (map f (seq 0 n)) d = f i.
Proof.
  intros Hi.
  rewrite (nth_indep _ d (f 0%nat)) by (rewrite length_map, length_seq; lia).
  rewrite map_nth, seq_nth by lia. reflexivity.
Qed.

Lemma dense_entry (s : rsparse) (t c : nat) :
  (t < rs_nrows s)%nat -> (c < rs_ncols s)%nat ->
  entry (to_dense s) t c = or_zero (lookup (t, c) (rs_entries s)).
Proof.
  intros Ht Hc. unfold entry, to_dense. cbn [r_rows].
  rewrite (nth_map_seq _ _ Ht), (nth_map_seq _ _ Hc). reflexivity.
Qed.


Lemma softmax_lookup (s : sparse) (t c : nat) :
  lookup (t, c) (rs_entries (sparse_softmax s))
  = option_map (soft_weight t (coalesce (s_entries s)))
      (lookup (t, c) (coalesce (s_entries s))).
Proof.
  unfold sparse_softmax. cbn [rs_entries].
  rewrite (lookup_map
             (fun e => soft_weight (fst (fst e)) (coalesce (s_entries s)) (snd e))).
  reflexivity.
Qed.

Lemma in_row_entries {V : Type} (t : nat) (es : list ((nat * nat) * V))
  (e : (nat * nat) * V) :
  In e (row_entries t es) <-> In e es /\ fst (fst e) = t.
Proof.
  unfold row_entries. rewrite filter_In, Nat.eqb_eq. reflexivity.
Qed.

Lemma soft_weight_pos (t c : nat) (es : list ((nat * nat) * Q)) (v : Q) :
  In ((t, c), v) es -> 0 < soft_weight t es v.
Proof.
  intros Hin. unfold soft_weight.
  set (M := rmax_list (row_vals t es)).
  replace (map (fun x => exp (x - M)) (row_vals t es))
    with (map (fun e : (nat * nat) * Q => exp (Q2R (snd e) - M)) (row_entries t es))
    by (unfold row_vals; now rewrite map_map).
  apply Rdiv_lt_0_compat; [apply exp_pos|].
  apply (rsum_exp_pos (fun e => Q2R (snd e) - M)).
  intro Hnil. assert (Hr : In ((t, c), v) (row_entries t es))
    by (apply in_row_entries; now split).
  rewrite Hnil in Hr. contradiction.
Qed.

(** The weights of the specified entries of a row add up to one. *)
Lemma soft_weight_total (t : nat) (es : list ((nat * nat) * Q)) :
  row_entries t es <> [] ->
  rsum (map (fun e => soft_weight t es (snd e)) (row_entries t es)) = 1.
Proof.
  intros Hne. unfold soft_weight.
  set (M := rmax_list (row_vals t es)).
  rewrite (rsum_map_div (fun e => exp (Q2R (snd e) - M))).
  replace (map (fun x => exp (x - M)) (row_vals t es))
    with (map (fun e : (nat * nat) * Q => exp (Q2R (snd e) - M)) (row_entries t es))
    by (unfold row_vals; now rewrite map_map).
  apply Rdiv_diag. apply Rgt_not_eq.
  apply (rsum_exp_pos (fun e => Q2R (snd e) - M)). exact Hne.
Qed.

Lemma rsum_point (f : nat -> R) (x : R) (c0 b n : nat) :
  (b <= c0 < b + n)%nat -> f c0 = 0 ->
  rsum (map (fun c => if (c =? c0)%nat then x else f c) (seq b n))
  = x + rsum (map f (seq b n)).
Proof.
  revert b. induction n as [|n IH]; intros b Hr Hf; [lia|].
  simpl. destruct (Nat.eqb_spec b c0) as [->|Hne].
  - rewrite Hf.
    rewrite (map_ext_in _ f); [ring|].
    intros c Hc. apply in_seq in Hc.
    destruct (Nat.eqb_spec c c0); [lia | reflexivity].
  - rewrite IH by (try lia; assumption). ring.
Qed.

Lemma row_sum_lookup (t ncols : nat) (l : list ((nat * nat) * R)) :
  NoDup (keys l) ->
  (forall c, In (t, c) (keys l) -> (c < ncols)%nat) ->
  rsum (map (fun c => or_zero (lookup (t, c) l)) (seq 0 ncols))
  = rsum (map snd (row_entries t l)).
Proof.
  induction l as [|[[r c0] x] l IH]; intros Hnd Hrange.
  - simpl. induction (seq 0 ncols); simpl; [reflexivity | lra].
  - simpl in Hnd. inversion Hnd as [|? ? Hnotin Hnd']; subst.
    assert (Hrange' : forall c, In (t, c) (keys l) -> (c < ncols)%nat)
      by (intros c Hc; apply Hrange; now right).
    specialize (IH Hnd' Hrange').
    cbn [row_entries filter fst]. fold (row_entries t l).
    destruct (Nat.eqb_spec r t) as [->|Hne].
    + cbn [map snd rsum fold_right]. fold (rsum (map snd (row_entries t l))).
      rewrite <- IH.
      rewrite <- (rsum_point (fun c => or_zero (lookup (t, c) l)) x (c0 := c0)).
      * f_equal. apply map_ext. intros c. cbn [lookup].
        unfold key_eqb. cbn [fst snd]. rewrite Nat.eqb_refl. cbn [andb].
        now destruct (c =? c0)%nat.
      * split; [lia|]. apply (Hrange c0). now left.
      * apply lookup_none in Hnotin. now rewrite Hnotin.
    + rewrite <- IH. f_equal. apply map_ext. intros c. cbn [lookup].
      unfold key_eqb. cbn [fst snd].
      destruct (Nat.eqb_spec t r) as [->|_]; [congruence | reflexivity].
Qed.

Lemma row_entries_map {V W : Type} (F : (nat * nat) * V -> W) (t : nat)
  (l : list ((nat * nat) * V)) :
  row_entries t (map (fun e => (fst e, F e)) l)
  = map (fun e => (fst e, F e)) (row_entries t l).
Proof.
  unfold row_entries. induction l as [|e l IH]; simpl; [reflexivity|].
  destruct (fst (fst e) =? t)%nat; simpl; now rewrite IH.
Qed.

Lemma softmax_keys (s : sparse) :
  keys (rs_entries (sparse_softmax s)) = keys (coalesce (s_entries s)).
Proof.
  unfold sparse_softmax, keys. cbn [rs_entries]. rewrite map_map.
  apply map_ext. reflexivity.
Qed.

(** A row that has a specified entry sums to one. *)
Lemma softmax_row_sum (s : sparse) (t : nat) :
  row_entries t (coalesce (s_entries s)) <> [] ->
  (forall c, In (t, c) (keys (s_entries s)) -> (c < s_ncols s)%nat) ->
  rsum (map (fun c => or_zero (lookup (t, c) (rs_entries (sparse_softmax s))))
          (seq 0 (s_ncols s))) = 1.
Proof.
  intros Hne Hrange.
  rewrite row_sum_lookup.
  - unfold sparse_softmax. cbn [rs_entries].
    rewrite (row_entries_map
               (fun e => soft_weight (fst (fst e)) (coalesce (s_entries s)) (snd e))).
    rewrite map_map. cbn [snd].
    rewrite (map_ext_in _ (fun e => soft_weight t (coalesce (s_entries s)) (snd e))).
    + now apply soft_weight_total.
    + intros e He. apply in_row_entries in He. now rewrite (proj2 He).
  - rewrite softmax_keys. apply coalesce_nodup.
  - intros c Hc. apply Hrange. rewrite softmax_keys in Hc.
    exact (proj1 (coalesce_keys _ _) Hc).
Qed.

Lemma rsum_nonzero (l : list R) : rsum (filter nonzero l) = rsum l.
Proof.
  induction l as [|a l IH]; simpl; [reflexivity|].
  unfold nonzero at 1. destruct (Req_dec_T a 0) as [->|Hne]; simpl; rewrite IH; ring.
Qed.

End Dense.

(** ** [TopKTiledSoftmax.forward] on a valid call *)

Lemma is_topk_indices (xs : list Q) (kn : nat) (r : list (Q * nat)) :
  Torch.is_topk xs kn r -> topk_indices xs kn (map snd r).
Proof.
  intros (Hlen & Hnd & Hval & Hdom). unfold topk_indices.
  split; [now rewrite length_map|]. split; [exact Hnd|]. split.
  - intros g Hg. apply in_map_iff in Hg. destruct Hg as [[v g'] [<- Hin]].
    apply (Hval _ _ Hin).
  - intros g j Hg Hj Hnot.
    apply in_map_iff in Hg. destruct Hg as [[v g'] [<- Hin]]. simpl.
    destruct (Hval _ _ Hin) as [_ ->].
    apply Hdom; [|assumption|assumption].
    apply in_map_iff. now exists (v, g').
Qed.

Section ValidCall.
Import Torch.
Context `{TopKOp}.

Variables (proj_weight : tensor) (k tile_factor : Z) (m : TopKTiledSoftmax.t).
Variables (input : tensor) (target : list nat).

Hypothesis Hinit : TopKTiledSoftmax.init proj_weight k tile_factor = Ok m.
Hypothesis Hvalid : valid_call proj_weight input target.
Hypothesis Hk : (0 <= k)%Z.
Hypothesis Hwide :
  Forall (fun fc => (k <= Z.of_nat (t_nrows fc))%Z) (TopKTiledSoftmax.fcs m).

Local Abbreviation call_sparse := (pre_softmax proj_weight k m input target).
Local Abbreviation call_selected := (selected k m input).

Lemma forward_ok :
  TopKTiledSoftmax.forward m input target
  = Ok (PyTensor (to_dense (sparse_softmax call_sparse))).
Proof.
  unfold TopKTiledSoftmax.forward.
  rewrite (@forward_sparse_spec _ proj_weight k tile_factor m input target
             Hinit Hvalid Hk Hwide). reflexivity.
Qed.

Lemma tiles_ok (r : list Q) :
  tiles_of (TopKTiledSoftmax.fcs m) r <> [] /\
  Forall (fun tl => (Z.to_nat k <= length tl)%nat)
         (tiles_of (TopKTiledSoftmax.fcs m) r).
Proof.
  destruct (init_ok _ _ _ Hinit) as (_ & _ & _ & _ & _ & Hne & _ & _).
  unfold tiles_of. split.
  - destruct (TopKTiledSoftmax.fcs m); [congruence | discriminate].
  - rewrite Forall_forall in *. intros tl Htl.
    apply in_map_iff in Htl. destruct Htl as [fc [<- Hfc]].
    rewrite length_map. specialize (Hwide _ Hfc). unfold t_nrows in Hwide. lia.
Qed.

Lemma selected_topk (t : nat) :
  is_topk (logits_row proj_weight (nth t (t_rows input) [])) (Z.to_nat k)
          (call_selected t).
Proof.
  destruct (init_ok _ _ _ Hinit) as (_ & _ & _ & _ & _ & _ & Hcat & _).
  rewrite <- (tiles_of_concat _ _ _ Hcat).
  unfold selected. apply select_is_topk; apply tiles_ok.
Qed.

Lemma pre_softmax_keys (t c : nat) :
  In (t, c) (keys (s_entries call_sparse)) <->
  (t < t_nrows input)%nat /\
  (In c (map snd (call_selected t)) \/ c = nth t target 0%nat).
Proof.
  unfold pre_softmax, keys. cbn [s_entries].
  rewrite map_app, in_app_iff. split.
  - intros [Hin|Hin]; apply in_map_iff in Hin;
      destruct Hin as [[[t' c'] v] [Heq Hin]];
      simpl in Heq; inversion Heq; subst.
    + apply (proj1 (in_topk_entries _ _ _ _ _ _)) in Hin.
      destruct Hin as [Ht Hin].
      split; [exact Ht|]. left. apply in_map_iff. now exists (v, c).
    + apply (proj1 (in_target_entries _ _ _ _ _ _ (v_target_len Hvalid))) in Hin.
      destruct Hin as (Ht & Hc & _). split; [exact Ht | now right].
  - intros [Ht [Hc|Hc]].
    + apply in_map_iff in Hc. destruct Hc as [[v c'] [Heq Hin]].
      simpl in Heq. subst c'.
      left. apply in_map_iff. exists ((t, c), v). split; [reflexivity|].
      apply in_topk_entries. now split.
    + right. apply in_map_iff.
      exists ((t, c), nth c (logits_row proj_weight (nth t (t_rows input) [])) 0%Q).
      split; [reflexivity|].
      apply in_target_entries; [apply Hvalid | now repeat split].
Qed.

Lemma pre_softmax_range (t c : nat) :
  In (t, c) (keys (s_entries call_sparse)) -> (c < t_nrows proj_weight)%nat.
Proof.
  intros Hin. apply pre_softmax_keys in Hin. destruct Hin as [Ht [Hc|Hc]].
  - apply in_map_iff in Hc. destruct Hc as [[v c'] [Heq Hin]].
    simpl in Heq. subst c'.
    destruct (selected_topk t) as (_ & _ & Hval & _).
    destruct (Hval _ _ Hin) as [Hlt _].
    unfold logits_row in Hlt. now rewrite length_map in Hlt.
  - subst c. destruct Hvalid as [_ _ _ _ Hlen Hrange].
    rewrite Forall_forall in Hrange. apply Hrange, nth_In. lia.
Qed.

(** The dense output, entry by entry. *)
Lemma forward_entry (t c : nat) :
  (t < t_nrows input)%nat -> (c < t_nrows proj_weight)%nat ->
  (In (t, c) (keys (s_entries call_sparse)) ->
   (0 < entry (to_dense (sparse_softmax call_sparse)) t c)%R) /\
  (~ In (t, c) (keys (s_entries call_sparse)) ->
   entry (to_dense (sparse_softmax call_sparse)) t c = 0%R).
Proof.
  intros Ht Hc.
  rewrite dense_entry by assumption. rewrite softmax_lookup.
  destruct (lookup (t, c) (coalesce (s_entries call_sparse))) as [v|] eqn:E.
  - split.
    + intros _. simpl. apply soft_weight_pos with (c := c). now apply lookup_in.
    + intros Hnot. exfalso.
      apply Hnot, coalesce_keys. apply lookup_in in E.
      apply in_map_iff. now exists ((t, c), v).
  - split; [|reflexivity].
    intros Hin. exfalso. apply lookup_none in E. apply E.
    now apply coalesce_keys.
Qed.

Lemma forward_row_sum (t : nat) :
  (t < t_nrows input)%nat ->
  rsum (nth t (r_rows (to_dense (sparse_softmax call_sparse))) []) = 1%R.
Proof.
  intros Ht. unfold to_dense. cbn [r_rows].
  rewrite nth_map_seq by exact Ht.
  apply (softmax_row_sum call_sparse).
  - assert (Hkey : In (t, nth t target 0%nat)
                      (keys (coalesce (s_entries call_sparse)))).
    { apply coalesce_keys, pre_softmax_keys. split; [exact Ht | now right]. }
    apply in_map_iff in Hkey. destruct Hkey as [e [Hf He]].
    intro Hnil.
    assert (Hr : In e (row_entries t (coalesce (s_entries call_sparse))))
      by (apply in_row_entries; split; [exact He | now rewrite Hf]).
    rewrite Hnil in Hr. contradiction.
  - intros c Hc. now apply pre_softmax_range with (t := t).
Qed.

(** When the label of token [t] is one of its selected indices, the value
    stored at (t, label) once the sparse tensor is coalesced is the label's
    logit plus itself. *)
Lemma label_stored_twice (t : nat) :
  (t < t_nrows input)%nat ->
  In (nth t target 0%nat) (map snd (call_selected t)) ->
  exists v,
    lookup (t, nth t target 0%nat) (coalesce (s_entries call_sparse)) = Some v /\
    (v == nth (nth t target 0%nat)
              (logits_row proj_weight (nth t (t_rows input) [])) 0
          + nth (nth t target 0%nat)
                (logits_row proj_weight (nth t (t_rows input) [])) 0)%Q.
Proof.
  intros Ht Hsel.
  set (lab := nth t target 0%nat) in *.
  set (logit := nth lab (logits_row proj_weight (nth t (t_rows input) [])) 0%Q).
  destruct (lookup (t, lab) (coalesce (s_entries call_sparse))) as [v|] eqn:E.
  - exists v. split; [reflexivity|].
    rewrite (lookup_coalesce _ _ E).
    unfold pre_softmax. cbn [s_entries]. rewrite sum_at_app.
    apply in_map_iff in Hsel. destruct Hsel as [[v0 c0] [Hc Hin]].
    simpl in Hc. subst c0.
    assert (Hv0 : v0 = logit).
    { destruct (selected_topk t) as (_ & _ & Hval & _).
      now destruct (Hval _ _ Hin) as [_ <-]. }
    subst v0.
    rewrite (@sum_at_unique (t, lab) logit (topk_entries _ _ _)).
    + rewrite (@sum_at_unique (t, lab) logit (target_entries _ _ _));
        [reflexivity | |].
      * apply target_entries_nodup.
      * apply in_target_entries; [apply Hvalid | now repeat split].
    + apply topk_entries_nodup. intros r.
      destruct (select_is_topk (proj1 (tiles_ok r)) (proj2 (tiles_ok r)))
        as (_ & Hnd & _). exact Hnd.
    + apply in_topk_entries. now split.
  - exfalso. apply lookup_none in E. apply E.
    apply coalesce_keys, pre_softmax_keys. split; [exact Ht | now right].
Qed.

End ValidCall.

(** * The claims *)

Section TopKTiledClaims.
Import Torch.
Context `{TopKOp}.


(** C6.  On a valid call with [0 < k <= width] of every tile, the nonzero
    entries of every row of the output of [TopKTiledSoftmax.forward] add up
    to one. *)
Theorem topk_tiled_row_sum
  (proj_weight : tensor) (k tile_factor : Z) (m : TopKTiledSoftmax.t)
  (input : tensor) (target : list nat) :
  TopKTiledSoftmax.init proj_weight k tile_factor = Ok m ->
  valid_call proj_weight input target ->
  (0 < k)%Z ->
  Forall (fun fc => (k <= Z.of_nat (t_nrows fc))%Z) (TopKTiledSoftmax.fcs m) ->
  exists out,
    TopKTiledSoftmax.forward m input target = Ok (PyTensor out) /\
    forall t, (t < t_nrows input)%nat ->
      rsum (filter nonzero (nth t (r_rows out) [])) = 1%R.
Proof.
  intros Hinit Hvalid Hk Hwide.
  assert (Hk0 : (0 <= k)%Z) by lia.
  exists (to_dense (sparse_softmax (pre_softmax proj_weight k m input target))).
  split; [exact (forward_ok tile_factor Hinit Hvalid Hk0 Hwide)|].
  intros t Ht. rewrite rsum_nonzero.
  exact (forward_row_sum tile_factor Hinit Hvalid Hwide Ht).
Qed.

End TopKTiledClaims.

(** ** Where [TopKTiledSoftmax.forward] fails and what it returns *)

Section ForwardOutcome.
Import Torch.
Context `{TopKOp}.

Lemma tile_loop_topk_err (fcs : list tensor) (input : tensor) (k : Z) (base : nat) :
  Forall (fun fc => t_dtype fc = t_dtype input /\ t_ncols fc = t_ncols input) fcs ->
  fcs <> [] ->
  (k < 0)%Z \/ Exists (fun fc => (Z.of_nat (t_nrows fc) < k)%Z) fcs ->
  TopKTiledSoftmax.tile_loop fcs input k base = Err (RuntimeError TopkOutOfRange).
Proof.
  revert base. induction fcs as [|fc rest IH]; intros base Hall Hne Hbad;
    [congruence|].
  inversion Hall as [|? ? [Hd Hc] Hrest]; subst.
  simpl. rewrite (linear_ok _ _ Hd Hc). cbn [bind].
  unfold topk at 1. cbn [t_ncols].
  destruct ((k <? 0)%Z || (Z.of_nat (t_nrows fc) <? k)%Z)%bool eqn:E;
    [reflexivity|].
  apply orb_false_iff in E. destruct E as [E1 E2].
  apply Z.ltb_ge in E1, E2. cbn [bind].
  rewrite IH; [reflexivity | exact Hrest | |].
  - destruct Hbad as [Hneg|Hex]; [lia|].
    inversion Hex; subst; [lia|]. intro Hnil. subst rest.
    match goal with Hx : Exists _ [] |- _ => inversion Hx end.
  - destruct Hbad as [Hneg|Hex]; [lia|].
    inversion Hex; subst; [lia | now right].
Qed.

Lemma tile_loop_dtype (fcs : list tensor) (input : tensor) (k : Z) (base : nat)
  (vals : list tensor) (idxs : list itensor) (d : dtype) :
  Forall (fun fc => t_dtype fc = d) fcs ->
  TopKTiledSoftmax.tile_loop fcs input k base = Ok (vals, idxs) ->
  Forall (fun v => t_dtype v = d) vals.
Proof.
  revert base vals idxs. induction fcs as [|fc rest IH];
    intros base vals idxs Hall Hloop; simpl in Hloop.
  - inversion Hloop. constructor.
  - inversion Hall as [|? ? Hd Hrest]; subst.
    unfold linear in Hloop.
    destruct (dtype_eqb (t_dtype input) (t_dtype fc)) eqn:Ed;
      cbn [negb bind] in Hloop; [|discriminate].
    destruct (negb (t_ncols input =? t_ncols fc)%nat);
      cbn [bind] in Hloop; [discriminate|].
    unfold topk in Hloop at 1. cbn [t_ncols t_dtype t_rows] in Hloop.
    destruct ((k <? 0)%Z || (Z.of_nat (t_nrows fc) <? k)%Z)%bool;
      cbn [bind] in Hloop; [discriminate|].
    destruct (TopKTiledSoftmax.tile_loop rest input k (base + t_nrows fc))
      as [[vals' idxs']|e] eqn:El; cbn [bind] in Hloop; [|discriminate].
    inversion Hloop; subst. constructor.
    + cbn [t_dtype]. now apply dtype_eqb_eq in Ed.
    + exact (IH _ _ _ Hrest El).
Qed.

Lemma forward_sparse_dtype (proj_weight : tensor) (k tile_factor : Z)
  (m : TopKTiledSoftmax.t) (input : tensor) (target : list nat) (s : sparse) :
  TopKTiledSoftmax.init proj_weight k tile_factor = Ok m ->
  TopKTiledSoftmax.forward_sparse m input target = Ok s ->
  s_dtype s = Float32.
Proof.
  intros Hinit Hfw.
  destruct (init_ok _ _ _ Hinit)
    as (_ & _ & _ & Hfp & Hdok & _ & _ & Hfcs).
  unfold TopKTiledSoftmax.forward_sparse in Hfw.
  destruct (if TopKTiledSoftmax.fp16 m
            then py_assert (dtype_eqb (t_dtype input) Float16) else Ok tt);
    cbn [bind] in Hfw; [|discriminate].
  destruct (TopKTiledSoftmax.tile_loop (TopKTiledSoftmax.fcs m) input
              (TopKTiledSoftmax.k m) 0) as [[vals idxs]|e] eqn:El;
    cbn [bind] in Hfw; [|discriminate].
  assert (Hvd : Forall (fun v => t_dtype v = t_dtype proj_weight) vals).
  { eapply tile_loop_dtype; [|exact El].
    eapply Forall_impl; [|exact Hfcs]. intros fc Hfc. apply Hfc. }
  destruct vals as [|v0 vals']; cbn [cat bind] in Hfw; [discriminate|].
  destruct (icat idxs) as [idx|e]; cbn [bind] in Hfw; [|discriminate].
  unfold topk in Hfw at 1. cbn [t_ncols t_dtype t_rows] in Hfw.
  match type of Hfw with
  | context [if ?x then Err _ else _] => destruct x
  end; cbn [bind] in Hfw; [discriminate|].
  match type of Hfw with
  | context [gather ?x ?y] => destruct (gather x y) as [w|e]
  end; cbn [bind] in Hfw; [|discriminate].
  match type of Hfw with
  | context [mul_sum_dim1 ?x ?y] => destruct (mul_sum_dim1 x y) as [[dt val]|e]
  end; cbn [bind] in Hfw; [|discriminate].
  unfold sparse_add, sparse_coo_tensor in Hfw.
  cbn [s_dtype s_nrows s_ncols s_entries] in Hfw.
  match type of Hfw with
  | context [if negb (dtype_eqb ?x ?y) then _ else _] =>
      destruct (negb (dtype_eqb x y))
  end; cbn [bind] in Hfw; [discriminate|].
  match type of Hfw with
  | context [if negb (?x && ?y) then _ else _] => destruct (negb (x && y))
  end; cbn [bind] in Hfw; [discriminate|].
  inversion Hfw as [Hs]. clear Hfw Hs.
  inversion Hvd as [|? ? Hv0 _]; subst.
  rewrite Hfp.
  destruct (dtype_eqb (t_dtype proj_weight) Float16) eqn:E; [reflexivity|].
  cbn [s_dtype]. rewrite Hv0. now apply fp32_when_not_fp16.
Qed.

(** C8.  Whatever the call, a tensor returned by
    [TopKTiledSoftmax.forward] has element type float32, also when the
    weight and the activation are float16 (the tiles are then projected in
    float16 and the sparse tensor is cast before the softmax). *)
Theorem topk_tiled_output_dtype
  (proj_weight : tensor) (k tile_factor : Z) (m : TopKTiledSoftmax.t)
  (input : tensor) (target : list nat) (v : pyval) :
  TopKTiledSoftmax.init proj_weight k tile_factor = Ok m ->
  TopKTiledSoftmax.forward m input target = Ok v ->
  exists out, v = PyTensor out /\ r_dtype out = Float32.
Proof.
  intros Hinit Hfw. unfold TopKTiledSoftmax.forward in Hfw.
  destruct (TopKTiledSoftmax.forward_sparse m input target) as [s|e] eqn:Es;
    cbn [bind] in Hfw; [|discriminate].
  inversion Hfw. eexists. split; [reflexivity|].
  unfold to_dense, sparse_softmax. cbn [r_dtype rs_dtype].
  exact (@forward_sparse_dtype proj_weight k tile_factor m input target s Hinit Es).
Qed.

(** C7, as the code has it.  The constructor never looks at [k]: it
    succeeds for every [k] as soon as it succeeds for one.  On an otherwise
    valid call [forward] fails when [k] is negative or larger than the width
    of some tile, with the [RuntimeError] of [torch.topk] (selected index k
    out of range); there is no dedicated error.  When [0 <= k <= width] of
    every tile, [k = 0] included, [forward] succeeds. *)
Theorem topk_tiled_bad_k
  (proj_weight : tensor) (k tile_factor : Z) (m : TopKTiledSoftmax.t)
  (input : tensor) (target : list nat) :
  TopKTiledSoftmax.init proj_weight k tile_factor = Ok m ->
  valid_call proj_weight input target ->
  (forall k', exists m',
      TopKTiledSoftmax.init proj_weight k' tile_factor = Ok m') /\
  ((k < 0)%Z \/
   Exists (fun fc => (Z.of_nat (t_nrows fc) < k)%Z) (TopKTiledSoftmax.fcs m) ->
   TopKTiledSoftmax.forward m input target
   = Err (RuntimeError TopkOutOfRange)) /\
  ((0 <= k)%Z /\
   Forall (fun fc => (k <= Z.of_nat (t_nrows fc))%Z) (TopKTiledSoftmax.fcs m) ->
   exists out, TopKTiledSoftmax.forward m input target = Ok (PyTensor out)).
Proof.
  intros Hinit Hvalid. split; [|split].
  - intros k'. eexists. exact (init_any_k _ _ k' _ Hinit).
  - intros Hbad.
    destruct (init_ok _ _ _ Hinit)
      as (_ & Hkk & _ & Hfp & _ & Hne & _ & Hfcs).
    destruct Hvalid as [_ _ Hdt Hnc _ _].
    unfold TopKTiledSoftmax.forward, TopKTiledSoftmax.forward_sparse.
    rewrite Hfp, Hkk, Hdt.
    destruct (dtype_eqb (t_dtype proj_weight) Float16) eqn:E;
      cbn [py_assert bind].
    + rewrite tile_loop_topk_err; [reflexivity | | exact Hne | exact Hbad].
      eapply Forall_impl; [|exact Hfcs]. intros a [Ha1 Ha2]. split; congruence.
    + rewrite tile_loop_topk_err; [reflexivity | | exact Hne | exact Hbad].
      eapply Forall_impl; [|exact Hfcs]. intros a [Ha1 Ha2]. split; congruence.
  - intros [Hk Hwide]. eexists.
    exact (forward_ok tile_factor Hinit Hvalid Hk Hwide).
Qed.

End ForwardOutcome.

(** ** The baseline kernels *)

Section Baselines.
Import Torch.

Local Open Scope R_scope.

Lemma rsum_map_mul {A : Type} (f : A -> R) (c : R) (l : list A) :
  rsum (map (fun x => f x * c) l) = rsum (map f l) * c.
Proof. induction l as [|a l IH]; simpl; [ring | rewrite IH; ring]. Qed.

(** Shifting the exponents by a constant does not change the quotient. *)
Lemma shift_invariance {A : Type} (f : A -> R) (m : R) (l : list A) (a : A) :
  In a l ->
  exp (f a - m) / rsum (map (fun x => exp (f x - m)) l)
  = exp (f a) / rsum (map (fun x => exp (f x)) l).
Proof.
  intros Hin.
  assert (Hne : l <> []) by (intro Hn; subst; contradiction).
  pose proof (rsum_exp_pos f Hne) as Hpos.
  pose proof (exp_pos (- m)) as Hem.
  rewrite (map_ext (fun x => exp (f x - m)) (fun x => exp (f x) * exp (- m)))
    by (intros x; unfold Rminus; apply exp_plus).
  rewrite rsum_map_mul.
  unfold Rminus. rewrite exp_plus. field. split; lra.
Qed.

Lemma softmax_row_spec (xs : list Q) : softmax_row xs = softmax_spec xs.
Proof.
  unfold softmax_row, softmax_spec. rewrite !map_map.
  apply map_ext_in. intros a Ha.
  exact (shift_invariance Q2R _ xs a Ha).
Qed.


Lemma baseline_forward_spec (proj_weight : tensor) (k : Z)
  (self : BaselineSoftmax.t) (input : tensor) (target : list nat) :
  BaselineSoftmax.init proj_weight k = Ok self ->
  t_dtype input = t_dtype proj_weight ->
  t_ncols input = t_ncols proj_weight ->
  BaselineSoftmax.forward self input target
  = Ok (PyTensor (dense_softmax proj_weight input)).
Proof.
  unfold BaselineSoftmax.init. intros Hinit Hd Hc.
  destruct (is_fp16_or_fp32 (t_dtype proj_weight)) eqn:Hok;
    cbn [py_assert bind] in Hinit; [|discriminate].
  inversion Hinit. subst self. clear Hinit.
  unfold BaselineSoftmax.forward. cbn [BaselineSoftmax.fp16 BaselineSoftmax.fc].
  rewrite (linear_ok _ _ (eq_sym Hd) (eq_sym Hc)), Hd.
  unfold dense_softmax, softmax.
  destruct (dtype_eqb (t_dtype proj_weight) Float16) eqn:E;
    cbn [py_assert bind t_dtype t_ncols t_rows float r_dtype dtype_eqb].
  - rewrite E. cbn [py_assert bind t_dtype t_ncols t_rows float r_dtype dtype_eqb].
    do 3 f_equal. rewrite map_map. apply map_ext. intros r.
    apply softmax_row_spec.
  - rewrite (fp32_when_not_fp16 _ Hok E).
    cbn [py_assert bind dtype_eqb].
    do 3 f_equal. rewrite map_map. apply map_ext. intros r.
    apply softmax_row_spec.
Qed.


Lemma tiled_loop_spec (self : TiledSoftmax.t) (proj_weight : tensor)
  (tiles : list tensor) :
  TiledSoftmax.fc self = proj_weight ->
  TiledSoftmax.fp16 self = dtype_eqb (t_dtype proj_weight) Float16 ->
  is_fp16_or_fp32 (t_dtype proj_weight) = true ->
  Forall (fun i => t_dtype i = t_dtype proj_weight /\
                   t_ncols i = t_ncols proj_weight) tiles ->
  TiledSoftmax.tile_loop self tiles
  = Ok (map (dense_softmax proj_weight) tiles).
Proof.
  intros Hfc Hfp Hok. induction 1 as [|i rest [Hd Hc] _ IH]; [reflexivity|].
  simpl. rewrite Hfc, Hfp.
  rewrite (linear_ok _ _ (eq_sym Hd) (eq_sym Hc)), Hd.
  assert (Hrows :
            map softmax_row (map (fun r => map (dot r) (t_rows proj_weight)) (t_rows i))
            = map (fun r => softmax_spec (logits_row proj_weight r)) (t_rows i)).
  { rewrite map_map. apply map_ext. intros r. apply softmax_row_spec. }
  unfold softmax.
  destruct (dtype_eqb (t_dtype proj_weight) Float16) eqn:E;
    cbn [py_assert bind t_dtype t_ncols t_rows float r_dtype dtype_eqb].
  - rewrite E. cbn [py_assert bind t_dtype t_ncols t_rows float r_dtype dtype_eqb].
    rewrite IH. cbn [bind].
    unfold dense_softmax at 2. now rewrite Hrows.
  - rewrite (fp32_when_not_fp16 _ Hok E). cbn [py_assert bind dtype_eqb].
    rewrite IH. cbn [bind].
    unfold dense_softmax at 2. now rewrite Hrows.
Qed.

(** [TiledSoftmax.forward] hands back the list of the tiles' distributions. *)
Lemma tiled_forward_spec (proj_weight : tensor) (k tile_factor : Z)
  (self : TiledSoftmax.t) (input : tensor) (target : list nat) :
  TiledSoftmax.init proj_weight k tile_factor = Ok self ->
  t_dtype input = t_dtype proj_weight ->
  t_ncols input = t_ncols proj_weight ->
  (0 < tile_factor <= Z.of_nat (t_nrows input))%Z ->
  exists tiles,
    split input (Z.of_nat (t_nrows input) / tile_factor) = Ok tiles /\
    TiledSoftmax.forward self input target
    = Ok (PyList (map (dense_softmax proj_weight) tiles)).
Proof.
  unfold TiledSoftmax.init. intros Hinit Hd Hc Htf.
  destruct (is_fp16_or_fp32 (t_dtype proj_weight)) eqn:Hok;
    cbn [py_assert bind] in Hinit; [|discriminate].
  inversion Hinit. subst self. clear Hinit.
  assert (Hs : (0 < Z.of_nat (t_nrows input) / tile_factor)%Z)
    by (apply Z.div_str_pos; lia).
  destruct (split input (Z.of_nat (t_nrows input) / tile_factor))
    as [tiles|e] eqn:Es.
  - exists tiles. split; [reflexivity|].
    unfold TiledSoftmax.forward.
    cbn [TiledSoftmax.fp16 TiledSoftmax.tile_factor].
    rewrite Hd.
    assert (Hassert :
              (if dtype_eqb (t_dtype proj_weight) Float16
               then py_assert (dtype_eqb (t_dtype proj_weight) Float16)
               else Ok tt) = Ok tt)
      by (destruct (dtype_eqb (t_dtype proj_weight) Float16) eqn:E; reflexivity).
    rewrite Hassert. cbn [bind]. unfold floordiv.
    replace (tile_factor =? 0)%Z with false by (symmetry; apply Z.eqb_neq; lia).
    cbn [bind]. rewrite Es. cbn [bind].
    rewrite (tiled_loop_spec _ (proj_weight := proj_weight));
      [reflexivity | reflexivity | reflexivity | exact Hok |].
    apply split_ok in Es. destruct Es as (_ & _ & Hall).
    eapply Forall_impl; [|exact Hall]. intros a [Ha1 Ha2]. split; congruence.
  - exfalso. unfold split, split_rows in Es.
    replace (Z.of_nat (t_nrows input) / tile_factor <? 0)%Z with false in Es
      by (symmetry; apply Z.ltb_ge; lia).
    replace (Z.of_nat (t_nrows input) / tile_factor =? 0)%Z with false in Es
      by (symmetry; apply Z.eqb_neq; lia).
    destruct (t_rows input); discriminate.
Qed.


End Baselines.

(** ** The entries of the output in closed form *)

Section EntryValue.
Import Torch.

Local Open Scope R_scope.

Lemma soft_weight_spec (t c : nat) (es : list ((nat * nat) * Q)) (v : Q) :
  In ((t, c), v) es ->
  soft_weight t es v
  = exp (Q2R v) / rsum (map (fun e => exp (Q2R (snd e))) (row_entries t es)).
Proof.
  intros Hin. unfold soft_weight.
  set (M := rmax_list (row_vals t es)).
  replace (map (fun x => exp (x - M)) (row_vals t es))
    with (map (fun e : (nat * nat) * Q => exp (Q2R (snd e) - M)) (row_entries t es))
    by (unfold row_vals; now rewrite map_map).
  apply (shift_invariance (fun e : (nat * nat) * Q => Q2R (snd e)) M
           (row_entries t es) ((t, c), v)).
  apply in_row_entries. now split.
Qed.

Lemma softmax_entry (s : sparse) (t c : nat) (v : Q) :
  (t < s_nrows s)%nat -> (c < s_ncols s)%nat ->
  lookup (t, c) (coalesce (s_entries s)) = Some v ->
  entry (to_dense (sparse_softmax s)) t c
  = exp (Q2R v)
    / rsum (map (fun e => exp (Q2R (snd e)))
              (row_entries t (coalesce (s_entries s)))).
Proof.
  intros Ht Hc Hl.
  rewrite dense_entry by assumption.
  rewrite softmax_lookup, Hl. simpl.
  apply soft_weight_spec with (c := c). now apply lookup_in.
Qed.

Lemma ratio_lt (a x y : R) :
  0 < a -> 0 < x -> x < y -> a / (a + (y + 0)) < a / (a + (x + 0)).
Proof.
  intros Ha Hx Hxy. unfold Rdiv.
  apply Rmult_lt_compat_l; [exact Ha|].
  apply Rinv_lt_contravar; [|lra].
  apply Rmult_lt_0_compat; lra.
Qed.

End EntryValue.

(** ** The SSD tensor handle *)

Section SsdRoundTrip.
Import SsdOffload.

Lemma file_lookup_update (path : String.string) (c : list Byte.byte)
  (fs : list (String.string * list Byte.byte)) :
  file_lookup path fs <> None ->
  file_lookup path (file_update path c fs) = Some c.
Proof.
  induction fs as [|[p c'] fs IH]; simpl; [congruence|].
  destruct (String.eqb path p) eqn:E; simpl; rewrite E; [reflexivity | exact IH].
Qed.

Lemma read_write_at (offset : nat) (bs content : list Byte.byte) :
  read_at offset (length bs) (write_at offset bs content) = Some bs.
Proof.
  unfold read_at, write_at.
  assert (Hpre : length (firstn offset content
                         ++ repeat Byte.x00 (offset - length content)) = offset).
  { rewrite length_app, length_firstn, repeat_length. lia. }
  rewrite app_assoc.
  replace (offset + length bs <=? _)%nat with true.
  - f_equal. rewrite skipn_app, Hpre, Nat.sub_diag.
    rewrite skipn_all2 by lia. simpl.
    rewrite firstn_app, Nat.sub_diag, firstn_all. simpl. now rewrite app_nil_r.
  - symmetry. apply Nat.leb_le. rewrite length_app, Hpre, length_app. lia.
Qed.

(** C4.  A value held by a handle that is bound to an existing file,
    written with [to_file(release_tensor_after_write=True)] and read back
    from the file, is recovered byte for byte. *)
Theorem ssd_round_trip (h : SsdTensorHandle) (w : world)
  (v : list Byte.byte) (path : String.string) (offset : nat) :
  file_params h = Some (path, offset) ->
  file_lookup path (files w) <> None ->
  read_as_value h w = OOk v ->
  length v = nbytes h ->
  persist_then_read h w = OOk v.
Proof.
  intros Hfp Hfile Hread Hlen.
  unfold persist_then_read, persist_to_file. rewrite Hfp.
  destruct (state h) eqn:Hst.
  - rewrite Hread. cbn [obind].
    destruct (file_lookup path (files w)) as [content|] eqn:Hl; [|congruence].
    cbn [obind fst snd].
    unfold materialize_from_file. cbn [file_params files].
    rewrite file_lookup_update by (rewrite Hl; discriminate).
    unfold nbytes in *. cbn [shape h_dtype]. rewrite <- Hlen, read_write_at.
    reflexivity.
  - unfold read_as_value in Hread. rewrite Hst in Hread. discriminate.
  - rewrite Hread. cbn [obind].
    destruct (file_lookup path (files w)) as [content|] eqn:Hl; [|congruence].
    cbn [obind fst snd].
    unfold materialize_from_file. cbn [file_params files].
    rewrite file_lookup_update by (rewrite Hl; discriminate).
    unfold nbytes in *. cbn [shape h_dtype]. rewrite <- Hlen, read_write_at.
    reflexivity.
Qed.

End SsdRoundTrip.

(** ** [TopKFaissSoftmax] *)

(** C10.  [TopKFaissSoftmax.forward] does not depend on the labels: two
    calls that differ in the label vector only return the same value, the
    distances computed by [knn_gpu]. *)
Theorem faiss_ignores_target `{TopKFaissSoftmax.KnnOp}
  (res : TopKFaissSoftmax.StandardGpuResources) (self : TopKFaissSoftmax.t)
  (input : tensor) (target1 target2 : list nat) :
  TopKFaissSoftmax.forward res self input target1
  = TopKFaissSoftmax.forward res self input target2 /\
  forall D I_,
    TopKFaissSoftmax.knn_gpu res input (TopKFaissSoftmax.b self)
      (TopKFaissSoftmax.k self) = Ok (D, I_) ->
    TopKFaissSoftmax.forward res self input target1 = Ok D.
Proof.
  split; [reflexivity|].
  intros D I_ Hknn. unfold TopKFaissSoftmax.forward. now rewrite Hknn.
Qed.

(** * The claims on concrete calls *)

Lemma init_a (k : Z) : TopKTiledSoftmax.init W_a k 2 = Ok (m_a k).
Proof. reflexivity. Qed.

Lemma init_b (k : Z) : TopKTiledSoftmax.init W_b k 1 = Ok (m_b k).
Proof. reflexivity. Qed.

Lemma valid_a : valid_call W_a X_a target_a.
Proof.
  constructor; try reflexivity; repeat constructor.
Qed.

Lemma valid_b : valid_call W_b X_b target_b.
Proof.
  constructor; try reflexivity; repeat constructor.
Qed.

Lemma valid_d : valid_call W_b X_d target_d.
Proof.
  constructor; try reflexivity; repeat constructor.
Qed.

Lemma wide_a : Forall (fun fc => (1 <= Z.of_nat (t_nrows fc))%Z)
                      (TopKTiledSoftmax.fcs (m_a 1)).
Proof.
  repeat (apply Forall_cons; [unfold t_nrows; cbn; lia|]). apply Forall_nil.
Qed.


Lemma topk_tiled_row_sum_witness :
  exists out,
    TopKTiledSoftmax.forward (m_a 1) X_a target_a = Ok (PyTensor out) /\
    Torch.rsum (filter nonzero (nth 1 (r_rows out) [])) = 1%R.
Proof.
  destruct (@topk_tiled_row_sum topk_stable_op W_a 1 2 (m_a 1) X_a target_a
              (init_a 1) valid_a ltac:(lia) wide_a) as (out & Hf & Hrows).
  exists out. split; [exact Hf|]. apply Hrows. unfold t_nrows. simpl. lia.
Defined.

Lemma topk_tiled_output_dtype_witness :
  exists out,
    PyTensor (Torch.to_dense (Torch.sparse_softmax (pre_softmax W_a 1 (m_a 1) X_a target_a)))
    = PyTensor out /\ r_dtype out = Float32.
Proof.
  apply (@topk_tiled_output_dtype topk_stable_op W_a 1 2 (m_a 1) X_a target_a _
           (init_a 1)).
  apply (forward_ok 2 (init_a 1) valid_a); [lia | exact wide_a].
Defined.

Lemma topk_tiled_bad_k_witness :
  TopKTiledSoftmax.forward (m_a 3) X_a target_a
  = Err (RuntimeError TopkOutOfRange).
Proof.
  apply (@topk_tiled_bad_k topk_stable_op W_a 3 2 (m_a 3) X_a target_a
           (init_a 3) valid_a).
  right. left. simpl. lia.
Defined.

(** [k] is not validated.  With [k = 0] the precondition [0 < k] is
    violated, yet the module is constructed and [forward] returns a tensor.
    With [k = 3] on tiles of width 2 the module is constructed all the same,
    and [forward] stops on the error of [torch.topk]. *)
Lemma topk_tiled_k_not_validated :
  (~ (0 < 0)%Z /\
   TopKTiledSoftmax.init W_b 0 1 = Ok (m_b 0) /\
   exists out,
     TopKTiledSoftmax.forward (m_b 0) X_b target_b = Ok (PyTensor out)) /\
  (Exists (fun fc => (Z.of_nat (t_nrows fc) < 3)%Z) (TopKTiledSoftmax.fcs (m_a 3)) /\
   TopKTiledSoftmax.init W_a 3 2 = Ok (m_a 3) /\
   TopKTiledSoftmax.forward (m_a 3) X_a target_a
   = Err (RuntimeError TopkOutOfRange)).
Proof.
  split.
  - split; [lia|]. split; [reflexivity|].
    eexists. apply (forward_ok 1 (init_b 0) valid_b); [lia|].
    repeat (apply Forall_cons; [unfold t_nrows; cbn; lia|]). apply Forall_nil.
  - split; [|split].
    + apply Exists_cons_hd. unfold t_nrows. cbn. lia.
    + reflexivity.
    + vm_compute. reflexivity.
Qed.



(** C2 on the code.  The label of the token is its top-1 index; the sparse
    tensor handed to the softmax then holds the coordinate (0, 1) twice, and
    once coalesced the value stored there is 4, twice the logit 2. *)
Lemma topk_tiled_label_added_twice :
  TopKTiledSoftmax.init W_b 1 1 = Ok (m_b 1) /\
  map snd (selected 1 (m_b 1) X_b 0) = [1%nat] /\
  nth 1 (logits_row W_b (nth 0 (t_rows X_b) [])) 0%Q = 2%Q /\
  exists s,
    TopKTiledSoftmax.forward_sparse (m_b 1) X_b target_b = Ok s /\
    s_entries s = [((0%nat, 1%nat), 2%Q); ((0%nat, 1%nat), 2%Q)] /\
    Torch.lookup (0%nat, 1%nat) (Torch.coalesce (s_entries s)) = Some 4%Q.
Proof.
  split; [reflexivity|]. split; [reflexivity|]. split; [reflexivity|].
  eexists. split; [vm_compute; reflexivity|]. split; reflexivity.
Qed.

Lemma Q2R_num (z : Z) : Q2R (z # 1) = IZR z.
Proof. unfold Q2R. simpl. field. Qed.

(** C3 on the code.  With [k] the size of the vocabulary and one tile,
    [TopKTiledSoftmax.forward] does not return the distribution of
    [BaselineSoftmax.forward]: for the logits [1; 2] and the label 1 the
    first entry is [e / (e + e^4)] instead of [e / (e + e^2)]. *)
Lemma topk_tiled_full_k_differs :
  Z.of_nat (t_nrows W_b) = 2%Z /\
  TopKTiledSoftmax.init W_b 2 1 = Ok (m_b 2) /\
  BaselineSoftmax.init W_b 2 = Ok (BaselineSoftmax.mk W_b false) /\
  exists out_t out_b,
    TopKTiledSoftmax.forward (m_b 2) X_b target_b = Ok (PyTensor out_t) /\
    BaselineSoftmax.forward (BaselineSoftmax.mk W_b false) X_b target_b
    = Ok (PyTensor out_b) /\
    entry out_t 0 0 = (exp 1 / (exp 1 + (exp 4 + 0)))%R /\
    entry out_b 0 0 = (exp 1 / (exp 1 + (exp 2 + 0)))%R /\
    entry out_t 0 0 <> entry out_b 0 0.
Proof.
  split; [reflexivity|]. split; [reflexivity|]. split; [reflexivity|].
  assert (Hwide : Forall (fun fc => (2 <= Z.of_nat (t_nrows fc))%Z)
                         (TopKTiledSoftmax.fcs (m_b 2))).
  { repeat (apply Forall_cons; [unfold t_nrows; cbn; lia|]). apply Forall_nil. }
  exists (Torch.to_dense (Torch.sparse_softmax (pre_softmax W_b 2 (m_b 2) X_b target_b))),
         (dense_softmax W_b X_b).
  assert (Ht : entry (Torch.to_dense
                        (Torch.sparse_softmax (pre_softmax W_b 2 (m_b 2) X_b target_b)))
                     0 0 = (exp 1 / (exp 1 + (exp 4 + 0)))%R).
  { rewrite (softmax_entry (pre_softmax W_b 2 (m_b 2) X_b target_b) (t := 0) (c := 0) (v := 1%Q)).
    - replace (Torch.coalesce (s_entries (pre_softmax W_b 2 (m_b 2) X_b target_b)))
        with [((0%nat, 0%nat), 1%Q); ((0%nat, 1%nat), 4%Q)]
        by (vm_compute; reflexivity).
      cbn [Torch.row_entries filter fst snd Nat.eqb map Torch.rsum fold_right].
      now rewrite !Q2R_num.
    - unfold pre_softmax, t_nrows. simpl. lia.
    - unfold pre_softmax, t_nrows. simpl. lia.
    - vm_compute. reflexivity. }
  assert (Hb : entry (dense_softmax W_b X_b) 0 0
               = (exp 1 / (exp 1 + (exp 2 + 0)))%R).
  { unfold entry, dense_softmax. cbn [r_rows X_b t_rows map nth].
    replace (logits_row W_b [1%Q]) with [1%Q; 2%Q] by (vm_compute; reflexivity).
    unfold softmax_spec. cbn [map nth Torch.rsum fold_right].
    now rewrite !Q2R_num. }
  split; [apply (forward_ok 1 (init_b 2) valid_b); [lia | exact Hwide]|].
  split; [now apply baseline_forward_spec with (k := 2%Z)|].
  split; [exact Ht|]. split; [exact Hb|].
  rewrite Ht, Hb. apply Rlt_not_eq.
  apply ratio_lt; try apply exp_pos. apply exp_increasing. lra.
Qed.



(** The sibling [TopKSoftmax] on the same call: the label's logit enters
    the softmax once. *)
Lemma topk_softmax_label_once :
  Torch.zip_with TopKSoftmax.masked_row [[1; 2]%Q] [[1; 1]%nat]
  = [[None; Some (2 + 0)%Q]].
Proof. reflexivity. Qed.

Section SsdExample.
Import String.
Local Open Scope string_scope.

Lemma ssd_round_trip_witness :
  SsdOffload.persist_then_read
    (SsdOffload.mkHandle [2%nat] Float16 SsdOffload.InMemoryCache
       (Some ("f", 3%nat))
       (Some [Byte.x01; Byte.x02; Byte.x03; Byte.x04]) None false)
    (SsdOffload.mkWorld [("f", [Byte.xff])] [])
  = SsdOffload.OOk [Byte.x01; Byte.x02; Byte.x03; Byte.x04].
Proof.
  apply (@ssd_round_trip _ _ _ "f" 3%nat);
    [reflexivity | discriminate | reflexivity | reflexivity].
Defined.

End SsdExample.

(** * Further properties of the kernels *)

Unset Implicit Arguments.

(** ** The tiles built by [TopKTiledSoftmax.__init__] *)

Section Tiles.
Import Torch.

Lemma chunks_fuel_length {A : Type} (fuel n : nat) (l : list A) :
  (0 < n)%nat -> (length l <= fuel)%nat ->
  length (chunks_fuel fuel n l) = ((length l + n - 1) / n)%nat.
Proof.
  intros Hn. revert l. induction fuel as [|fuel IH]; intros l Hl.
  - destruct l; [|simpl in Hl; lia]. simpl.
    symmetry. apply Nat.div_small. lia.
  - destruct l as [|a l].
    + simpl. symmetry. apply Nat.div_small. lia.
    + change (S (length (chunks_fuel fuel n (skipn n (a :: l))))
              = ((length (a :: l) + n - 1) / n)%nat).
      rewrite IH by (rewrite length_skipn; simpl length in *; lia).
      rewrite length_skipn. set (len := length (a :: l)).
      assert (Hlen : (0 < len)%nat) by (unfold len; simpl; lia).
      destruct (Nat.le_gt_cases n len) as [Hge|Hlt].
      * replace (len + n - 1)%nat with ((len - n + n - 1) + 1 * n)%nat by lia.
        rewrite Nat.div_add by lia. lia.
      * replace (len - n)%nat with 0%nat by lia.
        replace (0 + n - 1)%nat with (n - 1)%nat by lia.
        rewrite (Nat.div_small (n - 1) n) by lia.
        replace (len + n - 1)%nat with ((len - 1) + 1 * n)%nat by lia.
        rewrite Nat.div_add by lia.
        rewrite (Nat.div_small (len - 1) n) by lia. reflexivity.
Qed.

Lemma chunks_fuel_nth {A : Type} (fuel n : nat) (l : list A) (i : nat) :
  (0 < n)%nat -> (length l <= fuel)%nat ->
  (i < length (chunks_fuel fuel n l))%nat ->
  length (nth i (chunks_fuel fuel n l) []) = Nat.min n (length l - i * n).
Proof.
  intros Hn. revert l i. induction fuel as [|fuel IH]; intros l i Hl Hi.
  - simpl in Hi. lia.
  - destruct l as [|a l]; [simpl in Hi; lia|].
    change (chunks_fuel (S fuel) n (a :: l))
      with (firstn n (a :: l) :: chunks_fuel fuel n (skipn n (a :: l))) in *.
    destruct i as [|i].
    + cbn [nth]. rewrite length_firstn. lia.
    + cbn [nth length] in *.
      rewrite IH; [| rewrite length_skipn; simpl length in *; lia | lia].
      rewrite length_skipn, Nat.mul_succ_l. cbn [length]. lia.
Qed.

Lemma split_rows_chunks {A : Type} (l : list A) (s : Z) (cs : list (list A)) :
  split_rows l s = Ok cs -> l <> [] ->
  (0 < s)%Z /\ cs = chunks (Z.to_nat s) l.
Proof.
  unfold split_rows. intros Hs Hne.
  destruct (s <? 0)%Z eqn:E1; [discriminate|].
  destruct (s =? 0)%Z eqn:E2.
  - destruct l; [congruence | discriminate].
  - apply Z.ltb_ge in E1. apply Z.eqb_neq in E2.
    destruct l; [congruence|]. inversion Hs. split; [lia | reflexivity].
Qed.

Lemma init_fcs (proj_weight : tensor) (k tile_factor : Z) (m : TopKTiledSoftmax.t) :
  TopKTiledSoftmax.init proj_weight k tile_factor = Ok m ->
  tile_factor <> 0%Z /\
  exists cs,
    split_rows (t_rows proj_weight)
      (Z.of_nat (t_nrows proj_weight) / tile_factor) = Ok cs /\
    TopKTiledSoftmax.fcs m
    = map (mkTensor (t_dtype proj_weight) (t_ncols proj_weight)) cs.
Proof.
  unfold TopKTiledSoftmax.init, floordiv, split. intros Hinit.
  destruct (tile_factor =? 0)%Z eqn:E; cbn [bind] in Hinit; [discriminate|].
  apply Z.eqb_neq in E. split; [exact E|].
  destruct (split_rows (t_rows proj_weight)
              (Z.of_nat (t_nrows proj_weight) / tile_factor)) as [cs|e];
    cbn [bind] in Hinit; [|discriminate].
  destruct (is_fp16_or_fp32 _); cbn [py_assert bind] in Hinit; [|discriminate].
  inversion Hinit. exists cs. split; reflexivity.
Qed.

(** The widths of the tiles: what the constructor stores. *)
Lemma init_tiles (proj_weight : tensor) (k tile_factor : Z)
  (m : TopKTiledSoftmax.t) :
  TopKTiledSoftmax.init proj_weight k tile_factor = Ok m ->
  (0 < t_nrows proj_weight)%nat ->
  let s := Z.to_nat (Z.of_nat (t_nrows proj_weight) / tile_factor) in
  (0 < s)%nat /\
  length (TopKTiledSoftmax.fcs m) = ((t_nrows proj_weight + s - 1) / s)%nat /\
  forall i, (i < length (TopKTiledSoftmax.fcs m))%nat ->
    t_nrows (nth i (TopKTiledSoftmax.fcs m) proj_weight)
    = Nat.min s (t_nrows proj_weight - i * s).
Proof.
  intros Hinit Hpos. cbv zeta.
  destruct (init_fcs _ _ _ _ Hinit) as (Htf & cs & Hsplit & Hfcs).
  apply split_rows_chunks in Hsplit;
    [| unfold t_nrows in Hpos; destruct (t_rows proj_weight);
       [simpl in Hpos; lia | discriminate]].
  destruct Hsplit as [Hs Hcs].
  set (s := Z.to_nat (Z.of_nat (t_nrows proj_weight) / tile_factor)) in *.
  assert (Hs' : (0 < s)%nat) by (unfold s; lia).
  rewrite Hfcs, Hcs, length_map. unfold chunks, t_nrows.
  split; [exact Hs'|].
  split; [now apply chunks_fuel_length|].
  intros i Hi.
  rewrite (nth_indep _ proj_weight
             (mkTensor (t_dtype proj_weight) (t_ncols proj_weight) []))
    by (rewrite length_map; exact Hi).
  rewrite (map_nth (mkTensor (t_dtype proj_weight) (t_ncols proj_weight))).
  cbn [t_rows]. now apply chunks_fuel_nth.
Qed.

Lemma div_neg_divisor (v tf : Z) : (0 < v)%Z -> (tf < 0)%Z -> (v / tf < 0)%Z.
Proof.
  intros Hv Htf.
  pose proof (Z.div_mod v tf ltac:(lia)) as Hdm.
  pose proof (Z.mod_neg_bound v tf Htf) as Hb.
  nia.
Qed.

(** X1.  A module that was constructed on a non-empty vocabulary has
    [0 < tile_factor <= out_dim]; its tiles, one after the other, are the
    rows of the weight; every tile has [out_dim // tile_factor] rows except
    the last one, which has what is left; there are at least [tile_factor]
    tiles. *)
Theorem topk_tiled_tiles_partition
  (proj_weight : tensor) (k tile_factor : Z) (m : TopKTiledSoftmax.t) :
  TopKTiledSoftmax.init proj_weight k tile_factor = Ok m ->
  (0 < t_nrows proj_weight)%nat ->
  let s := Z.to_nat (Z.of_nat (t_nrows proj_weight) / tile_factor) in
  (0 < tile_factor <= Z.of_nat (t_nrows proj_weight))%Z /\
  concat (map t_rows (TopKTiledSoftmax.fcs m)) = t_rows proj_weight /\
  (tile_factor <= Z.of_nat (length (TopKTiledSoftmax.fcs m)))%Z /\
  length (TopKTiledSoftmax.fcs m) = ((t_nrows proj_weight + s - 1) / s)%nat /\
  forall i, (i < length (TopKTiledSoftmax.fcs m))%nat ->
    t_nrows (nth i (TopKTiledSoftmax.fcs m) proj_weight)
    = Nat.min s (t_nrows proj_weight - i * s).
Proof.
  intros Hinit Hpos. cbv zeta.
  destruct (init_tiles _ _ _ _ Hinit Hpos) as (Hs & Hlen & Hw).
  destruct (init_ok _ _ _ Hinit) as (_ & _ & _ & _ & _ & _ & Hcat & _).
  destruct (init_fcs _ _ _ _ Hinit) as (Htf & _).
  set (V := t_nrows proj_weight) in *.
  set (s := Z.to_nat (Z.of_nat V / tile_factor)) in *.
  assert (Hrange : (0 < tile_factor <= Z.of_nat V)%Z).
  { destruct (Z.lt_trichotomy tile_factor 0) as [Hneg|[Hz|Hp]]; [|lia|].
    - pose proof (div_neg_divisor (Z.of_nat V) tile_factor ltac:(lia) Hneg).
      unfold s in Hs. lia.
    - split; [exact Hp|].
      destruct (Z.le_gt_cases tile_factor (Z.of_nat V)) as [Hle|Hgt]; [exact Hle|].
      unfold s in Hs. rewrite Z.div_small in Hs by lia. simpl in Hs. lia. }
  split; [exact Hrange|]. split; [exact Hcat|].
  split; [|split; [exact Hlen | exact Hw]].
  rewrite Hlen.
  assert (Hmul : (tile_factor * (Z.of_nat V / tile_factor) <= Z.of_nat V)%Z)
    by (apply Z.mul_div_le; lia).
  assert (Hsz : Z.of_nat s = (Z.of_nat V / tile_factor)%Z).
  { unfold s. rewrite Z2Nat.id; [reflexivity|]. apply Z.div_pos; lia. }
  assert (Hq : (Z.to_nat tile_factor <= (V + s - 1) / s)%nat).
  { apply Nat.div_le_lower_bound; [lia|]. nia. }
  lia.
Qed.

(** X2.  The outcome of the constructor, case by case: a zero
    [tile_factor] is a division by zero; a [tile_factor] that is negative or
    exceeds a non-empty vocabulary is refused by [torch.split]; a weight
    that is neither float16 nor float32 fails the assertion (after the
    split); everything else constructs a module. *)
Theorem topk_tiled_init_outcome (proj_weight : tensor) (k tile_factor : Z) :
  (tile_factor = 0%Z ->
   TopKTiledSoftmax.init proj_weight k tile_factor = Err ZeroDivisionError) /\
  (tile_factor <> 0%Z -> (0 < t_nrows proj_weight)%nat ->
   ~ (0 < tile_factor <= Z.of_nat (t_nrows proj_weight))%Z ->
   TopKTiledSoftmax.init proj_weight k tile_factor
   = Err (RuntimeError SplitSize)) /\
  (tile_factor <> 0%Z ->
   t_nrows proj_weight = 0%nat \/
   (0 < tile_factor <= Z.of_nat (t_nrows proj_weight))%Z ->
   (is_fp16_or_fp32 (t_dtype proj_weight) = false ->
    TopKTiledSoftmax.init proj_weight k tile_factor = Err AssertionError) /\
   (is_fp16_or_fp32 (t_dtype proj_weight) = true ->
    exists m, TopKTiledSoftmax.init proj_weight k tile_factor = Ok m)).
Proof.
  unfold TopKTiledSoftmax.init, floordiv, split, split_rows, t_nrows.
  split; [|split].
  - intros ->. reflexivity.
  - intros Htf Hpos Hbad.
    replace (tile_factor =? 0)%Z with false by (symmetry; apply Z.eqb_neq; lia).
    cbn [bind].
    destruct (Z.lt_trichotomy tile_factor 0) as [Hneg|[Hz|Hp]]; [|lia|].
    + pose proof (div_neg_divisor (Z.of_nat (length (t_rows proj_weight)))
                    tile_factor ltac:(lia) Hneg) as Hd.
      replace (_ / _ <? 0)%Z with true by (symmetry; apply Z.ltb_lt; exact Hd).
      reflexivity.
    + rewrite Z.div_small by lia. cbn [Z.ltb Z.eqb Z.compare].
      destruct (t_rows proj_weight); [simpl in Hpos; lia | reflexivity].
  - intros Htf Hcase.
    replace (tile_factor =? 0)%Z with false by (symmetry; apply Z.eqb_neq; lia).
    cbn [bind].
    assert (Hsplit : exists cs,
              (if (Z.of_nat (length (t_rows proj_weight)) / tile_factor <? 0)%Z
               then Err (RuntimeError SplitSize)
               else if (Z.of_nat (length (t_rows proj_weight)) / tile_factor =? 0)%Z
                    then match t_rows proj_weight with
                         | [] => Ok [[]]
                         | _ :: _ => Err (RuntimeError SplitSize)
                         end
                    else match t_rows proj_weight with
                         | [] => Ok [[]]
                         | _ :: _ =>
                             Ok (chunks
                                   (Z.to_nat
                                      (Z.of_nat (length (t_rows proj_weight))
                                       / tile_factor))
                                   (t_rows proj_weight))
                         end) = Ok cs).
    { destruct Hcase as [Hz|Hr].
      - rewrite Hz. simpl Z.of_nat. rewrite Z.div_0_l by lia.
        destruct (t_rows proj_weight); [|discriminate]. eexists. reflexivity.
      - assert (0 < Z.of_nat (length (t_rows proj_weight)) / tile_factor)%Z
          by (apply Z.div_str_pos; lia).
        replace (_ / _ <? 0)%Z with false by (symmetry; apply Z.ltb_ge; lia).
        replace (_ / _ =? 0)%Z with false by (symmetry; apply Z.eqb_neq; lia).
        destruct (t_rows proj_weight); eexists; reflexivity. }
    destruct Hsplit as [cs ->]. cbn [bind].
    cbn [transpose t_dtype].
    split; intros ->; cbn [py_assert bind]; [reflexivity | eexists; reflexivity].
Qed.

End Tiles.

(** ** For which [k] [TopKTiledSoftmax.forward] succeeds *)

Section KRange.
Import Torch.
Context `{TopKOp}.

Lemma ceil_div (v s : nat) :
  (0 < s)%nat ->
  ((v + s - 1) / s = v / s + (if (v mod s =? 0)%nat then 0 else 1))%nat.
Proof.
  intros Hs.
  pose proof (Nat.div_mod_eq v s) as Hdm.
  pose proof (Nat.mod_upper_bound v s ltac:(lia)) as Hr.
  destruct (Nat.eqb_spec (v mod s) 0) as [Hz|Hnz].
  - symmetry. rewrite Nat.add_0_r.
    apply (Nat.div_unique (v + s - 1) s (v / s) (s - 1)); lia.
  - symmetry.
    apply (Nat.div_unique (v + s - 1) s (v / s + 1) (v mod s - 1)); lia.
Qed.

Lemma forward_topk_err (proj_weight : tensor) (k tile_factor : Z)
  (m : TopKTiledSoftmax.t) (input : tensor) (target : list nat) :
  TopKTiledSoftmax.init proj_weight k tile_factor = Ok m ->
  t_dtype input = t_dtype proj_weight ->
  t_ncols input = t_ncols proj_weight ->
  (k < 0)%Z \/
  Exists (fun fc => (Z.of_nat (t_nrows fc) < k)%Z) (TopKTiledSoftmax.fcs m) ->
  TopKTiledSoftmax.forward m input target = Err (RuntimeError TopkOutOfRange).
Proof.
  intros Hinit Hdt Hnc Hbad.
  destruct (init_ok _ _ _ Hinit) as (_ & Hkk & _ & Hfp & _ & Hne & _ & Hfcs).
  unfold TopKTiledSoftmax.forward, TopKTiledSoftmax.forward_sparse.
  rewrite Hfp, Hkk, Hdt.
  assert (Hall : Forall (fun fc => t_dtype fc = t_dtype input /\
                                   t_ncols fc = t_ncols input)
                        (TopKTiledSoftmax.fcs m)).
  { eapply Forall_impl; [|exact Hfcs]. intros a [Ha1 Ha2]. split; congruence. }
  destruct (dtype_eqb (t_dtype proj_weight) Float16) eqn:E;
    cbn [py_assert bind];
    rewrite (@tile_loop_topk_err _ (TopKTiledSoftmax.fcs m) input k 0%nat
               Hall Hne Hbad); reflexivity.
Qed.

(** The narrowest tile: the last one when the vocabulary does not divide
    evenly. *)
Lemma tiles_wide_iff (proj_weight : tensor) (k tile_factor : Z)
  (m : TopKTiledSoftmax.t) :
  TopKTiledSoftmax.init proj_weight k tile_factor = Ok m ->
  (0 < t_nrows proj_weight)%nat ->
  let s := (Z.of_nat (t_nrows proj_weight) / tile_factor)%Z in
  let r := (Z.of_nat (t_nrows proj_weight) mod s)%Z in
  Forall (fun fc => (k <= Z.of_nat (t_nrows fc))%Z) (TopKTiledSoftmax.fcs m)
  <-> (k <= s)%Z /\ (r = 0%Z \/ k <= r)%Z.
Proof.
  intros Hinit Hpos. cbv zeta.
  destruct (init_tiles _ _ _ _ Hinit Hpos) as (Hs & Hlen & Hw).
  set (V := t_nrows proj_weight) in *.
  set (sn := Z.to_nat (Z.of_nat V / tile_factor)) in *.
  assert (Hsz : (Z.of_nat V / tile_factor)%Z = Z.of_nat sn)
    by (unfold sn; rewrite Z2Nat.id; [reflexivity | lia]).
  rewrite Hsz, <- Nat2Z.inj_mod.
  rewrite (ceil_div V sn Hs) in Hlen.
  pose proof (Nat.div_mod_eq V sn) as Hdm.
  pose proof (Nat.mod_upper_bound V sn ltac:(lia)) as Hr.
  set (q := (V / sn)%nat) in *. set (r := (V mod sn)%nat) in *.
  assert (Hq : (0 < q)%nat).
  { destruct q; [|lia]. exfalso.
    assert (Z.of_nat sn * tile_factor <= Z.of_nat V)%Z.
    { rewrite <- Hsz, Z.mul_comm. apply Z.mul_div_le.
      destruct (Z.lt_trichotomy tile_factor 0) as [Hn|[Hz|Hp]]; [|subst|exact Hp].
      - pose proof (div_neg_divisor (Z.of_nat V) tile_factor ltac:(lia) Hn). lia.
      - rewrite Z.div_0_r in Hsz. lia. }
    assert (0 < tile_factor)%Z.
    { destruct (Z.lt_trichotomy tile_factor 0) as [Hn|[Hz|Hp]]; [|subst|exact Hp].
      - pose proof (div_neg_divisor (Z.of_nat V) tile_factor ltac:(lia) Hn). lia.
      - rewrite Z.div_0_r in Hsz. lia. }
    nia. }
  rewrite Forall_nth. split.
  - intros Hall. split.
    + specialize (Hall 0%nat proj_weight).
      rewrite Hw in Hall by (rewrite Hlen; lia).
      assert ((0 < length (TopKTiledSoftmax.fcs m))%nat) by (rewrite Hlen; lia).
      specialize (Hall ltac:(lia)). lia.
    + destruct (Nat.eqb_spec r 0) as [Hz|Hnz]; [left; lia | right].
      specialize (Hall q proj_weight).
      rewrite Hw in Hall by (rewrite Hlen; lia).
      specialize (Hall ltac:(rewrite Hlen; lia)).
      assert (V - q * sn = r)%nat by nia. lia.
  - intros [Hks Hkr] i d Hi.
    rewrite (nth_indep _ d proj_weight) by exact Hi.
    rewrite Hw by exact Hi. rewrite Hlen in Hi.
    destruct (Nat.eqb_spec r 0) as [Hz|Hnz].
    + assert (sn <= V - i * sn)%nat by nia. lia.
    + destruct Hkr as [Hkr|Hkr]; [lia|].
      assert (r <= V - i * sn)%nat by nia. lia.
Qed.

(** X3.  On an otherwise valid call with a non-empty vocabulary, [forward]
    succeeds exactly when [0 <= k <= out_dim // tile_factor] and [k] also
    fits the last tile, the one of [out_dim mod (out_dim // tile_factor)]
    rows when that is not zero; in every other case it stops on the error
    of [torch.topk]. *)
Theorem topk_tiled_forward_k_range
  (proj_weight : tensor) (k tile_factor : Z) (m : TopKTiledSoftmax.t)
  (input : tensor) (target : list nat) :
  TopKTiledSoftmax.init proj_weight k tile_factor = Ok m ->
  valid_call proj_weight input target ->
  (0 < t_nrows proj_weight)%nat ->
  let s := (Z.of_nat (t_nrows proj_weight) / tile_factor)%Z in
  let r := (Z.of_nat (t_nrows proj_weight) mod s)%Z in
  ((0 <= k <= s)%Z /\ (r = 0%Z \/ k <= r)%Z ->
   exists out, TopKTiledSoftmax.forward m input target = Ok (PyTensor out)) /\
  (~ ((0 <= k <= s)%Z /\ (r = 0%Z \/ k <= r)%Z) ->
   TopKTiledSoftmax.forward m input target
   = Err (RuntimeError TopkOutOfRange)).
Proof.
  intros Hinit Hvalid Hpos. cbv zeta.
  pose proof (tiles_wide_iff _ _ _ _ Hinit Hpos) as Hiff. cbv zeta in Hiff.
  split.
  - intros [[Hk0 Hks] Hkr]. eexists.
    apply (@forward_ok _ proj_weight k tile_factor m input target Hinit Hvalid Hk0).
    apply Hiff. now split.
  - intros Hbad.
    apply (forward_topk_err _ _ _ _ _ _ Hinit (v_dtype Hvalid) (v_ncols Hvalid)).
    destruct (Z.lt_ge_cases k 0) as [Hneg|Hk0]; [now left | right].
    assert (Hnot : ~ Forall (fun fc => (k <= Z.of_nat (t_nrows fc))%Z)
                            (TopKTiledSoftmax.fcs m)).
    { intros Hall. apply Hiff in Hall. destruct Hall as [Hks Hkr].
      apply Hbad. split; [lia | exact Hkr]. }
    apply neg_Forall_Exists_neg in Hnot; [|intros fc; apply Z_le_dec].
    eapply Exists_impl; [|exact Hnot]. intros fc Hfc. simpl in Hfc. lia.
Qed.

End KRange.

(** ** Labels and dtypes [TopKTiledSoftmax.forward] refuses *)

Section Refused.
Import Torch.
Context `{TopKOp}.

Lemma forward_sparse_gather_err (proj_weight : tensor) (k tile_factor : Z)
  (m : TopKTiledSoftmax.t) (input : tensor) (target : list nat) (e : error) :
  TopKTiledSoftmax.init proj_weight k tile_factor = Ok m ->
  t_dtype input = t_dtype proj_weight ->
  t_ncols input = t_ncols proj_weight ->
  (0 <= k)%Z ->
  Forall (fun fc => (k <= Z.of_nat (t_nrows fc))%Z) (TopKTiledSoftmax.fcs m) ->
  gather (transpose proj_weight)
    (expand target (t_nrows (transpose proj_weight))) = Err e ->
  TopKTiledSoftmax.forward_sparse m input target = Err e.
Proof.
  intros Hinit Hdt Hnc Hk Hwide Hgather.
  destruct (init_ok _ _ _ Hinit)
    as (Hvoc & Hkk & Hweight & Hfp & Hdok & Hne & Hcat & Hfcs).
  set (kn := Z.to_nat k).
  assert (Hfits : Forall (tile_fits input kn) (TopKTiledSoftmax.fcs m)).
  { rewrite Forall_forall in *. intros fc Hfc.
    destruct (Hfcs _ Hfc) as [Hd Hc]. specialize (Hwide _ Hfc).
    unfold tile_fits, kn. repeat split; [congruence | congruence | lia]. }
  destruct (@tile_loop_ok _ (TopKTiledSoftmax.fcs m) input k 0%nat Hk Hfits)
    as (vals & idxs & Hloop & Hlv & Hli & Hfv & Hfi & Hcats).
  unfold TopKTiledSoftmax.forward_sparse.
  rewrite Hfp, Hkk, Hvoc, Hweight, Hdt.
  assert (Hassert :
            (if dtype_eqb (t_dtype proj_weight) Float16
             then py_assert (dtype_eqb (t_dtype proj_weight) Float16)
             else Ok tt) = Ok tt)
    by (destruct (dtype_eqb (t_dtype proj_weight) Float16) eqn:E; reflexivity).
  rewrite Hassert. cbn [bind]. rewrite Hloop. cbn [bind].
  destruct vals as [|v0 vals'];
    [destruct (TopKTiledSoftmax.fcs m); simpl in *; congruence|].
  destruct idxs as [|i0 idxs'];
    [destruct (TopKTiledSoftmax.fcs m); simpl in *; congruence|].
  unfold cat, icat. cbn [bind].
  rewrite topk_ok.
  2: exact Hk.
  2:{ cbn [t_ncols].
      rewrite (@sum_ncols (Z.to_nat k) (v0 :: vals'))
        by (eapply Forall_impl; [|exact Hfv]; intros a Ha; apply Ha).
      simpl length. lia. }
  cbn [bind]. rewrite Hgather. reflexivity.
Qed.

(** X4.  A label that is not a vocabulary index makes [forward] fail with
    the index error of [torch.gather], whatever the other labels are (the
    hidden size being positive and [k] fitting every tile). *)
Theorem topk_tiled_label_out_of_range
  (proj_weight : tensor) (k tile_factor : Z) (m : TopKTiledSoftmax.t)
  (input : tensor) (target : list nat) :
  TopKTiledSoftmax.init proj_weight k tile_factor = Ok m ->
  t_dtype input = t_dtype proj_weight ->
  t_ncols input = t_ncols proj_weight ->
  (0 < t_ncols proj_weight)%nat ->
  (0 <= k)%Z ->
  Forall (fun fc => (k <= Z.of_nat (t_nrows fc))%Z) (TopKTiledSoftmax.fcs m) ->
  Exists (fun l => (t_nrows proj_weight <= l)%nat) target ->
  TopKTiledSoftmax.forward m input target
  = Err (RuntimeError IndexOutOfRange).
Proof.
  intros Hinit Hdt Hnc Hhid Hk Hwide Hbad.
  unfold TopKTiledSoftmax.forward.
  rewrite (forward_sparse_gather_err proj_weight k tile_factor m input target
             (RuntimeError IndexOutOfRange) Hinit Hdt Hnc Hk Hwide);
    [reflexivity|].
  unfold gather, expand. cbn [i_rows i_ncols].
  unfold transpose at 2. unfold t_nrows at 1. cbn [t_rows].
  rewrite length_transpose_rows.
  destruct (t_ncols proj_weight) as [|hd]; [lia|].
  cbn [repeat forallb].
  assert (Hf : forallb (fun i => (i <? t_ncols (transpose proj_weight))%nat) target
               = false).
  { apply Exists_exists in Hbad. destruct Hbad as [l [Hl Hge]].
    destruct (forallb _ target) eqn:E; [|reflexivity].
    rewrite forallb_forall in E. specialize (E _ Hl).
    apply Nat.ltb_lt in E. unfold transpose in E. cbn [t_ncols] in E. lia. }
  rewrite Hf. reflexivity.
Qed.

(** X5.  An activation whose dtype is not the weight's is refused: by the
    assertion of [forward] when the weight is float16, by the first
    projection when the weight is float32 (the hidden sizes agreeing). *)
Theorem topk_tiled_dtype_mismatch
  (proj_weight : tensor) (k tile_factor : Z) (m : TopKTiledSoftmax.t)
  (input : tensor) (target : list nat) :
  TopKTiledSoftmax.init proj_weight k tile_factor = Ok m ->
  t_dtype input <> t_dtype proj_weight ->
  (t_dtype proj_weight = Float16 ->
   TopKTiledSoftmax.forward m input target = Err AssertionError) /\
  (t_dtype proj_weight = Float32 ->
   t_ncols input = t_ncols proj_weight ->
   TopKTiledSoftmax.forward m input target
   = Err (RuntimeError DtypeMismatch)).
Proof.
  intros Hinit Hneq.
  destruct (init_ok _ _ _ Hinit) as (_ & _ & _ & Hfp & _ & Hne & _ & Hfcs).
  unfold TopKTiledSoftmax.forward, TopKTiledSoftmax.forward_sparse.
  rewrite Hfp. split; intros Hw; [|intros _]; rewrite Hw in *; cbn [dtype_eqb].
  - destruct (t_dtype input); try congruence; reflexivity.
  - cbn [bind].
    destruct (TopKTiledSoftmax.fcs m) as [|fc rest]; [congruence|].
    inversion Hfcs as [|? ? [Hd _] _]; subst.
    cbn [TopKTiledSoftmax.tile_loop]. unfold linear at 1.
    rewrite Hd.
    destruct (t_dtype input); try congruence; reflexivity.
Qed.

End Refused.

(** ** The distribution a row receives *)

Section RowView.
Import Torch.
Local Open Scope R_scope.

Lemma rsum_perm (l l' : list R) : Permutation l l' -> rsum l = rsum l'.
Proof. induction 1; simpl; lra. Qed.


Lemma lookup_of_in {V : Type} (k : nat * nat) (v : V)
  (l : list ((nat * nat) * V)) :
  NoDup (keys l) -> In (k, v) l -> lookup k l = Some v.
Proof.
  unfold keys.
  induction l as [|[k0 v0] l IH]; simpl; intros Hnd Hin; [contradiction|].
  inversion Hnd as [|? ? Hnot Hnd']; subst.
  destruct Hin as [Heq|Hin].
  - inversion Heq; subst. now rewrite key_eqb_refl.
  - destruct (key_eqb k k0) eqn:E.
    + apply key_eqb_eq in E. subst. exfalso. apply Hnot.
      apply in_map_iff. now exists (k0, v).
    + now apply IH.
Qed.

Lemma keys_row_entries {V : Type} (t : nat) (l : list ((nat * nat) * V))
  (k : nat * nat) :
  In k (keys (row_entries t l)) <-> In k (keys l) /\ fst k = t.
Proof.
  unfold keys. rewrite !in_map_iff. split.
  - intros [e [<- He]]. apply in_row_entries in He. destruct He as [He Ht].
    split; [now exists e | exact Ht].
  - intros [[e [<- He]] Ht]. exists e. split; [reflexivity|].
    apply in_row_entries. now split.
Qed.

Lemma keys_row_nodup {V : Type} (t : nat) (l : list ((nat * nat) * V)) :
  NoDup (keys l) -> NoDup (keys (row_entries t l)).
Proof.
  unfold keys, row_entries.
  induction l as [|e l IH]; simpl; intros Hnd; [constructor|].
  inversion Hnd as [|? ? Hnot Hnd']; subst.
  destruct (fst (fst e) =? t)%nat; [|now apply IH].
  simpl. constructor; [|now apply IH].
  intros Hin. apply Hnot. apply in_map_iff in Hin.
  destruct Hin as [e' [Hf He']]. apply filter_In in He'.
  apply in_map_iff. exists e'. tauto.
Qed.

(** Every entry of the coalesced tensor holds the sum of the values given
    at its coordinate. *)
Lemma coalesce_entry (es : list ((nat * nat) * Q)) (e : (nat * nat) * Q) :
  In e (coalesce es) -> (snd e == sum_at (fst e) es)%Q.
Proof.
  intros Hin. destruct e as [k0 v]. simpl.
  apply lookup_coalesce. apply lookup_of_in; [apply coalesce_nodup | exact Hin].
Qed.

(** The sum the softmax forms over row [t]: one term per coordinate of the
    row, whatever the order in which [S] lists the columns. *)
Lemma row_sum_by_columns (es : list ((nat * nat) * Q)) (t : nat) (S : list nat) :
  NoDup S ->
  (forall c, In (t, c) (keys es) <-> In c S) ->
  rsum (map (fun e => exp (Q2R (snd e))) (row_entries t (coalesce es)))
  = rsum (map (fun c => exp (Q2R (sum_at (t, c) es))) S).
Proof.
  intros Hnd Hmem.
  transitivity
    (rsum (map (fun k0 => exp (Q2R (sum_at k0 es)))
               (keys (row_entries t (coalesce es))))).
  { unfold keys. rewrite map_map. f_equal. apply map_ext_in.
    intros e He. apply in_row_entries in He. destruct He as [He _].
    f_equal. apply Qeq_eqR. now apply coalesce_entry. }
  replace (map (fun c => exp (Q2R (sum_at (t, c) es))) S)
    with (map (fun k0 => exp (Q2R (sum_at k0 es))) (map (pair t) S))
    by now rewrite map_map.
  apply rsum_perm, Permutation_map.
  apply NoDup_Permutation.
  - apply keys_row_nodup, coalesce_nodup.
  - apply NoDup_map_inj; [|exact Hnd]. intros a b Heq. now inversion Heq.
  - intros [r c]. rewrite keys_row_entries, coalesce_keys, in_map_iff. simpl.
    split.
    + intros [Hin ->]. exists c. split; [reflexivity | now apply Hmem].
    + intros [c' [Heq Hc']]. inversion Heq; subst. split; [now apply Hmem | reflexivity].
Qed.

End RowView.

Section RowDistribution.
Import Torch.
Context `{TopKOp}.

Variables (proj_weight : tensor) (k tile_factor : Z) (m : TopKTiledSoftmax.t).
Variables (input : tensor) (target : list nat).

Hypothesis Hinit : TopKTiledSoftmax.init proj_weight k tile_factor = Ok m.
Hypothesis Hvalid : valid_call proj_weight input target.
Hypothesis Hk : (0 <= k)%Z.
Hypothesis Hwide :
  Forall (fun fc => (k <= Z.of_nat (t_nrows fc))%Z) (TopKTiledSoftmax.fcs m).

Variable t : nat.
Hypothesis Ht : (t < t_nrows input)%nat.

Local Abbreviation row_sparse := (pre_softmax proj_weight k m input target).
Local Abbreviation row_out := (to_dense (sparse_softmax row_sparse)).
Local Abbreviation row_logits :=
  (logits_row proj_weight (nth t (t_rows input) [])).
Local Abbreviation row_label := (nth t target 0%nat).
Local Abbreviation row_topk := (map snd (selected k m input t)).

Lemma selected_nodup (r : list Q) :
  NoDup (map snd (select (tiles_of (TopKTiledSoftmax.fcs m) r) (Z.to_nat k))).
Proof.
  pose proof (@tiles_ok proj_weight k tile_factor m Hinit Hwide r) as [Hne Hall].
  destruct (@select_is_topk _ _ _ Hne Hall) as (_ & Hnd & _). exact Hnd.
Qed.

(** What is stored at a selected column other than the label: its logit. *)
Lemma stored_topk (c : nat) :
  In c row_topk -> c <> row_label ->
  (sum_at (t, c) (s_entries row_sparse) == nth c row_logits 0)%Q.
Proof.
  intros Hc Hne. unfold pre_softmax. cbn [s_entries]. rewrite sum_at_app.
  apply in_map_iff in Hc. destruct Hc as [[v c'] [Heq Hin]].
  simpl in Heq. subst c'.
  destruct (@selected_topk _ proj_weight k tile_factor m input Hinit Hwide t)
    as (_ & _ & Hval & _).
  destruct (Hval _ _ Hin) as [_ Hv].
  rewrite (sum_at_unique (t, c) v (topk_entries _ _ _)).
  - rewrite sum_at_absent.
    + rewrite Hv. apply Qplus_0_r.
    + intros Hin'. apply in_map_iff in Hin'.
      destruct Hin' as [[[t' c'] v'] [Heq Hin']]. simpl in Heq.
      inversion Heq; subst.
      apply (proj1 (in_target_entries _ _ _ _ _ _ (v_target_len Hvalid))) in Hin'.
      tauto.
  - apply topk_entries_nodup. exact selected_nodup.
  - apply in_topk_entries. now split.
Qed.

(** What is stored at the label: its logit, once when the label was not
    selected and twice when it was. *)
Lemma stored_label :
  (~ In row_label row_topk ->
   (sum_at (t, row_label) (s_entries row_sparse) == nth row_label row_logits 0)%Q) /\
  (In row_label row_topk ->
   (sum_at (t, row_label) (s_entries row_sparse)
    == nth row_label row_logits 0 + nth row_label row_logits 0)%Q).
Proof.
  assert (Htgt : (sum_at (t, row_label) (target_entries proj_weight input target)
                  == nth row_label row_logits 0)%Q).
  { apply sum_at_unique; [apply target_entries_nodup|].
    apply in_target_entries; [apply Hvalid | now repeat split]. }
  unfold pre_softmax. cbn [s_entries]. split; intros Hsel; rewrite sum_at_app, Htgt.
  - rewrite sum_at_absent; [apply Qplus_0_l|].
    intros Hin. apply Hsel. apply in_map_iff in Hin.
    destruct Hin as [[[t' c'] v'] [Heq Hin]]. simpl in Heq. inversion Heq; subst.
    apply in_topk_entries in Hin. destruct Hin as [_ Hin].
    apply in_map_iff. now exists (v', nth t target 0%nat).
  - apply in_map_iff in Hsel. destruct Hsel as [[v c'] [Heq Hin]].
    simpl in Heq. subst c'.
    destruct (@selected_topk _ proj_weight k tile_factor m input Hinit Hwide t)
      as (_ & _ & Hval & _).
    destruct (Hval _ _ Hin) as [_ Hv].
    rewrite (sum_at_unique (t, row_label) v (topk_entries _ _ _)).
    + now rewrite Hv.
    + apply topk_entries_nodup. exact selected_nodup.
    + apply in_topk_entries. now split.
Qed.

Local Open Scope R_scope.

(** The value the softmax sees at column [c] of the row. *)
Local Abbreviation seen c := (Q2R (sum_at (t, c) (s_entries row_sparse))).

Lemma columns_of_row :
  NoDup (row_label :: remove Nat.eq_dec row_label row_topk) /\
  forall c, In (t, c) (keys (s_entries row_sparse)) <->
            In c (row_label :: remove Nat.eq_dec row_label row_topk).
Proof.
  split.
  - constructor; [apply remove_In|].
    pose proof (selected_nodup (nth t (t_rows input) [])) as Hnd.
    unfold selected. induction Hnd as [|a l Hna Hnd IH]; simpl; [constructor|].
    destruct (Nat.eq_dec (nth t target 0%nat) a); [exact IH|].
    constructor; [|exact IH]. intros Hin. apply in_remove in Hin. tauto.
  - intros c. rewrite (@pre_softmax_keys _ proj_weight k m input target Hvalid t c).
    simpl. split.
    + intros [_ [Hc|Hc]]; [|now left].
      destruct (Nat.eq_dec c (nth t target 0%nat)) as [->|Hne]; [now left|].
      right. now apply in_in_remove.
    + intros [Hc|Hc]; split; try exact Ht; [now right|].
      left. now apply in_remove in Hc.
Qed.

(** Every specified entry of the row, in closed form. *)
Lemma row_closed_form (c : nat) :
  In c (row_label :: row_topk) ->
  entry row_out t c
  = exp (seen c)
    / rsum (map (fun j => exp (seen j))
                (row_label :: remove Nat.eq_dec row_label row_topk)).
Proof.
  intros Hc.
  assert (Hkey : In (t, c) (keys (s_entries row_sparse))).
  { apply pre_softmax_keys; [exact Hvalid|]. split; [exact Ht|].
    destruct Hc as [<-|Hc]; [now right | now left]. }
  assert (Hrange : (c < t_nrows proj_weight)%nat)
    by exact (@pre_softmax_range _ proj_weight k tile_factor m input target
                Hinit Hvalid Hwide t c Hkey).
  destruct (lookup (t, c) (coalesce (s_entries row_sparse))) as [v|] eqn:E.
  - rewrite (@softmax_entry row_sparse t c v Ht Hrange E).
    destruct columns_of_row as [Hnd Hmem].
    rewrite (row_sum_by_columns _ t _ Hnd Hmem).
    now rewrite (Qeq_eqR _ _ (@lookup_coalesce _ _ _ E)).
  - exfalso. apply lookup_none in E. apply E. now apply coalesce_keys.
Qed.

(** The row of a token whose label was not selected. *)
Lemma row_restricted (c : nat) :
  ~ In row_label row_topk ->
  In c (row_label :: row_topk) ->
  entry row_out t c
  = exp (Q2R (nth c row_logits 0%Q))
    / rsum (map (fun j => exp (Q2R (nth j row_logits 0%Q)))
                (row_label :: row_topk)).
Proof.
  intros Hnot Hc. rewrite (row_closed_form c Hc).
  rewrite notin_remove by exact Hnot.
  assert (Hseen : forall j, In j (row_label :: row_topk) ->
            seen j = Q2R (nth j row_logits 0%Q)).
  { intros j [<-|Hj]; apply Qeq_eqR.
    - now apply stored_label.
    - apply stored_topk; [exact Hj|]. intros ->. contradiction. }
  rewrite (Hseen c Hc). f_equal. f_equal.
  apply map_ext_in. intros j Hj. now rewrite (Hseen j Hj).
Qed.

End RowDistribution.

Section RowTheorems.
Import Torch.
Context `{TopKOp}.
Local Open Scope R_scope.

Lemma remove_length_nodup (x : nat) (l : list nat) :
  NoDup l -> In x l -> S (length (remove Nat.eq_dec x l)) = length l.
Proof.
  induction 1 as [|a l Hna Hnd IH]; simpl; intros Hin; [contradiction|].
  destruct (Nat.eq_dec x a) as [->|Hne].
  - now rewrite notin_remove.
  - simpl. f_equal. apply IH. destruct Hin as [Heq|Hin]; [congruence | exact Hin].
Qed.

Lemma nonzero_true (x : R) : nonzero x = true <-> x <> 0.
Proof.
  unfold nonzero. destruct (Req_dec_T x 0); split; congruence.
Qed.


(** X7, in exact arithmetic.
    The number of nonzero entries of the row returned for a token is
    [k] when the token's label is one of its [k] selected indices, and
    [k + 1] when it is not. *)
Theorem topk_tiled_nonzero_count
  (proj_weight : tensor) (k tile_factor : Z) (m : TopKTiledSoftmax.t)
  (input : tensor) (target : list nat) :
  TopKTiledSoftmax.init proj_weight k tile_factor = Ok m ->
  valid_call proj_weight input target ->
  (0 <= k)%Z ->
  Forall (fun fc => (k <= Z.of_nat (t_nrows fc))%Z) (TopKTiledSoftmax.fcs m) ->
  exists out,
    TopKTiledSoftmax.forward m input target = Ok (PyTensor out) /\
    forall t, (t < t_nrows input)%nat ->
      exists G,
        topk_indices (logits_row proj_weight (nth t (t_rows input) []))
                     (Z.to_nat k) G /\
        length (filter nonzero (nth t (r_rows out) []))
        = if in_dec Nat.eq_dec (nth t target 0%nat) G
          then Z.to_nat k else S (Z.to_nat k).
Proof.
  intros Hinit Hvalid Hk Hwide.
  exists (to_dense (sparse_softmax (pre_softmax proj_weight k m input target))).
  split; [exact (@forward_ok _ proj_weight k tile_factor m input target
                   Hinit Hvalid Hk Hwide)|].
  intros t Ht.
  set (G := map snd (selected k m input t)).
  set (lab := nth t target 0%nat).
  set (out := to_dense (sparse_softmax (pre_softmax proj_weight k m input target))).
  assert (HG : topk_indices (logits_row proj_weight (nth t (t_rows input) []))
                            (Z.to_nat k) G).
  { apply is_topk_indices.
    exact (@selected_topk _ proj_weight k tile_factor m input Hinit Hwide t). }
  exists G. split; [exact HG|].
  destruct (columns_of_row proj_weight k tile_factor m input target
              Hinit Hvalid Hwide t Ht) as [Hnd Hmem].
  fold G lab in Hnd, Hmem.
  assert (Hrow : nth t (r_rows out) [] =
                 map (fun c => entry out t c) (seq 0 (t_nrows proj_weight))).
  { unfold out, entry, to_dense. cbn [r_rows rs_nrows rs_ncols sparse_softmax
      pre_softmax s_nrows s_ncols].
    rewrite nth_map_seq by exact Ht.
    apply map_ext_in. intros c Hc. apply in_seq in Hc.
    symmetry. apply nth_map_seq. lia. }
  rewrite Hrow, filter_map_swap, length_map.
  assert (Hperm : Permutation
            (filter (fun c => nonzero (entry out t c)) (seq 0 (t_nrows proj_weight)))
            (lab :: remove Nat.eq_dec lab G)).
  { apply NoDup_Permutation; [apply NoDup_filter, seq_NoDup | exact Hnd |].
    intros c. rewrite filter_In, in_seq, nonzero_true, <- Hmem. split.
    - intros [[_ Hc] Hnz].
      destruct (ListDec.In_dec (fun a b : nat * nat =>
                  ltac:(decide equality; apply Nat.eq_dec)) (t, c)
                  (keys (s_entries (pre_softmax proj_weight k m input target))))
        as [Hin|Hnin]; [exact Hin|].
      exfalso. apply Hnz.
      exact (proj2 (@forward_entry _ proj_weight k m input target t c Ht Hc) Hnin).
    - intros Hin.
      assert (Hc : (c < t_nrows proj_weight)%nat)
        by exact (@pre_softmax_range _ proj_weight k tile_factor m input target
                    Hinit Hvalid Hwide t c Hin).
      split; [lia|].
      pose proof (proj1 (@forward_entry _ proj_weight k m input target t c Ht Hc) Hin).
      fold out in H0. lra. }
  rewrite (Permutation_length Hperm). simpl length.
  destruct HG as (Hlen & HndG & _).
  destruct (in_dec Nat.eq_dec lab G) as [Hin|Hnin].
  - now rewrite remove_length_nodup.
  - now rewrite notin_remove, Hlen.
Qed.


End RowTheorems.

(** ** [TopKSoftmax]: the untiled top-K kernel *)

Section MaskedRow.
Import Torch.
Local Open Scope R_scope.

Lemma nodup_cons_remove (x : nat) (l : list nat) :
  NoDup l -> NoDup (x :: remove Nat.eq_dec x l).
Proof.
  intros Hnd. constructor; [apply remove_In|].
  induction Hnd as [|a l Hna Hnd IH]; simpl; [constructor|].
  destruct (Nat.eq_dec x a); [exact IH|].
  constructor; [|exact IH]. intros Hin. apply in_remove in Hin. tauto.
Qed.

Lemma existsb_eqb (c : nat) (l : list nat) :
  existsb (Nat.eqb c) l = true <-> In c l.
Proof.
  rewrite existsb_exists. split.
  - intros [x [Hx Heq]]. apply Nat.eqb_eq in Heq. now subst.
  - intros Hc. exists c. split; [exact Hc | apply Nat.eqb_refl].
Qed.

(** The columns the mask leaves in a row of [n] logits. *)
Lemma kept_columns (n : nat) (G : list nat) (lab : nat) :
  NoDup G -> (forall g, In g G -> (g < n)%nat) -> (lab < n)%nat ->
  Permutation (filter (fun c => existsb (Nat.eqb c) (G ++ [lab])) (seq 0 n))
              (lab :: remove Nat.eq_dec lab G).
Proof.
  intros Hnd Hr Hlab.
  apply NoDup_Permutation;
    [apply NoDup_filter, seq_NoDup | now apply nodup_cons_remove |].
  intros c. rewrite filter_In, in_seq, existsb_eqb, in_app_iff. simpl. split.
  - intros [_ [Hc|[Hc|[]]]]; [|now left].
    destruct (Nat.eq_dec lab c) as [->|Hne]; [now left|].
    right. apply in_in_remove; [congruence | exact Hc].
  - intros [<-|Hc].
    + split; [lia | right; now left].
    + apply in_remove in Hc. destruct Hc as [Hc _].
      split; [specialize (Hr _ Hc); lia | now left].
Qed.

Lemma masked_values (xs : list Q) (I_ : list nat) (l : list nat) :
  concat (map (fun o : option Q => match o with
                                   | Some v => [Q2R v]
                                   | None => []
                                   end)
            (map (fun c => if existsb (Nat.eqb c) I_
                           then Some (nth c xs 0 + 0)%Q else None) l))
  = map (fun c => Q2R (nth c xs 0%Q))
        (filter (fun c => existsb (Nat.eqb c) I_) l).
Proof.
  induction l as [|c l IH]; simpl; [reflexivity|].
  destruct (existsb (Nat.eqb c) I_); simpl; rewrite IH; [|reflexivity].
  f_equal. apply Qeq_eqR, Qplus_0_r.
Qed.

(** An entry of the softmax of a masked row. *)
Lemma masked_entry (xs : list Q) (I_ : list nat) (c : nat) :
  (c < length xs)%nat ->
  nth c (TopKSoftmax.softmax_masked_row (TopKSoftmax.masked_row xs I_)) 0
  = if existsb (Nat.eqb c) I_
    then exp (Q2R (nth c xs 0%Q))
         / rsum (map (fun j => exp (Q2R (nth j xs 0%Q)))
                     (filter (fun j => existsb (Nat.eqb j) I_)
                             (seq 0 (length xs))))
    else 0.
Proof.
  intros Hc. unfold TopKSoftmax.softmax_masked_row, TopKSoftmax.masked_row.
  rewrite masked_values, map_map, !map_map.
  rewrite nth_map_seq by exact Hc.
  destruct (existsb (Nat.eqb c) I_) eqn:E; [|unfold Rdiv; ring].
  rewrite (Qeq_eqR _ _ (Qplus_0_r (nth c xs 0%Q))).
  apply (shift_invariance (fun j => Q2R (nth j xs 0%Q))).
  apply filter_In. split; [apply in_seq; lia | exact E].
Qed.

Lemma masked_length (xs : list Q) (I_ : list nat) :
  length (TopKSoftmax.softmax_masked_row (TopKSoftmax.masked_row xs I_))
  = length xs.
Proof.
  unfold TopKSoftmax.softmax_masked_row, TopKSoftmax.masked_row.
  now rewrite !length_map, length_seq.
Qed.

Lemma rsum_filter (g : nat -> R) (p : nat -> bool) (l : list nat) :
  rsum (map (fun c => if p c then g c else 0) l) = rsum (map g (filter p l)).
Proof.
  induction l as [|c l IH]; simpl; [reflexivity|].
  destruct (p c); simpl; rewrite IH; ring.
Qed.

(** The softmax of a masked row that keeps at least one column sums to
    one. *)
Lemma masked_row_sum (xs : list Q) (I_ : list nat) (c : nat) :
  (c < length xs)%nat -> In c I_ ->
  rsum (TopKSoftmax.softmax_masked_row (TopKSoftmax.masked_row xs I_)) = 1.
Proof.
  intros Hc Hin.
  rewrite <- (map_nth_seq_id
                (TopKSoftmax.softmax_masked_row (TopKSoftmax.masked_row xs I_)) 0).
  rewrite masked_length.
  set (kept := filter (fun j => existsb (Nat.eqb j) I_) (seq 0 (length xs))).
  set (Z := rsum (map (fun j => exp (Q2R (nth j xs 0%Q))) kept)).
  transitivity
    (rsum (map (fun j => if existsb (Nat.eqb j) I_
                         then exp (Q2R (nth j xs 0%Q)) / Z else 0)
               (seq 0 (length xs)))).
  { f_equal. apply map_ext_in. intros j Hj. apply in_seq in Hj.
    apply masked_entry. lia. }
  rewrite (rsum_filter (fun j => exp (Q2R (nth j xs 0%Q)) / Z)).
  fold kept. rewrite (rsum_map_div (fun j => exp (Q2R (nth j xs 0%Q)))).
  fold Z.
  assert (HZ : 0 < Z).
  { apply rsum_exp_pos. intros Hnil.
    assert (Hk : In c kept).
    { apply filter_In. split; [apply in_seq; lia | now apply existsb_eqb]. }
    rewrite Hnil in Hk. contradiction. }
  field. lra.
Qed.

(** Masking nothing: the softmax of the row. *)
Lemma masked_full (xs : list Q) (I_ : list nat) :
  (forall c, (c < length xs)%nat -> In c I_) ->
  TopKSoftmax.softmax_masked_row (TopKSoftmax.masked_row xs I_)
  = softmax_spec xs.
Proof.
  intros Hall.
  assert (Hkept : filter (fun j => existsb (Nat.eqb j) I_) (seq 0 (length xs))
                  = seq 0 (length xs)).
  { apply forallb_filter_id. apply forallb_forall. intros j Hj.
    apply in_seq in Hj. apply existsb_eqb, Hall. lia. }
  apply nth_ext with (d := 0) (d' := 0).
  - rewrite masked_length. unfold softmax_spec. now rewrite length_map.
  - intros c Hc. rewrite masked_length in Hc.
    rewrite masked_entry by exact Hc.
    rewrite (proj2 (existsb_eqb c I_) (Hall c Hc)), Hkept.
    rewrite (map_seq_nth (fun x => exp (Q2R x)) xs 0%Q).
    unfold softmax_spec.
    rewrite (nth_indep _ 0 ((fun v => exp (Q2R v)
               / rsum (map (fun x => exp (Q2R x)) xs)) 0%Q))
      by (now rewrite length_map).
    now rewrite (map_nth (fun v => exp (Q2R v)
                   / rsum (map (fun x => exp (Q2R x)) xs))).
Qed.

End MaskedRow.

Section TopKDense.
Import Torch.
Context `{TopKOp}.
Local Open Scope R_scope.

Lemma topk_softmax_forward_spec (proj_weight : tensor) (k : Z)
  (self : TopKSoftmax.t) (input : tensor) (target : list nat) :
  TopKSoftmax.init proj_weight k = Ok self ->
  valid_call proj_weight input target ->
  (0 <= k <= Z.of_nat (t_nrows proj_weight))%Z ->
  TopKSoftmax.forward self input target
  = Ok (PyTensor
          (mkRTensor Float32 (t_nrows proj_weight)
             (zip_with (topk_softmax_row proj_weight (Z.to_nat k))
                       (t_rows input) target))).
Proof.
  unfold TopKSoftmax.init. intros Hinit Hvalid Hk.
  destruct (dtype_eqb (t_dtype proj_weight) Float32) eqn:Hfp;
    cbn [py_assert bind] in Hinit; [|discriminate].
  inversion Hinit. subst self. clear Hinit.
  apply dtype_eqb_eq in Hfp.
  destruct Hvalid as [_ _ Hd Hc Hlen Hrange].
  unfold TopKSoftmax.forward. cbn [TopKSoftmax.fc TopKSoftmax.k].
  rewrite (linear_ok input proj_weight (eq_sym Hd) (eq_sym Hc)). cbn [bind].
  rewrite topk_ok by (cbn [t_ncols]; lia). cbn [bind].
  unfold t_nrows at 1. cbn [t_rows i_rows t_ncols t_dtype].
  rewrite length_map. fold (t_nrows input). rewrite Hlen, Nat.eqb_refl.
  cbn [bind]. rewrite map_map.
  cbn [cat_rows].
  assert (Hidx :
    forallb (forallb (fun i => (i <? t_nrows proj_weight)%nat))
      (zip_with (@app nat)
         (map (fun r => map snd (topk_row (map (dot r) (t_rows proj_weight))
                                          (Z.to_nat k))) (t_rows input))
         (map (fun l => [l]) target)) = true).
  { clear Hlen. revert target Hrange.
    induction (t_rows input) as [|r rows IH]; intros [|lab target] Hrange;
      simpl; try reflexivity.
    inversion Hrange as [|? ? Hlab Hrest]; subst.
    rewrite (IH target Hrest), andb_true_r.
    rewrite forallb_app. simpl. rewrite andb_true_r.
    apply andb_true_iff. split; [|now apply Nat.ltb_lt].
    apply forallb_forall. intros g Hg. apply Nat.ltb_lt.
    assert (Hle : (Z.to_nat k <= length (map (dot r) (t_rows proj_weight)))%nat)
      by (rewrite length_map; fold (t_nrows proj_weight); lia).
    destruct (@topk_row_spec _ _ _ Hle) as (_ & _ & Hval & _).
    apply in_map_iff in Hg. destruct Hg as [[v g'] [<- Hin]].
    destruct (Hval _ _ Hin) as [Hlt _]. now rewrite length_map in Hlt. }
  rewrite Hidx. cbn [bind]. rewrite Hd, Hfp.
  do 3 f_equal.
  clear Hidx Hlen Hrange. revert target.
  unfold topk_softmax_row, logits_row.
  induction (t_rows input) as [|r rows IH]; intros [|lab target]; simpl;
    try reflexivity.
  f_equal. apply IH.
Qed.

Lemma topk_softmax_row_nth (proj_weight input : tensor) (target : list nat)
  (kn t : nat) :
  (t < t_nrows input)%nat -> length target = t_nrows input ->
  nth t (zip_with (topk_softmax_row proj_weight kn) (t_rows input) target) []
  = topk_softmax_row proj_weight kn (nth t (t_rows input) []) (nth t target 0%nat).
Proof.
  intros Ht Hlen. apply nth_zip_with; [exact Ht | lia].
Qed.

Lemma logits_length (proj_weight : tensor) (r : list Q) :
  length (logits_row proj_weight r) = t_nrows proj_weight.
Proof. unfold logits_row. now rewrite length_map. Qed.

Lemma full_topk (xs : list Q) (G : list nat) :
  topk_indices xs (length xs) G ->
  forall c, (c < length xs)%nat -> In c G.
Proof.
  intros (Hlen & Hnd & Hr & _) c Hc.
  apply (NoDup_length_incl Hnd (l' := seq 0 (length xs))).
  - rewrite length_seq. lia.
  - intros g Hg. apply in_seq. specialize (Hr _ Hg). lia.
  - apply in_seq. lia.
Qed.

(** X9, in exact arithmetic.
    On a valid call with [0 <= k <= out_dim], [TopKSoftmax.forward]
    returns a float32 [tokens x out_dim] tensor whose row for a token is
    the softmax restricted to the token's [k] selected indices and its
    label, every logit entering once, also when the label is itself
    selected; every other entry is zero. *)
Theorem topk_softmax_restricted
  (proj_weight : tensor) (k : Z) (self : TopKSoftmax.t)
  (input : tensor) (target : list nat) :
  TopKSoftmax.init proj_weight k = Ok self ->
  valid_call proj_weight input target ->
  (0 <= k <= Z.of_nat (t_nrows proj_weight))%Z ->
  exists out,
    TopKSoftmax.forward self input target = Ok (PyTensor out) /\
    r_dtype out = Float32 /\
    length (r_rows out) = t_nrows input /\
    forall t, (t < t_nrows input)%nat ->
      let xs := logits_row proj_weight (nth t (t_rows input) []) in
      let lab := nth t target 0%nat in
      length (nth t (r_rows out) []) = t_nrows proj_weight /\
      exists G,
        topk_indices xs (Z.to_nat k) G /\
        (forall c, In c (lab :: G) ->
           entry out t c
           = exp (Q2R (nth c xs 0%Q))
             / rsum (map (fun j => exp (Q2R (nth j xs 0%Q)))
                         (lab :: remove Nat.eq_dec lab G))) /\
        (forall c, (c < t_nrows proj_weight)%nat -> ~ In c (lab :: G) ->
           entry out t c = 0).
Proof.
  intros Hinit Hvalid Hk.
  eexists. split; [exact (topk_softmax_forward_spec _ _ _ _ _ Hinit Hvalid Hk)|].
  cbn [r_dtype r_rows]. split; [reflexivity|].
  pose proof (v_target_len Hvalid) as Hlen.
  split.
  { rewrite length_zip_with. unfold t_nrows in *. lia. }
  intros t Ht. cbv zeta. unfold entry. cbn [r_rows].
  rewrite (topk_softmax_row_nth _ _ _ _ _ Ht Hlen).
  unfold topk_softmax_row.
  set (xs := logits_row proj_weight (nth t (t_rows input) [])).
  set (lab := nth t target 0%nat).
  assert (Hxs : length xs = t_nrows proj_weight) by apply logits_length.
  assert (Hle : (Z.to_nat k <= length xs)%nat) by lia.
  pose proof (@topk_row_spec _ xs (Z.to_nat k) Hle) as Htop.
  pose proof (@is_topk_indices _ _ _ Htop) as HG.
  set (G := map snd (topk_row xs (Z.to_nat k))) in *.
  assert (Hlab : (lab < length xs)%nat).
  { rewrite Hxs. pose proof (v_target_range Hvalid) as Hr.
    rewrite Forall_forall in Hr. apply Hr, nth_In. lia. }
  split; [now rewrite masked_length|].
  exists G. split; [exact HG|].
  destruct HG as (_ & Hnd & Hr & _).
  split.
  - intros c Hc.
    assert (Hcl : (c < length xs)%nat)
      by (destruct Hc as [<-|Hc]; [exact Hlab | now apply Hr]).
    rewrite masked_entry by exact Hcl.
    assert (Hmem : existsb (Nat.eqb c) (G ++ [lab]) = true).
    { apply existsb_eqb, in_app_iff.
      destruct Hc as [<-|Hc]; [right; now left | now left]. }
    rewrite Hmem. f_equal.
    apply rsum_perm, Permutation_map, kept_columns; assumption.
  - intros c Hc Hnot.
    rewrite masked_entry by lia.
    destruct (existsb (Nat.eqb c) (G ++ [lab])) eqn:E; [|reflexivity].
    exfalso. apply Hnot. apply existsb_eqb, in_app_iff in E.
    destruct E as [E|[E|[]]]; [now right | now left].
Qed.

(** X10, in exact arithmetic.
    Every row [TopKSoftmax.forward] returns is a probability
    distribution: its entries are nonnegative and sum to one. *)
Theorem topk_softmax_row_sum
  (proj_weight : tensor) (k : Z) (self : TopKSoftmax.t)
  (input : tensor) (target : list nat) :
  TopKSoftmax.init proj_weight k = Ok self ->
  valid_call proj_weight input target ->
  (0 <= k <= Z.of_nat (t_nrows proj_weight))%Z ->
  exists out,
    TopKSoftmax.forward self input target = Ok (PyTensor out) /\
    forall t, (t < t_nrows input)%nat ->
      rsum (nth t (r_rows out) []) = 1 /\
      forall c, (c < t_nrows proj_weight)%nat -> 0 <= entry out t c.
Proof.
  intros Hinit Hvalid Hk.
  eexists. split; [exact (topk_softmax_forward_spec _ _ _ _ _ Hinit Hvalid Hk)|].
  pose proof (v_target_len Hvalid) as Hlen.
  intros t Ht. unfold entry. cbn [r_rows].
  rewrite (topk_softmax_row_nth _ _ _ _ _ Ht Hlen).
  unfold topk_softmax_row.
  set (xs := logits_row proj_weight (nth t (t_rows input) [])).
  set (lab := nth t target 0%nat).
  assert (Hxs : length xs = t_nrows proj_weight) by apply logits_length.
  assert (Hlab : (lab < length xs)%nat).
  { rewrite Hxs. pose proof (v_target_range Hvalid) as Hr.
    rewrite Forall_forall in Hr. apply Hr, nth_In. lia. }
  set (I_ := map snd (topk_row xs (Z.to_nat k)) ++ [lab]).
  assert (Hin : In lab I_) by (apply in_app_iff; right; now left).
  split; [exact (masked_row_sum xs I_ lab Hlab Hin)|].
  intros c Hc. rewrite masked_entry by lia.
  destruct (existsb (Nat.eqb c) I_); [|lra].
  apply Rlt_le, Rdiv_lt_0_compat; [apply exp_pos|].
  apply rsum_exp_pos. intros Hnil.
  assert (Hk' : In lab (filter (fun j => existsb (Nat.eqb j) I_)
                               (seq 0 (length xs)))).
  { apply filter_In. split; [apply in_seq; lia | now apply existsb_eqb]. }
  rewrite Hnil in Hk'. contradiction.
Qed.

(** X11, in exact arithmetic.
    With [k] the size of the vocabulary nothing is masked:
    [TopKSoftmax.forward] returns what [BaselineSoftmax.forward] returns on
    the same weight and activation, the dense softmax of the projection. *)
Theorem topk_softmax_full_k_is_dense
  (proj_weight : tensor) (k k' : Z) (self : TopKSoftmax.t)
  (base : BaselineSoftmax.t) (input : tensor) (target : list nat) :
  TopKSoftmax.init proj_weight k = Ok self ->
  BaselineSoftmax.init proj_weight k' = Ok base ->
  valid_call proj_weight input target ->
  k = Z.of_nat (t_nrows proj_weight) ->
  TopKSoftmax.forward self input target
  = Ok (PyTensor (dense_softmax proj_weight input)) /\
  BaselineSoftmax.forward base input target
  = Ok (PyTensor (dense_softmax proj_weight input)).
Proof.
  intros Hinit Hbase Hvalid Hk.
  split;
    [|exact (@baseline_forward_spec proj_weight k' base input target Hbase
               (v_dtype Hvalid) (v_ncols Hvalid))].
  rewrite (topk_softmax_forward_spec _ _ _ _ _ Hinit Hvalid) by lia.
  unfold dense_softmax. do 3 f_equal.
  pose proof (v_target_len Hvalid) as Hlen. unfold t_nrows in Hlen.
  subst k. rewrite Nat2Z.id. clear Hinit Hbase Hvalid.
  revert target Hlen.
  induction (t_rows input) as [|r rows IH]; intros [|lab target] Hlen;
    simpl in Hlen; try discriminate; [reflexivity|].
  simpl. f_equal; [|apply IH; lia].
  unfold topk_softmax_row. apply masked_full.
  intros c Hc. apply in_app_iff. left.
  rewrite <- (logits_length proj_weight r) at 1.
  apply full_topk with (xs := logits_row proj_weight r); [|exact Hc].
  apply is_topk_indices, topk_row_spec. apply Nat.le_refl.
Qed.

(** X12.  What [TopKSoftmax] refuses: a weight that is not float32 does
    not construct; the projection refuses an activation that is not
    float32 or that has another hidden size; then come, in this order, a
    [k] outside [0 .. out_dim], a target whose length is not the number of
    tokens, a label that is not a vocabulary index. *)
Theorem topk_softmax_refusals
  (proj_weight : tensor) (k : Z) (input : tensor) (target : list nat) :
  (t_dtype proj_weight <> Float32 ->
   TopKSoftmax.init proj_weight k = Err AssertionError) /\
  forall self, TopKSoftmax.init proj_weight k = Ok self ->
    (t_dtype input <> Float32 -> t_ncols input = t_ncols proj_weight ->
     TopKSoftmax.forward self input target = Err (RuntimeError DtypeMismatch)) /\
    (t_dtype input = Float32 -> t_ncols input <> t_ncols proj_weight ->
     TopKSoftmax.forward self input target = Err (RuntimeError ShapeMismatch)) /\
    (t_dtype input = Float32 -> t_ncols input = t_ncols proj_weight ->
     ((k < 0)%Z \/ (Z.of_nat (t_nrows proj_weight) < k)%Z ->
      TopKSoftmax.forward self input target
      = Err (RuntimeError TopkOutOfRange)) /\
     ((0 <= k <= Z.of_nat (t_nrows proj_weight))%Z ->
      (length target <> t_nrows input ->
       TopKSoftmax.forward self input target
       = Err (RuntimeError ShapeMismatch)) /\
      (length target = t_nrows input ->
       Exists (fun l => (t_nrows proj_weight <= l)%nat) target ->
       TopKSoftmax.forward self input target
       = Err (RuntimeError IndexOutOfRange)))).
Proof.
  unfold TopKSoftmax.init. split.
  - intros Hne. destruct (t_dtype proj_weight); try congruence; reflexivity.
  - intros self Hinit.
    destruct (dtype_eqb (t_dtype proj_weight) Float32) eqn:Hfp;
      cbn [py_assert bind] in Hinit; [|discriminate].
    inversion Hinit. subst self. clear Hinit.
    apply dtype_eqb_eq in Hfp.
    unfold TopKSoftmax.forward. cbn [TopKSoftmax.fc TopKSoftmax.k].
    split; [|split].
    + intros Hne _. unfold linear. rewrite Hfp.
      destruct (t_dtype input); try congruence; reflexivity.
    + intros Hd Hne. unfold linear. rewrite Hfp, Hd. cbn [dtype_eqb negb].
      apply Nat.eqb_neq in Hne. now rewrite Hne.
    + intros Hd Hc.
      rewrite (linear_ok input proj_weight) by congruence. cbn [bind].
      set (x := mkTensor (t_dtype input) (t_nrows proj_weight) _).
      assert (Hn : t_nrows x = t_nrows input)
        by (unfold x, t_nrows; cbn [t_rows]; apply length_map).
      split.
      * intros Hbad. unfold topk. cbn [t_ncols x].
        assert (Hb : ((k <? 0)%Z || (Z.of_nat (t_nrows proj_weight) <? k)%Z)%bool
                     = true).
        { apply orb_true_iff. destruct Hbad; [left | right]; now apply Z.ltb_lt. }
        now rewrite Hb.
      * intros Hk.
        rewrite topk_ok by (unfold x; cbn [t_ncols]; lia). cbn [bind].
        rewrite Hn.
        split.
        -- intros Hne. apply Nat.eqb_neq in Hne. now rewrite Hne.
        -- intros Hlen Hbad. rewrite Hlen, Nat.eqb_refl.
           cbn [bind cat_rows i_rows]. unfold x. cbn [t_ncols t_rows t_dtype].
           assert (Hidx :
             forallb (forallb (fun i => (i <? t_nrows proj_weight)%nat))
               (zip_with (@app nat)
                  (map (fun r => map snd (topk_row r (Z.to_nat k)))
                     (map (fun r => map (dot r) (t_rows proj_weight))
                        (t_rows input)))
                  (map (fun l => [l]) target)) = false).
           { unfold t_nrows in Hlen. clear Hn. clear x. revert target Hlen Hbad.
             generalize (t_rows input) as rows.
             induction rows as [|r rows IH]; intros [|lab target] Hlen Hbad;
               simpl in Hlen; try discriminate.
             - inversion Hbad.
             - simpl. rewrite forallb_app. simpl.
               inversion Hbad as [? ? Hl|? ? Hl]; subst.
               + apply Nat.ltb_ge in Hl. rewrite Hl.
                 now rewrite !andb_false_r.
               + rewrite (IH target) by (lia || assumption).
                 apply andb_false_r. }
           now rewrite Hidx.
Qed.

End TopKDense.

(** ** The dense kernels *)

Section DenseKernels.
Import Torch.
Local Open Scope R_scope.

Lemma softmax_spec_nth (xs : list Q) (c : nat) :
  (c < length xs)%nat ->
  nth c (softmax_spec xs) 0
  = exp (Q2R (nth c xs 0%Q)) / rsum (map (fun x => exp (Q2R x)) xs).
Proof.
  intros Hc. unfold softmax_spec.
  rewrite (nth_indep _ 0 ((fun v => exp (Q2R v)
             / rsum (map (fun x => exp (Q2R x)) xs)) 0%Q))
    by (now rewrite length_map).
  now rewrite (map_nth (fun v => exp (Q2R v)
                 / rsum (map (fun x => exp (Q2R x)) xs))).
Qed.

Lemma softmax_spec_sum (xs : list Q) :
  xs <> [] -> rsum (softmax_spec xs) = 1.
Proof.
  intros Hne. unfold softmax_spec.
  rewrite (rsum_map_div (fun v => exp (Q2R v))).
  pose proof (@rsum_exp_pos _ Q2R xs Hne). field. lra.
Qed.

(** X13, in exact arithmetic.
    Whatever the target, [BaselineSoftmax.forward] returns a
    [tokens x out_dim] tensor whose rows are probability distributions
    with full support: over a non-empty vocabulary every entry is strictly
    positive and every row sums to one. *)
Theorem baseline_rows_are_distributions
  (proj_weight : tensor) (k : Z) (self : BaselineSoftmax.t)
  (input : tensor) (target : list nat) :
  BaselineSoftmax.init proj_weight k = Ok self ->
  t_dtype input = t_dtype proj_weight ->
  t_ncols input = t_ncols proj_weight ->
  (0 < t_nrows proj_weight)%nat ->
  exists out,
    BaselineSoftmax.forward self input target = Ok (PyTensor out) /\
    length (r_rows out) = t_nrows input /\
    forall t, (t < t_nrows input)%nat ->
      length (nth t (r_rows out) []) = t_nrows proj_weight /\
      rsum (nth t (r_rows out) []) = 1 /\
      forall c, (c < t_nrows proj_weight)%nat -> 0 < entry out t c.
Proof.
  intros Hinit Hd Hc Hpos.
  exists (dense_softmax proj_weight input).
  split; [exact (@baseline_forward_spec proj_weight k self input target
                   Hinit Hd Hc)|].
  unfold dense_softmax, entry. cbn [r_rows].
  split; [now rewrite length_map|].
  intros t Ht.
  rewrite (nth_indep _ [] ((fun r => softmax_spec (logits_row proj_weight r)) []))
    by (now rewrite length_map).
  rewrite (map_nth (fun r => softmax_spec (logits_row proj_weight r))).
  set (xs := logits_row proj_weight (nth t (t_rows input) [])).
  assert (Hxs : length xs = t_nrows proj_weight)
    by (unfold xs, logits_row; now rewrite length_map).
  assert (Hne : xs <> []) by (intros E; rewrite E in Hxs; simpl in Hxs; lia).
  split; [unfold softmax_spec; now rewrite length_map|].
  split; [now apply softmax_spec_sum|].
  intros c Hc'. rewrite softmax_spec_nth by lia.
  apply Rdiv_lt_0_compat; [apply exp_pos | now apply rsum_exp_pos].
Qed.

(** X14.  What [BaselineSoftmax] refuses: a weight that is neither float16
    nor float32 does not construct; an activation of another dtype fails
    the assertion when the weight is float16 and the projection when it is
    float32 (the hidden sizes agreeing); an activation of the weight's
    dtype but of another hidden size fails the projection. *)
Theorem baseline_refusals
  (proj_weight : tensor) (k : Z) (input : tensor) (target : list nat) :
  (is_fp16_or_fp32 (t_dtype proj_weight) = false ->
   BaselineSoftmax.init proj_weight k = Err AssertionError) /\
  forall self, BaselineSoftmax.init proj_weight k = Ok self ->
    (t_dtype input <> t_dtype proj_weight ->
     t_dtype proj_weight = Float16 ->
     BaselineSoftmax.forward self input target = Err AssertionError) /\
    (t_dtype input <> t_dtype proj_weight ->
     t_dtype proj_weight = Float32 ->
     t_ncols input = t_ncols proj_weight ->
     BaselineSoftmax.forward self input target
     = Err (RuntimeError DtypeMismatch)) /\
    (t_dtype input = t_dtype proj_weight ->
     t_ncols input <> t_ncols proj_weight ->
     BaselineSoftmax.forward self input target
     = Err (RuntimeError ShapeMismatch)).
Proof.
  unfold BaselineSoftmax.init. split.
  - intros Hbad. now rewrite Hbad.
  - intros self Hinit.
    destruct (is_fp16_or_fp32 (t_dtype proj_weight)) eqn:Hok;
      cbn [py_assert bind] in Hinit; [|discriminate].
    inversion Hinit. subst self. clear Hinit.
    unfold BaselineSoftmax.forward, linear.
    cbn [BaselineSoftmax.fp16 BaselineSoftmax.fc].
    split; [|split].
    + intros Hne Hw. rewrite Hw in *.
      destruct (t_dtype input); try congruence; reflexivity.
    + intros Hne Hw _. rewrite Hw in *.
      destruct (t_dtype input); try congruence; reflexivity.
    + intros Hd Hne. rewrite Hd. apply Nat.eqb_neq in Hne.
      destruct (t_dtype proj_weight); try discriminate;
        cbn [dtype_eqb py_assert bind negb]; now rewrite Hne.
Qed.

(** X15.  [TiledSoftmax.forward] case by case (the activation having the
    dtype and the hidden size of the weight): a zero [tile_factor] is a
    division by zero, raised by [forward] and not by the constructor; a
    negative [tile_factor] or one above a positive number of tokens is
    refused by [torch.split]; otherwise the result is a list of
    [ceil(tokens / s)] tensors, [s = tokens // tile_factor], at least
    [tile_factor] of them, the one at position [i] having
    [min(s, tokens - i * s)] rows and [out_dim] columns. *)
Theorem tiled_softmax_outcome
  (proj_weight : tensor) (k tile_factor : Z) (self : TiledSoftmax.t)
  (input : tensor) (target : list nat) :
  TiledSoftmax.init proj_weight k tile_factor = Ok self ->
  t_dtype input = t_dtype proj_weight ->
  t_ncols input = t_ncols proj_weight ->
  (tile_factor = 0%Z ->
   TiledSoftmax.forward self input target = Err ZeroDivisionError) /\
  (tile_factor <> 0%Z -> (0 < t_nrows input)%nat ->
   ~ (0 < tile_factor <= Z.of_nat (t_nrows input))%Z ->
   TiledSoftmax.forward self input target = Err (RuntimeError SplitSize)) /\
  ((0 < tile_factor <= Z.of_nat (t_nrows input))%Z ->
   let s := Z.to_nat (Z.of_nat (t_nrows input) / tile_factor) in
   exists out,
     TiledSoftmax.forward self input target = Ok (PyList out) /\
     length out = ((t_nrows input + s - 1) / s)%nat /\
     (tile_factor <= Z.of_nat (length out))%Z /\
     forall i, (i < length out)%nat ->
       length (r_rows (nth i out (mkRTensor Float32 0 [])))
       = Nat.min s (t_nrows input - i * s) /\
       r_ncols (nth i out (mkRTensor Float32 0 [])) = t_nrows proj_weight).
Proof.
  intros Hinit Hd Hc.
  assert (Hself : TiledSoftmax.tile_factor self = tile_factor /\
                  TiledSoftmax.fp16 self = dtype_eqb (t_dtype proj_weight) Float16).
  { unfold TiledSoftmax.init in Hinit.
    destruct (is_fp16_or_fp32 (t_dtype proj_weight));
      cbn [py_assert bind] in Hinit; [|discriminate].
    inversion Hinit. now split. }
  destruct Hself as [Htf Hfp].
  assert (Hassert :
            (if TiledSoftmax.fp16 self
             then py_assert (dtype_eqb (t_dtype input) Float16)
             else Ok tt) = Ok tt).
  { rewrite Hfp, Hd.
    destruct (dtype_eqb (t_dtype proj_weight) Float16); reflexivity. }
  split; [|split].
  - intros Hz. unfold TiledSoftmax.forward. rewrite Hassert, Htf, Hz.
    reflexivity.
  - intros Hnz Hpos Hbad. unfold TiledSoftmax.forward.
    rewrite Hassert, Htf. cbn [bind]. unfold floordiv.
    replace (tile_factor =? 0)%Z with false by (symmetry; now apply Z.eqb_neq).
    cbn [bind]. unfold split, split_rows.
    unfold t_nrows in *.
    destruct (t_rows input) as [|r rows] eqn:Erows; [simpl in Hpos; lia|].
    set (n := length (r :: rows)) in *.
    destruct (Z.lt_trichotomy tile_factor 0) as [Hneg|[Hz|Hp]]; [|lia|].
    + pose proof (div_neg_divisor (Z.of_nat n) tile_factor ltac:(lia) Hneg) as Hd'.
      apply Z.ltb_lt in Hd'. now rewrite Hd'.
    + rewrite Z.div_small by lia. reflexivity.
  - intros Hrange. cbv zeta.
    destruct (@tiled_forward_spec proj_weight k tile_factor self input target
                Hinit Hd Hc Hrange) as (tiles & Hsplit & Hfwd).
    exists (map (dense_softmax proj_weight) tiles).
    split; [exact Hfwd|].
    unfold split in Hsplit.
    destruct (split_rows (t_rows input) (Z.of_nat (t_nrows input) / tile_factor))
      as [cs|e] eqn:Ecs; cbn [bind] in Hsplit; [|discriminate].
    inversion Hsplit as [Htiles]. clear Hsplit.
    apply split_rows_chunks in Ecs;
      [| unfold t_nrows in Hrange; destruct (t_rows input);
         [simpl in Hrange; lia | discriminate]].
    destruct Ecs as [Hs Hcs].
    set (s := Z.to_nat (Z.of_nat (t_nrows input) / tile_factor)) in *.
    assert (Hs' : (0 < s)%nat) by (unfold s; lia).
    assert (Hlen : length cs = ((t_nrows input + s - 1) / s)%nat).
    { rewrite Hcs. unfold chunks, t_nrows. now apply chunks_fuel_length. }
    rewrite !length_map. split; [exact Hlen|]. split.
    + rewrite Hlen.
      assert (Hmul : (tile_factor * (Z.of_nat (t_nrows input) / tile_factor)
                      <= Z.of_nat (t_nrows input))%Z)
        by (apply Z.mul_div_le; lia).
      assert (Hsz : Z.of_nat s = (Z.of_nat (t_nrows input) / tile_factor)%Z)
        by (unfold s; rewrite Z2Nat.id; lia).
      assert (Hq : (Z.to_nat tile_factor <= (t_nrows input + s - 1) / s)%nat).
      { apply Nat.div_le_lower_bound; [lia|]. nia. }
      lia.
    + intros i Hi.
      rewrite (nth_indep _ (mkRTensor Float32 0 [])
                 (dense_softmax proj_weight
                    (mkTensor (t_dtype input) (t_ncols input) [])))
        by (rewrite !length_map; exact Hi).
      rewrite (map_nth (dense_softmax proj_weight)).
      rewrite (map_nth (mkTensor (t_dtype input) (t_ncols input))).
      unfold dense_softmax. cbn [r_rows r_ncols t_rows].
      split; [|reflexivity].
      rewrite length_map, Hcs. unfold chunks, t_nrows.
      apply chunks_fuel_nth; [exact Hs' | apply Nat.le_refl |].
      rewrite Hcs in Hi. exact Hi.
Qed.

End DenseKernels.

(** ** Tiling does not change the selection *)

Section Tiling.
Import Torch.
Context `{TopKOp}.
Local Open Scope R_scope.

(** Without ties there is one set of [kn] largest elements. *)
Lemma topk_indices_unique (xs : list Q) (kn : nat) (G1 G2 : list nat) :
  (forall i j, (i < length xs)%nat -> (j < length xs)%nat ->
     (nth i xs 0 == nth j xs 0)%Q -> i = j) ->
  topk_indices xs kn G1 -> topk_indices xs kn G2 ->
  forall c, In c G1 -> In c G2.
Proof.
  intros Hinj (Hl1 & Hn1 & Hr1 & Hd1) (Hl2 & Hn2 & Hr2 & Hd2) c Hc.
  destruct (in_dec Nat.eq_dec c G2) as [Hin|Hnin]; [exact Hin | exfalso].
  assert (Hex : exists h, In h G2 /\ ~ In h G1).
  { destruct (existsb (fun h => negb (existsb (Nat.eqb h) G1)) G2) eqn:E.
    - apply existsb_exists in E. destruct E as [h [Hh Hneg]].
      exists h. split; [exact Hh|]. intros Hin.
      apply (proj2 (existsb_eqb h G1)) in Hin. rewrite Hin in Hneg. discriminate.
    - exfalso. apply Hnin.
      apply (NoDup_length_incl Hn2 (l' := G1)); [lia | | exact Hc].
      intros h Hh. apply existsb_eqb.
      destruct (existsb (Nat.eqb h) G1) eqn:E'; [reflexivity|].
      assert (Hcontra : existsb (fun h => negb (existsb (Nat.eqb h) G1)) G2 = true)
        by (apply existsb_exists; exists h; split; [exact Hh | now rewrite E']).
      congruence. }
  destruct Hex as [h [Hh2 Hh1]].
  assert (Heq : c = h).
  { apply Hinj; [now apply Hr1 | now apply Hr2 |].
    apply Qle_antisym.
    - apply Hd2; [exact Hh2 | now apply Hr1 | exact Hnin].
    - apply Hd1; [exact Hc | now apply Hr2 | exact Hh1]. }
  subst h. contradiction.
Qed.

(** X19, in exact arithmetic.
    On a float32 weight, [TopKTiledSoftmax] and the untiled
    [TopKSoftmax] return the same row for every token whose logits are
    pairwise different and whose label is not among the [k] largest:
    selecting per tile and then again selects the same indices.  (For a
    token whose label is among them the rows differ, see X8.) *)
Theorem tiled_agrees_with_untiled
  (proj_weight : tensor) (k tile_factor : Z) (m : TopKTiledSoftmax.t)
  (self : TopKSoftmax.t) (input : tensor) (target : list nat) :
  TopKTiledSoftmax.init proj_weight k tile_factor = Ok m ->
  TopKSoftmax.init proj_weight k = Ok self ->
  valid_call proj_weight input target ->
  (0 <= k)%Z ->
  Forall (fun fc => (k <= Z.of_nat (t_nrows fc))%Z) (TopKTiledSoftmax.fcs m) ->
  exists out out',
    TopKTiledSoftmax.forward m input target = Ok (PyTensor out) /\
    TopKSoftmax.forward self input target = Ok (PyTensor out') /\
    forall t, (t < t_nrows input)%nat ->
      let xs := logits_row proj_weight (nth t (t_rows input) []) in
      let lab := nth t target 0%nat in
      (forall i j, (i < length xs)%nat -> (j < length xs)%nat ->
         (nth i xs 0 == nth j xs 0)%Q -> i = j) ->
      (forall G, topk_indices xs (Z.to_nat k) G -> ~ In lab G) ->
      forall c, (c < t_nrows proj_weight)%nat -> entry out t c = entry out' t c.
Proof.
  intros Hinit Hinit' Hvalid Hk Hwide.
  assert (HkV : (0 <= k <= Z.of_nat (t_nrows proj_weight))%Z).
  { split; [exact Hk|].
    pose proof (@selected_topk _ proj_weight k tile_factor m input Hinit Hwide 0)
      as (Hlen & Hnd & Hval & _).
    assert (Hle : (length (map snd (selected k m input 0))
                   <= length (seq 0 (t_nrows proj_weight)))%nat).
    { apply NoDup_incl_length; [exact Hnd|].
      intros g Hg. apply in_map_iff in Hg. destruct Hg as [[v g'] [<- Hin]].
      destruct (Hval _ _ Hin) as [Hlt _]. rewrite logits_length in Hlt.
      apply in_seq. simpl. lia. }
    rewrite length_map, Hlen, length_seq in Hle. lia. }
  eexists. eexists.
  split; [exact (@forward_ok _ proj_weight k tile_factor m input target
                   Hinit Hvalid Hk Hwide)|].
  split; [exact (topk_softmax_forward_spec _ _ _ _ _ Hinit' Hvalid HkV)|].
  pose proof (v_target_len Hvalid) as Hlen.
  intros t Ht. cbv zeta. intros Hinj Hlab c Hc.
  set (xs := logits_row proj_weight (nth t (t_rows input) [])) in *.
  set (lab := nth t target 0%nat) in *.
  assert (Hxs : length xs = t_nrows proj_weight) by apply logits_length.
  set (G1 := map snd (selected k m input t)).
  set (G2 := map snd (topk_row xs (Z.to_nat k))).
  assert (HG1 : topk_indices xs (Z.to_nat k) G1).
  { apply is_topk_indices.
    exact (@selected_topk _ proj_weight k tile_factor m input Hinit Hwide t). }
  assert (HG2 : topk_indices xs (Z.to_nat k) G2).
  { apply is_topk_indices, topk_row_spec. lia. }
  assert (Hsame : forall j, In j G1 <-> In j G2).
  { intros j. split; now apply topk_indices_unique with (xs := xs) (kn := Z.to_nat k). }
  assert (Hlabr : (lab < length xs)%nat).
  { rewrite Hxs. pose proof (v_target_range Hvalid) as Hr.
    rewrite Forall_forall in Hr. apply Hr, nth_In. lia. }
  (* the untiled row *)
  unfold entry at 2. cbn [r_rows].
  rewrite (topk_softmax_row_nth _ _ _ _ _ Ht Hlen).
  unfold topk_softmax_row. fold xs lab G2.
  rewrite masked_entry by lia.
  destruct (in_dec Nat.eq_dec c (lab :: G1)) as [Hin|Hnin].
  - rewrite (row_restricted proj_weight k tile_factor m input target
               Hinit Hvalid Hwide t Ht c (Hlab G1 HG1) Hin).
    fold xs lab G1.
    assert (Hmem : existsb (Nat.eqb c) (G2 ++ [lab]) = true).
    { apply existsb_eqb, in_app_iff.
      destruct Hin as [<-|Hin]; [right; now left | left; now apply Hsame]. }
    rewrite Hmem. f_equal.
    apply rsum_perm, Permutation_map.
    destruct HG1 as (_ & Hn1 & _). destruct HG2 as (_ & Hn2 & Hr2 & _).
    rewrite (kept_columns (length xs) G2 lab Hn2 Hr2 Hlabr).
    rewrite notin_remove by (apply Hlab; now apply is_topk_indices, topk_row_spec; lia).
    apply perm_skip. apply NoDup_Permutation; assumption.
  - assert (Hmem : existsb (Nat.eqb c) (G2 ++ [lab]) = false).
    { destruct (existsb (Nat.eqb c) (G2 ++ [lab])) eqn:E; [|reflexivity].
      exfalso. apply Hnin. apply existsb_eqb, in_app_iff in E.
      destruct E as [E|[E|[]]]; [right; now apply Hsame | now left]. }
    rewrite Hmem.
    apply (proj2 (@forward_entry _ proj_weight k m input target t c Ht Hc)).
    intros Hkey. apply Hnin.
    apply (proj1 (@pre_softmax_keys _ proj_weight k m input target Hvalid t c))
      in Hkey.
    destruct Hkey as [_ [Hg|Hl]]; [now right | now left].
Qed.

End Tiling.

(** ** [TritonSoftmax] *)

Section Triton.
Import Torch.
Local Open Scope R_scope.

Lemma triton_init (available : bool) (proj_weight : tensor) (k : Z)
  (self : TritonSoftmax.t) :
  TritonSoftmax.init available proj_weight k = Ok self ->
  available = true /\ t_dtype proj_weight = Float32 /\
  BaselineSoftmax.init proj_weight 0 = Ok self /\
  BaselineSoftmax.fc self = proj_weight.
Proof.
  unfold TritonSoftmax.init, BaselineSoftmax.init. intros Hinit.
  destruct (is_fp16_or_fp32 (t_dtype proj_weight));
    cbn [py_assert bind] in Hinit; [|discriminate].
  destruct available; cbn [py_assert bind] in Hinit; [|discriminate].
  destruct (dtype_eqb (t_dtype proj_weight) Float32) eqn:E;
    cbn [py_assert bind] in Hinit; [|discriminate].
  apply dtype_eqb_eq in E. inversion Hinit. subst self.
  repeat split; assumption || reflexivity.
Qed.

(** X16, in exact arithmetic.
    [TritonSoftmax.forward] on an activation that has the dtype and
    the hidden size of the weight: without tokens the modulo divides by
    zero; with more than 128 tokens, not a multiple of 128, the assertion
    fails; in every other case over a non-empty vocabulary the result is
    the dense softmax [BaselineSoftmax.forward] returns. *)
Theorem triton_softmax_outcome
  (available : bool) (proj_weight : tensor) (k : Z) (self : TritonSoftmax.t)
  (input : tensor) (target : list nat) :
  TritonSoftmax.init available proj_weight k = Ok self ->
  t_dtype input = t_dtype proj_weight ->
  t_ncols input = t_ncols proj_weight ->
  (t_nrows input = 0%nat ->
   TritonSoftmax.forward self input target = Err ZeroDivisionError) /\
  ((128 < t_nrows input)%nat -> (t_nrows input mod 128 <> 0)%nat ->
   TritonSoftmax.forward self input target = Err AssertionError) /\
  ((0 < t_nrows input)%nat ->
   (t_nrows input <= 128)%nat \/ (t_nrows input mod 128 = 0)%nat ->
   (0 < t_nrows proj_weight)%nat ->
   TritonSoftmax.forward self input target
   = Ok (PyTensor (dense_softmax proj_weight input)) /\
   BaselineSoftmax.forward self input target
   = Ok (PyTensor (dense_softmax proj_weight input))).
Proof.
  intros Hinit Hd Hc.
  destruct (triton_init _ _ _ _ Hinit) as (_ & Hfp & Hbase & Hfc).
  unfold TritonSoftmax.forward. rewrite Hfc.
  rewrite (linear_ok input proj_weight (eq_sym Hd) (eq_sym Hc)). cbn [bind].
  set (x := mkTensor (t_dtype input) (t_nrows proj_weight) _).
  assert (Hn : t_nrows x = t_nrows input)
    by (unfold x, t_nrows; cbn [t_rows]; apply length_map).
  rewrite Hn. unfold pymod.
  split; [|split].
  - intros Hz. rewrite Hz. reflexivity.
  - intros Hbig Hmod.
    rewrite Nat.min_r by lia.
    cbn [Z.of_nat Z.eqb bind].
    change (Z.pos (Pos.of_succ_nat 127)) with (Z.of_nat 128).
    rewrite <- Nat2Z.inj_mod.
    replace (Z.of_nat (t_nrows input mod 128) =? 0)%Z with false
      by (symmetry; apply Z.eqb_neq; lia).
    reflexivity.
  - intros Hpos Hdiv HV.
    split;
      [|exact (@baseline_forward_spec proj_weight 0 self input target Hbase Hd Hc)].
    set (div := Nat.min (t_nrows input) 128).
    assert (Hdivpos : (0 < div)%nat) by (unfold div; lia).
    assert (Hmod : (t_nrows input mod div = 0)%nat).
    { unfold div. destruct Hdiv as [Hle|Hm].
      - rewrite Nat.min_l by lia. apply Nat.Div0.mod_same.
      - destruct (Nat.le_gt_cases (t_nrows input) 128) as [Hle|Hgt].
        + rewrite Nat.min_l by lia. apply Nat.Div0.mod_same.
        + rewrite Nat.min_r by lia. exact Hm. }
    replace (Z.of_nat div =? 0)%Z with false
      by (symmetry; apply Z.eqb_neq; lia).
    cbn [bind]. rewrite <- Nat2Z.inj_mod, Hmod. cbn [Z.of_nat Z.eqb py_assert bind].
    unfold TritonSoftmax.reshape3. unfold x at 1 2. cbn [t_rows t_ncols].
    rewrite length_map. fold (t_nrows input).
    replace (t_nrows input * t_nrows proj_weight =? 0)%nat with false
      by (symmetry; apply Nat.eqb_neq; nia).
    cbn [bind]. unfold TritonSoftmax.triton_softmax, chunks.
    rewrite <- concat_map, chunks_fuel_concat by (exact Hdivpos || apply Nat.le_refl).
    unfold x, dense_softmax. cbn [t_dtype t_ncols]. rewrite Hd, Hfp.
    cbn [t_rows]. do 3 f_equal. rewrite map_map. apply map_ext. intros r.
    apply softmax_row_spec.
Qed.

End Triton.

(** ** [get_data] *)

Section GetData.
Context `{RandOp}.

Lemma long_range (u : Q) (v : nat) :
  (0 <= u)%Q -> (u < 1)%Q -> (0 < v)%nat ->
  (Z.to_nat (long (u * inject_Z (Z.of_nat v))) < v)%nat.
Proof.
  intros H0 H1 Hv. unfold long.
  destruct u as [n d]. unfold Qle, Qlt in *. simpl in *.
  rewrite Pos.mul_1_r.
  assert (Hn : (0 <= n)%Z) by lia.
  assert (Hnd : (n < Z.pos d)%Z) by lia.
  rewrite Z.quot_div_nonneg by nia.
  assert (Hq : (n * Z.of_nat v / Z.pos d < Z.of_nat v)%Z)
    by (apply Z.div_lt_upper_bound; nia).
  assert (Hq0 : (0 <= n * Z.of_nat v / Z.pos d)%Z)
    by (apply Z.div_pos; nia).
  lia.
Qed.

(** X17.  [get_data] fails its assertion when the two hidden sizes differ;
    otherwise it returns tensors of the requested shapes and dtype which,
    the vocabulary being non-empty (or there being no token), form a valid
    call of the kernels: every label is a vocabulary index (the product of
    the sample and [vocabs] being taken exactly). *)
Theorem get_data_valid_call
  (tokens d1 d2 vocabs : nat) (dtype : dtype) :
  (d1 <> d2 ->
   get_data ((tokens, d1), (d2, vocabs)) dtype = Err AssertionError) /\
  (d1 = d2 ->
   exists input weight target,
     get_data ((tokens, d1), (d2, vocabs)) dtype = Ok (input, weight, target) /\
     t_nrows input = tokens /\ t_ncols input = d1 /\
     t_nrows weight = vocabs /\ t_ncols weight = d2 /\
     t_dtype input = dtype /\ t_dtype weight = dtype /\
     ((0 < vocabs)%nat \/ tokens = 0%nat -> valid_call weight input target)).
Proof.
  unfold get_data. split.
  - intros Hne. apply Nat.eqb_neq in Hne. now rewrite Hne.
  - intros <-. rewrite Nat.eqb_refl. cbn [py_assert bind].
    destruct (rand_spec tokens d1) as [Hr1 Hr2].
    destruct (rand_vec_spec tokens) as [Hv1 Hv2].
    destruct (linear_init_spec d1 vocabs) as [Hl1 Hl2].
    eexists _, _, _. split; [reflexivity|].
    unfold t_nrows. cbn [t_rows t_ncols t_dtype].
    repeat (split; [assumption || reflexivity|]).
    intros Hcase. constructor; cbn [t_rows t_ncols t_dtype]; try reflexivity.
    + exact Hl2.
    + exact Hr2.
    + unfold t_nrows. cbn [t_rows]. now rewrite length_map, Hv1, Hr1.
    + apply Forall_map. unfold t_nrows. cbn [t_rows]. rewrite Hl1.
      destruct Hcase as [Hpos|Hz].
      * eapply Forall_impl; [|exact Hv2]. intros u [Hu0 Hu1].
        now apply long_range.
      * subst tokens. destruct (rand_vec 0); [constructor | discriminate].
Qed.

End GetData.

Lemma zero_rows_spec (n m : nat) :
  length (zero_rows n m) = n /\ Forall (fun r => length r = m) (zero_rows n m).
Proof.
  unfold zero_rows. split; [apply repeat_length|].
  apply Forall_forall. intros r Hr. apply repeat_spec in Hr. subst.
  apply repeat_length.
Qed.

Lemma zero_vec_spec (n : nat) :
  length (repeat 0%Q n) = n /\
  Forall (fun u => (0 <= u)%Q /\ (u < 1)%Q) (repeat 0%Q n).
Proof.
  split; [apply repeat_length|].
  apply Forall_forall. intros u Hu. apply repeat_spec in Hu. subst.
  split; [apply Qle_refl | reflexivity].
Qed.

#[export] Instance zero_rand_op : RandOp := {|
  rand := zero_rows;
  rand_vec := repeat 0%Q;
  linear_init := fun i o => zero_rows o i;
  rand_spec := zero_rows_spec;
  rand_vec_spec := zero_vec_spec;
  linear_init_spec := fun i o => zero_rows_spec o i
|}.

(** ** The configurations of the offload tests *)

Section Configurations.
Import TestFsdpOffload.

Lemma in_product {A : Type} (pool : list A) (n : nat) (c : list A) :
  In c (product pool n) <-> length c = n /\ Forall (fun x => In x pool) c.
Proof.
  revert c. induction n as [|n IH]; intros c; simpl.
  - split.
    + intros [<-|[]]. split; [reflexivity | constructor].
    + intros [Hl _]. left. destruct c; [reflexivity | discriminate].
  - rewrite in_flat_map. split.
    + intros [x [Hx Hc]]. apply in_map_iff in Hc. destruct Hc as [c' [<- Hc']].
      apply IH in Hc'. destruct Hc' as [Hl Hall].
      split; [simpl; now rewrite Hl | now constructor].
    + intros [Hl Hall]. destruct c as [|x c']; [discriminate|].
      inversion Hall; subst. exists x. split; [assumption|].
      apply in_map_iff. exists c'. split; [reflexivity|].
      apply IH. split; [now inversion Hl | assumption].
Qed.

Lemma cons_all_nodup {A : Type} (pool : list A) (p : list (list A)) :
  NoDup pool -> NoDup p ->
  NoDup (flat_map (fun x => map (cons x) p) pool).
Proof.
  intros Hnd Hp. induction Hnd as [|x pool' Hx Hnd' IHp]; simpl; [constructor|].
  apply NoDup_app.
  - apply NoDup_map_inj; [|exact Hp]. intros a b Heq. now inversion Heq.
  - exact IHp.
  - intros c Hc Hc'. apply in_map_iff in Hc. destruct Hc as [c' [<- _]].
    apply in_flat_map in Hc'. destruct Hc' as [y [Hy Hc']].
    apply in_map_iff in Hc'. destruct Hc' as [c'' [Heq _]].
    inversion Heq; subst. contradiction.
Qed.

Lemma product_nodup {A : Type} (pool : list A) (n : nat) :
  NoDup pool -> NoDup (product pool n).
Proof.
  intros Hnd. induction n as [|n IH]; simpl.
  - constructor; [intros [] | constructor].
  - now apply cons_all_nodup.
Qed.

Lemma product_length {A : Type} (pool : list A) (n : nat) :
  length (product pool n) = (length pool ^ n)%nat.
Proof.
  induction n as [|n IH]; simpl; [reflexivity|].
  rewrite <- IH. clear IH. generalize (product pool n) as p. intros p.
  induction pool as [|x pool IHp]; simpl; [reflexivity|].
  now rewrite length_app, length_map, IHp.
Qed.

Lemma combine_inj_r {K V : Type} (ks : list K) (a b : list V) :
  length a = length ks -> length b = length ks ->
  combine ks a = combine ks b -> a = b.
Proof.
  revert a b. induction ks as [|k ks IH]; intros [|x a] [|y b] Ha Hb Heq;
    simpl in *; try discriminate; [reflexivity|].
  inversion Heq. f_equal. apply IH; congruence.
Qed.

Lemma fst_combine {K V : Type} (ks : list K) (c : list V) :
  length c = length ks -> map fst (combine ks c) = ks.
Proof.
  revert c. induction ks as [|k ks IH]; intros [|x c] Hl; simpl in *;
    try discriminate; [reflexivity|].
  f_equal. apply IH. congruence.
Qed.

Lemma combine_map_self {K V : Type} (f : K -> V) (ks : list K) :
  combine ks (map f ks) = map (fun k => (k, f k)) ks.
Proof. induction ks as [|k ks IH]; simpl; [reflexivity | now rewrite IH]. Qed.

(** X18.  The parameterized offload tests run on every combination of the
    four flags exactly once: [CONFIG_OPTIONS] has [2 ^ 4] entries, no two
    of them equal, each a one-element list holding a dict over the four
    keys, and every assignment of booleans to the keys is one of them. *)
Theorem config_options_cover :
  length CONFIG_OPTIONS = (2 ^ length keys)%nat /\
  NoDup CONFIG_OPTIONS /\
  (forall opt, In opt CONFIG_OPTIONS ->
     exists d, opt = [d] /\ map fst d = keys) /\
  (forall f : String.string -> bool,
     In [map (fun key => (key, f key)) keys] CONFIG_OPTIONS).
Proof.
  unfold CONFIG_OPTIONS, config_options.
  split; [|split; [|split]].
  - now rewrite length_map, product_length.
  - apply NoDup_map_NoDup_ForallPairs.
    + intros a b Ha Hb Heq. apply in_product in Ha, Hb.
      inversion Heq as [Hc].
      apply (combine_inj_r keys); tauto.
    + apply product_nodup. repeat constructor; simpl; intuition discriminate.
  - intros opt Hopt. apply in_map_iff in Hopt.
    destruct Hopt as [config [<- Hc]]. apply in_product in Hc.
    exists (combine keys config). split; [reflexivity|].
    apply fst_combine. now destruct Hc.
  - intros f. apply in_map_iff. exists (map f keys). split.
    + f_equal; apply combine_map_self.
    + apply in_product. split; [apply length_map|].
      apply Forall_forall. intros x _. destruct x; simpl; tauto.
Qed.

End Configurations.

(** ** The properties above on concrete calls *)

Lemma init_e (k : Z) : TopKTiledSoftmax.init W_e k 2 = Ok (m_e k).
Proof. reflexivity. Qed.

Lemma valid_e : valid_call W_e X_e target_e.
Proof.
  constructor; try reflexivity; repeat constructor.
Qed.

Lemma topk_tiled_tiles_partition_witness :
  length (TopKTiledSoftmax.fcs (m_e 1)) = 3%nat /\
  t_nrows (nth 2 (TopKTiledSoftmax.fcs (m_e 1)) W_e) = 1%nat.
Proof.
  destruct (topk_tiled_tiles_partition W_e 1 2 (m_e 1) (init_e 1)
              ltac:(unfold t_nrows; simpl; lia))
    as (_ & _ & _ & Hlen & Hw).
  split; [exact Hlen|]. apply (Hw 2%nat). simpl. lia.
Defined.

Lemma topk_tiled_forward_k_range_witness :
  TopKTiledSoftmax.forward (m_e 2) X_e target_e
  = Err (RuntimeError TopkOutOfRange).
Proof.
  apply (proj2 (@topk_tiled_forward_k_range topk_stable_op W_e 2 2 (m_e 2)
                  X_e target_e (init_e 2) valid_e
                  ltac:(unfold t_nrows; simpl; lia))).
  unfold t_nrows. cbn. intros [_ [Hr|Hr]]; lia.
Defined.

Lemma topk_tiled_label_out_of_range_witness :
  TopKTiledSoftmax.forward (m_a 1) X_a [3; 4]%nat
  = Err (RuntimeError IndexOutOfRange).
Proof.
  apply (@topk_tiled_label_out_of_range topk_stable_op W_a 1 2 (m_a 1) X_a
           [3; 4]%nat (init_a 1) eq_refl eq_refl).
  - simpl. lia.
  - lia.
  - exact wide_a.
  - apply Exists_cons_tl, Exists_cons_hd. unfold t_nrows. simpl. lia.
Defined.

Lemma topk_tiled_dtype_mismatch_witness :
  TopKTiledSoftmax.forward (m_a 1) X_d target_d = Err AssertionError.
Proof.
  apply (proj1 (@topk_tiled_dtype_mismatch topk_stable_op W_a 1 2 (m_a 1)
                  X_d target_d (init_a 1) ltac:(discriminate))).
  reflexivity.
Defined.



Lemma topk_tiled_nonzero_count_witness :
  exists out,
    TopKTiledSoftmax.forward (m_a 1) X_a target_a = Ok (PyTensor out) /\
    exists G,
      topk_indices (logits_row W_a (nth 0 (t_rows X_a) [])) 1 G /\
      length (filter nonzero (nth 0 (r_rows out) []))
      = if in_dec Nat.eq_dec 3%nat G then 1%nat else 2%nat.
Proof.
  destruct (@topk_tiled_nonzero_count topk_stable_op W_a 1 2 (m_a 1) X_a
              target_a (init_a 1) valid_a ltac:(lia) wide_a)
    as (out & Hf & Hrows).
  exists out. split; [exact Hf|]. exact (Hrows 0%nat (Nat.lt_0_succ 1)).
Defined.


Lemma topk_softmax_restricted_witness :
  exists out,
    TopKSoftmax.forward (TopKSoftmax.mk W_b 1) X_d target_d = Ok (PyTensor out) /\
    r_dtype out = Float32 /\ length (r_rows out) = 2%nat.
Proof.
  destruct (@topk_softmax_restricted topk_stable_op W_b 1 (TopKSoftmax.mk W_b 1)
              X_d target_d eq_refl valid_d
              ltac:(unfold t_nrows; simpl; lia))
    as (out & Hf & Hd & Hl & _).
  exists out. split; [exact Hf|]. split; [exact Hd | exact Hl].
Defined.

Lemma topk_softmax_row_sum_witness :
  exists out,
    TopKSoftmax.forward (TopKSoftmax.mk W_b 1) X_d target_d = Ok (PyTensor out) /\
    Torch.rsum (nth 1 (r_rows out) []) = 1%R.
Proof.
  destruct (@topk_softmax_row_sum topk_stable_op W_b 1 (TopKSoftmax.mk W_b 1)
              X_d target_d eq_refl valid_d
              ltac:(unfold t_nrows; simpl; lia))
    as (out & Hf & Hrows).
  exists out. split; [exact Hf|].
  exact (proj1 (Hrows 1%nat ltac:(unfold t_nrows; simpl; lia))).
Defined.

Lemma topk_softmax_full_k_is_dense_witness :
  TopKSoftmax.forward (TopKSoftmax.mk W_b 2) X_d target_d
  = Ok (PyTensor (dense_softmax W_b X_d)).
Proof.
  exact (proj1 (@topk_softmax_full_k_is_dense topk_stable_op W_b 2 0
                  (TopKSoftmax.mk W_b 2) (BaselineSoftmax.mk W_b false)
                  X_d target_d eq_refl eq_refl valid_d eq_refl)).
Defined.

Lemma baseline_rows_are_distributions_witness :
  exists out,
    BaselineSoftmax.forward (BaselineSoftmax.mk W_b false) X_d target_d
    = Ok (PyTensor out) /\
    Torch.rsum (nth 0 (r_rows out) []) = 1%R.
Proof.
  destruct (baseline_rows_are_distributions W_b 0 (BaselineSoftmax.mk W_b false)
              X_d target_d eq_refl eq_refl eq_refl
              ltac:(unfold t_nrows; simpl; lia))
    as (out & Hf & _ & Hrows).
  exists out. split; [exact Hf|].
  exact (proj1 (proj2 (Hrows 0%nat ltac:(unfold t_nrows; simpl; lia)))).
Defined.

Lemma tiled_softmax_outcome_witness :
  exists out,
    TiledSoftmax.forward (TiledSoftmax.mk W_b false 2) X_d target_d
    = Ok (PyList out) /\
    length out = 2%nat.
Proof.
  destruct (proj2 (proj2 (tiled_softmax_outcome W_b 0 2
                            (TiledSoftmax.mk W_b false 2) X_d target_d
                            eq_refl eq_refl eq_refl))
              ltac:(unfold t_nrows; simpl; lia))
    as (out & Hf & Hl & _).
  exists out. split; [exact Hf | exact Hl].
Defined.

Lemma triton_softmax_outcome_witness :
  TritonSoftmax.forward (BaselineSoftmax.mk W_b false) X_d target_d
  = Ok (PyTensor (dense_softmax W_b X_d)).
Proof.
  refine (proj1 (proj2 (proj2 (triton_softmax_outcome true W_b 0
                                 (BaselineSoftmax.mk W_b false) X_d target_d
                                 eq_refl eq_refl eq_refl)) _ _ _));
    unfold t_nrows; simpl; lia.
Defined.

Lemma get_data_valid_call_witness :
  exists input weight target,
    get_data ((2, 3), (3, 5))%nat Float16 = Ok (input, weight, target) /\
    valid_call weight input target.
Proof.
  destruct (proj2 (@get_data_valid_call zero_rand_op 2 3 3 5 Float16) eq_refl)
    as (input & weight & target & Hg & _ & _ & _ & _ & _ & _ & Hv).
  exists input, weight, target. split; [exact Hg|].
  apply Hv. left. lia.
Defined.

Lemma valid_e0 : valid_call W_e X_e [0%nat].
Proof.
  constructor; try reflexivity; repeat constructor.
Qed.

Lemma wide_e : Forall (fun fc => (1 <= Z.of_nat (t_nrows fc))%Z)
                      (TopKTiledSoftmax.fcs (m_e 1)).
Proof.
  repeat (apply Forall_cons; [unfold t_nrows; cbn; lia|]). apply Forall_nil.
Qed.

Lemma tiled_agrees_with_untiled_witness :
  exists out out',
    TopKTiledSoftmax.forward (m_e 1) X_e [0%nat] = Ok (PyTensor out) /\
    TopKSoftmax.forward (TopKSoftmax.mk W_e 1) X_e [0%nat] = Ok (PyTensor out') /\
    forall c, (c < 5)%nat -> entry out 0 c = entry out' 0 c.
Proof.
  destruct (@tiled_agrees_with_untiled topk_stable_op W_e 1 2 (m_e 1)
              (TopKSoftmax.mk W_e 1) X_e [0%nat] (init_e 1) eq_refl valid_e0
              ltac:(lia) wide_e)
    as (out & out' & Hf & Hf' & Hrows).
  exists out, out'. split; [exact Hf|]. split; [exact Hf'|].
  apply (Hrows 0%nat (Nat.lt_0_succ 0)).
  - intros i j Hi Hj Heq.
    destruct i as [|[|[|[|[|i]]]]]; [| | | | |simpl in Hi; lia];
      (destruct j as [|[|[|[|[|j]]]]]; [| | | | |simpl in Hj; lia]);
      try reflexivity; vm_compute in Heq; discriminate.
  - intros G (Hl & _ & _ & Hdom) Hin.
    destruct G as [|g [|g' G]]; try discriminate.
    destruct Hin as [->|[]].
    assert (Hle : (nth 4 (logits_row W_e (nth 0 (t_rows X_e) [])) 0
                   <= nth 0 (logits_row W_e (nth 0 (t_rows X_e) [])) 0)%Q).
    { apply Hdom; [now left | simpl; lia |].
      intros [Heq|[]]. discriminate. }
    vm_compute in Hle. apply Hle. reflexivity.
Defined.
